(** * botwinick_utils: the background job executor and the path helpers

    A shallow embedding of [botwinick_utils/platforms/bg_threads.py] and of
    the list helpers and the file hashing of [botwinick_utils/paths.py].

    The executor is a state machine.  Every [with self._lock:] block of the
    source is one atomic step (the lock serialises them and no job body runs
    while it is held); the job bodies themselves run between such steps, so
    a task is kept with the program point it has reached.  The module-level
    functions take no lock: they are modelled twice, as calls that run one
    after the other ([step], [run]) and as calls whose steps interleave
    ([wstep], [wrun]).  The calls to the [logging] module do not touch the
    executor and are left out. *)

From Stdlib Require Import ZArith Strings.Byte Ascii.
From stdpp Require Import base gmap strings list.

Local Open Scope Z_scope.

Module BgThreads.

(** ** Python values, exceptions and results *)

(** The exceptions that the modelled code can raise.  [JobFailure] stands for
    whatever a job body raises. *)
Inductive exn :=
  | RuntimeError
  | TypeError
  | ValueError
  | KeyError
  | AttributeError
  | JobFailure.

(** A call either returns a value or raises. *)
Inductive result (A : Type) :=
  | Ok (a : A)
  | Raise (e : exn).
Arguments Ok {A} a.
Arguments Raise {A} e.

(** What [os.getenv] can hand back here: the text of the variable, or the
    integer default. *)
Inductive pyval :=
  | PyInt (z : Z)
  | PyStr (s : string).

(** [os.getenv(key, default)] over [os.environ]. *)
Definition os_getenv (environ : gmap string string) (key : string)
    (default : pyval) : pyval :=
  match environ !! key with
  | Some s => PyStr s
  | None => default
  end.

(** [DEFAULT_BG_THREADS = os.getenv('ENGINE_BACKGROUND_THREADS', 4)],
    evaluated when the module is imported. *)
Definition DEFAULT_BG_THREADS (environ : gmap string string) : pyval :=
  os_getenv environ "ENGINE_BACKGROUND_THREADS" (PyInt 4).

(** ** Jobs *)

(** A job body together with its arguments: [fn, *args, **kwargs]. *)
Record call := Call { call_fn : string; call_args : list string }.

(** How a job body ends. *)
Inductive outcome :=
  | Returns
  | Raises.

(** The two wrappers, [_run_pre_job] and [_run_post_job]. *)
Inductive style :=
  | Pre
  | Post.

(** What [ThreadPoolExecutor.submit] puts on the work queue:
    [submit(fn, *args)] or [submit(run_fn, job_id, fn, *args)]. *)
Inductive work_item :=
  | WPlain (c : call)
  | WUnique (run_fn : style) (job_id : string) (c : call).

(** A task taken by a worker, with the point it has reached:
    - [TPlain]: an unkeyed [fn] is executing;
    - [TPreLock]: [_run_pre_job] was entered, its [remove] is still to come;
    - [TPreFn]: [_run_pre_job] has removed the identifier, [fn] is executing;
    - [TPostFn]: [_run_post_job] is executing [fn] inside its [try];
    - [TPostFinally]: [fn] has ended with the given outcome, the [finally]
      block is still to come. *)
Inductive task :=
  | TPlain (c : call)
  | TPreLock (job_id : string) (c : call)
  | TPreFn (job_id : string) (c : call)
  | TPostFn (job_id : string) (c : call)
  | TPostFinally (job_id : string) (c : call) (o : outcome).

(** ** The thread pool of [concurrent.futures]

    [ThreadPoolExecutor] is the standard library's; the record keeps what
    the engine can observe of it: the bound on the workers, the FIFO work
    queue, the tasks being run, the [_shutdown] flag, the work items whose
    futures were cancelled, and how the finished tasks ended (what their
    futures hold). *)
Record ThreadPoolExecutor := {
  max_workers : Z;
  work_queue : list work_item;
  running : list task;
  shutdown_flag : bool;
  cancelled : list work_item;
  finished : list (result unit)
}.

(** [ThreadPoolExecutor(max_workers=...)]: the constructor evaluates
    [max_workers <= 0], which is a [TypeError] on a [str], and refuses a
    bound that is not positive with [ValueError]. *)
Definition ThreadPoolExecutor_init (mw : pyval) : result ThreadPoolExecutor :=
  match mw with
  | PyStr _ => Raise TypeError
  | PyInt n =>
      if n <=? 0 then Raise ValueError
      else Ok {| max_workers := n; work_queue := []; running := [];
                 shutdown_flag := false; cancelled := []; finished := [] |}
  end.

(** [ThreadPoolExecutor.submit]: once shut down it raises [RuntimeError]
    ("cannot schedule new futures after shutdown"); otherwise the work item
    joins the queue and a future is returned. *)
Definition pool_submit (w : work_item) (p : ThreadPoolExecutor)
    : result unit * ThreadPoolExecutor :=
  if shutdown_flag p then (Raise RuntimeError, p)
  else (Ok tt,
        {| max_workers := max_workers p;
           work_queue := work_queue p ++ [w];
           running := running p;
           shutdown_flag := shutdown_flag p;
           cancelled := cancelled p;
           finished := finished p |}).

(** [ThreadPoolExecutor.shutdown(wait, cancel_futures)]: sets the flag and,
    with [cancel_futures], empties the queue and cancels those futures.  It
    never raises, also when called again.  [wait] only delays the return
    until the workers have finished. *)
Definition pool_shutdown (wait cancel_futures : bool) (p : ThreadPoolExecutor)
    : ThreadPoolExecutor :=
  {| max_workers := max_workers p;
     work_queue := if cancel_futures then [] else work_queue p;
     running := running p;
     shutdown_flag := true;
     cancelled := if cancel_futures then cancelled p ++ work_queue p
                  else cancelled p;
     finished := finished p |}.

(** ** [_JobExecutorEngine] *)

Record JobExecutorEngine := {
  _executor : ThreadPoolExecutor;
  _job_ids : gset string
}.

(** [__init__(self, max_workers=DEFAULT_BG_THREADS)]. *)
Definition JobExecutorEngine_init (mw : pyval) : result JobExecutorEngine :=
  match ThreadPoolExecutor_init mw with
  | Ok p => Ok {| _executor := p; _job_ids := ∅ |}
  | Raise e => Raise e
  end.

(** [submit_job]: [bool(self._executor.submit(fn, *args, **kwargs))]; a
    future is truthy. *)
Definition submit_job (c : call) (e : JobExecutorEngine)
    : result bool * JobExecutorEngine :=
  match pool_submit (WPlain c) (_executor e) with
  | (Ok _, p) => (Ok true, {| _executor := p; _job_ids := _job_ids e |})
  | (Raise x, p) => (Raise x, {| _executor := p; _job_ids := _job_ids e |})
  end.

(** [_submit_job]: the whole body runs under the lock.  The identifier is
    added before the pool is asked, and nothing undoes the addition when the
    pool raises. *)
Definition _submit_job (job_id : string) (run_fn : style) (c : call)
    (e : JobExecutorEngine) : result bool * JobExecutorEngine :=
  if decide (job_id ∈ _job_ids e) then (Ok false, e)
  else
    let ids := {[job_id]} ∪ _job_ids e in
    match pool_submit (WUnique run_fn job_id c) (_executor e) with
    | (Ok _, p) => (Ok true, {| _executor := p; _job_ids := ids |})
    | (Raise x, p) => (Raise x, {| _executor := p; _job_ids := ids |})
    end.

Definition submit_unique_job_pre (job_id : string) (c : call) :=
  _submit_job job_id Pre c.

Definition submit_unique_job_post (job_id : string) (c : call) :=
  _submit_job job_id Post c.

(** [shutdown(self, wait, cancel_pending)]. *)
Definition shutdown (wait cancel_pending : bool) (e : JobExecutorEngine)
    : JobExecutorEngine :=
  {| _executor := pool_shutdown wait cancel_pending (_executor e);
     _job_ids := _job_ids e |}.

(** ** The workers *)

(** Where a work item starts when a worker calls it. *)
Definition start_item (w : work_item) : task :=
  match w with
  | WPlain c => TPlain c
  | WUnique Pre job_id c => TPreLock job_id c
  | WUnique Post job_id c => TPostFn job_id c
  end.

(** A worker takes the head of the queue; there are never more than
    [max_workers] of them. *)
Definition worker_take (e : JobExecutorEngine) : option JobExecutorEngine :=
  let p := _executor e in
  match work_queue p with
  | [] => None
  | w :: q =>
      if Z.of_nat (length (running p)) <? max_workers p then
        Some {| _executor :=
                  {| max_workers := max_workers p;
                     work_queue := q;
                     running := running p ++ [start_item w];
                     shutdown_flag := shutdown_flag p;
                     cancelled := cancelled p;
                     finished := finished p |};
                _job_ids := _job_ids e |}
      else None
  end.

(** [set.remove(x)] raises [KeyError] when [x] is not a member. *)
Definition set_remove (x : string) (ids : gset string) : result (gset string) :=
  if decide (x ∈ ids) then Ok (ids ∖ {[x]}) else Raise KeyError.

(** What the future of a task holds when the job body ended with [o]. *)
Definition outcome_result (o : outcome) : result unit :=
  match o with
  | Returns => Ok tt
  | Raises => Raise JobFailure
  end.

(** Task [i] is replaced by its next program point. *)
Definition task_continue (i : nat) (t : task) (ids : gset string)
    (e : JobExecutorEngine) : JobExecutorEngine :=
  let p := _executor e in
  {| _executor :=
       {| max_workers := max_workers p;
          work_queue := work_queue p;
          running := <[i := t]> (running p);
          shutdown_flag := shutdown_flag p;
          cancelled := cancelled p;
          finished := finished p |};
     _job_ids := ids |}.

(** Task [i] ends: the worker stores [r] in the future and is free again. *)
Definition task_finish (i : nat) (r : result unit) (ids : gset string)
    (e : JobExecutorEngine) : JobExecutorEngine :=
  let p := _executor e in
  {| _executor :=
       {| max_workers := max_workers p;
          work_queue := work_queue p;
          running := delete i (running p);
          shutdown_flag := shutdown_flag p;
          cancelled := cancelled p;
          finished := finished p ++ [r] |};
     _job_ids := ids |}.

(** The next step of task [i]; [o] is how the job body ends, read only by
    the steps in which a job body ends.

    [_run_pre_job]: under the lock [self._job_ids.remove(job_id)], then
    the call of [fn].
    [_run_post_job]: the call of [fn] inside [try], then in [finally],
    under the lock, [self._job_ids.remove(job_id)]; an exception of [fn] is
    raised again after the [finally] block unless the block raises itself. *)
Definition worker_advance (i : nat) (o : outcome) (e : JobExecutorEngine)
    : option JobExecutorEngine :=
  match running (_executor e) !! i with
  | None => None
  | Some (TPlain c) => Some (task_finish i (outcome_result o) (_job_ids e) e)
  | Some (TPreLock job_id c) =>
      match set_remove job_id (_job_ids e) with
      | Ok ids => Some (task_continue i (TPreFn job_id c) ids e)
      | Raise x => Some (task_finish i (Raise x) (_job_ids e) e)
      end
  | Some (TPreFn job_id c) =>
      Some (task_finish i (outcome_result o) (_job_ids e) e)
  | Some (TPostFn job_id c) =>
      Some (task_continue i (TPostFinally job_id c o) (_job_ids e) e)
  | Some (TPostFinally job_id c o') =>
      match set_remove job_id (_job_ids e) with
      | Ok ids => Some (task_finish i (outcome_result o') ids e)
      | Raise x => Some (task_finish i (Raise x) (_job_ids e) e)
      end
  end.

(** ** The module: the lazily built singleton and the public functions *)

(** [default_max_workers] is the default argument of [__init__], bound when
    the class statement runs, that is when the module is imported. *)
Record module_state := {
  default_max_workers : pyval;
  _job_executor : option JobExecutorEngine
}.

Definition import_module (environ : gmap string string) : module_state :=
  {| default_max_workers := DEFAULT_BG_THREADS environ;
     _job_executor := None |}.

Definition set_executor (e : JobExecutorEngine) (m : module_state)
    : module_state :=
  {| default_max_workers := default_max_workers m;
     _job_executor := Some e |}.

(** [_get_exec]: builds the engine on first use; when the constructor raises
    the global stays [None]. *)
Definition _get_exec (m : module_state)
    : result JobExecutorEngine * module_state :=
  match _job_executor m with
  | Some e => (Ok e, m)
  | None =>
      match JobExecutorEngine_init (default_max_workers m) with
      | Ok e => (Ok e, set_executor e m)
      | Raise x => (Raise x, m)
      end
  end.

(** A call of a module-level function that no other call overlaps:
    [_get_exec()] and the method of the engine it returns, run from the
    first step to the last with no step of another caller in between, and
    the engine that the method leaves.  [_get_exec] itself takes no lock;
    callers that overlap are the subject of [wstep] below. *)
Definition with_exec
    (f : JobExecutorEngine -> result bool * JobExecutorEngine)
    (m : module_state) : result bool * module_state :=
  match _get_exec m with
  | (Ok e, m1) => let (r, e') := f e in (r, set_executor e' m1)
  | (Raise x, m1) => (Raise x, m1)
  end.

Definition bg_run (c : call) : module_state -> result bool * module_state :=
  with_exec (submit_job c).

Definition bg_run_unique_post (id : string) (c : call)
    : module_state -> result bool * module_state :=
  with_exec (submit_unique_job_post id c).

Definition bg_run_unique_pre (id : string) (c : call)
    : module_state -> result bool * module_state :=
  with_exec (submit_unique_job_pre id c).

(** [bg_exec_shutdown]: returns at once when the engine was never built. *)
Definition bg_exec_shutdown (wait cancel_pending : bool) (m : module_state)
    : result unit * module_state :=
  match _job_executor m with
  | None => (Ok tt, m)
  | Some e => (Ok tt, set_executor (shutdown wait cancel_pending e) m)
  end.

(** ** Runs of the program, one call at a time

    The workers interleave with the callers, and the callers follow one
    another: a run is the list of the calls made and of the steps of the
    workers, every call being completed before the next step. *)
Inductive action :=
  | Bg_run (c : call)
  | Bg_run_unique_pre (id : string) (c : call)
  | Bg_run_unique_post (id : string) (c : call)
  | Bg_exec_shutdown (wait cancel_pending : bool)
  | Worker_take
  | Worker_advance (i : nat) (o : outcome).

(** What the caller of a step gets back; the steps of the workers answer
    nobody. *)
Inductive response :=
  | Submitted (r : result bool)
  | Shut (r : result unit)
  | Worker (moved : bool).

Definition worker_step (f : JobExecutorEngine -> option JobExecutorEngine)
    (m : module_state) : response * module_state :=
  match _job_executor m with
  | None => (Worker false, m)
  | Some e =>
      match f e with
      | Some e' => (Worker true, set_executor e' m)
      | None => (Worker false, m)
      end
  end.

Definition step (a : action) (m : module_state) : response * module_state :=
  match a with
  | Bg_run c => let (r, m') := bg_run c m in (Submitted r, m')
  | Bg_run_unique_pre id c =>
      let (r, m') := bg_run_unique_pre id c m in (Submitted r, m')
  | Bg_run_unique_post id c =>
      let (r, m') := bg_run_unique_post id c m in (Submitted r, m')
  | Bg_exec_shutdown wait cancel_pending =>
      let (r, m') := bg_exec_shutdown wait cancel_pending m in (Shut r, m')
  | Worker_take => worker_step worker_take m
  | Worker_advance i o => worker_step (worker_advance i o) m
  end.

(** The state after a run, and what the callers were answered. *)
Fixpoint run (acts : list action) (m : module_state) : module_state :=
  match acts with
  | [] => m
  | a :: rest => run rest (snd (step a m))
  end.

Fixpoint answers (acts : list action) (m : module_state) : list response :=
  match acts with
  | [] => []
  | a :: rest => fst (step a m) :: answers rest (snd (step a m))
  end.

(** ** Reservations *)

(** The identifiers in [_job_ids], none while there is no engine. *)
Definition reserved (m : module_state) : gset string :=
  match _job_executor m with
  | Some e => _job_ids e
  | None => ∅
  end.

Definition is_shut_down (m : module_state) : bool :=
  match _job_executor m with
  | Some e => shutdown_flag (_executor e)
  | None => false
  end.

(** The identifier held by an accepted job that has not reached its release
    point: the job waits in the queue (or was cancelled there), or a pre job
    has not done its [remove] yet, or a post job has not left its [finally]
    block yet. *)
Definition item_holds (w : work_item) : list string :=
  match w with
  | WPlain _ => []
  | WUnique _ job_id _ => [job_id]
  end.

Definition task_holds (t : task) : list string :=
  match t with
  | TPreLock job_id _ | TPostFn job_id _ | TPostFinally job_id _ _ => [job_id]
  | TPlain _ | TPreFn _ _ => []
  end.

Definition pool_holders (p : ThreadPoolExecutor) : list string :=
  flat_map task_holds (running p)
  ++ flat_map item_holds (work_queue p)
  ++ flat_map item_holds (cancelled p).

Definition holders (m : module_state) : list string :=
  match _job_executor m with
  | Some e => pool_holders (_executor e)
  | None => []
  end.

(** A keyed submission that the pool refused: the call raised the pool's
    [RuntimeError]. *)
Definition pool_refused (a : action) (r : response) : bool :=
  match a, r with
  | (Bg_run_unique_pre _ _ | Bg_run_unique_post _ _),
    Submitted (Raise RuntimeError) => true
  | _, _ => false
  end.

(** ** How one step changes the reservations

    [effect H I H' I' leak]: the holders go from [H] to [H'] and the
    reserved set from [I] to [I'].  A step leaves both alone, or a job is
    accepted, or a job reaches its release point, or ([leak]) an identifier
    is reserved for a job that the pool refused. *)
Inductive effect (H : list string) (I : gset string)
    (H' : list string) (I' : gset string) : bool -> Prop :=
  | Eff_same : H' ≡ₚ H -> I' = I -> effect H I H' I' false
  | Eff_accept id :
      id ∉ I -> H' ≡ₚ id :: H -> I' = {[id]} ∪ I -> effect H I H' I' false
  | Eff_release id :
      H ≡ₚ id :: H' -> I' = I ∖ {[id]} -> effect H I H' I' false
  | Eff_leak id :
      id ∉ I -> H' ≡ₚ H -> I' = {[id]} ∪ I -> effect H I H' I' true.

(** Every holder is reserved, and no identifier has two holders. *)
Definition held_once (m : module_state) : Prop :=
  NoDup (holders m) ∧ ∀ id, id ∈ holders m -> id ∈ reserved m.

(** The effect of an operation of the engine, and of a step. *)
Definition engine_effect (e e' : JobExecutorEngine) : bool -> Prop :=
  effect (pool_holders (_executor e)) (_job_ids e)
         (pool_holders (_executor e')) (_job_ids e').

Definition state_effect (m m' : module_state) : bool -> Prop :=
  effect (holders m) (reserved m) (holders m') (reserved m').

(** The pool's own refusal among the results of a submission. *)
Definition refusal (r : result bool) : bool :=
  match r with
  | Raise RuntimeError => true
  | _ => false
  end.

(** ** What a state shows of the pool *)

Definition pool (m : module_state) : option ThreadPoolExecutor :=
  _executor <$> _job_executor m.

Definition tasks (m : module_state) : list task :=
  from_option running [] (pool m).

Definition futures (m : module_state) : list (result unit) :=
  from_option finished [] (pool m).

(** The pool of an engine is bounded by [n] workers and runs no more than
    [n] tasks. *)
Definition engine_sized (n : Z) (e : JobExecutorEngine) : Prop :=
  max_workers (_executor e) = n
  ∧ Z.of_nat (length (running (_executor e))) <= n.


(** ** More of the engine and of its states *)


(** The work items waiting in the queue, and those whose futures the
    shutdown cancelled. *)
Definition waiting (m : module_state) : list work_item :=
  from_option work_queue [] (pool m).

Definition cancelled_items (m : module_state) : list work_item :=
  from_option cancelled [] (pool m).

(** The jobs that the pool has been given and still knows about: waiting,
    being run, cancelled or finished. *)
Definition pool_jobs (p : ThreadPoolExecutor) : nat :=
  length (work_queue p) + length (running p) + length (cancelled p)
  + length (finished p).

Definition jobs_known (m : module_state) : nat :=
  from_option pool_jobs 0%nat (pool m).

(** The number of submissions that were answered [True]. *)
Definition ok_true (r : result bool) : bool :=
  match r with
  | Ok true => true
  | _ => false
  end.

Definition is_accepted (r : response) : bool :=
  match r with
  | Submitted r => ok_true r
  | _ => false
  end.

(** The engine that the constructor builds for a bound of [n] workers. *)
Definition fresh_engine (n : Z) : JobExecutorEngine :=
  {| _executor :=
       {| max_workers := n; work_queue := []; running := [];
          shutdown_flag := false; cancelled := []; finished := [] |};
     _job_ids := ∅ |}.

Fixpoint accepted (rs : list response) : nat :=
  match rs with
  | [] => 0
  | r :: rs' => (if is_accepted r then 1 else 0) + accepted rs'
  end.

(** A state in which a submission reaches an open pool: the engine exists
    or its constructor will succeed, and the pool is not shut down. *)
Definition usable (m : module_state) : Prop :=
  is_shut_down m = false
  ∧ (is_Some (_job_executor m)
     ∨ ∃ n, default_max_workers m = PyInt n ∧ 0 < n).


(** Every future holds the outcome of a job body: the value it returned or
    the failure it raised, and no exception of the wrapper's own. *)
Definition of_body (r : result unit) : Prop :=
  r = Ok tt ∨ r = Raise JobFailure.

Definition futures_of_bodies (m : module_state) : Prop :=
  Forall of_body (futures m).

(** The futures after an operation: those there were, and after them the
    outcomes of job bodies, as long as the running tasks' identifiers are
    reserved. *)
Definition futures_grow (e e' : JobExecutorEngine) : Prop :=
  (∀ i t id, running (_executor e) !! i = Some t -> id ∈ task_holds t ->
             id ∈ _job_ids e) ->
  ∃ l, finished (_executor e') = finished (_executor e) ++ l
       ∧ Forall of_body l.

(** What a caller or a worker is answered while there is no engine and the
    constructor raises [x]. *)
Definition answer_without_engine (x : exn) (a : action) : response :=
  match a with
  | Bg_run _ | Bg_run_unique_pre _ _ | Bg_run_unique_post _ _ =>
      Submitted (Raise x)
  | Bg_exec_shutdown _ _ => Shut (Ok tt)
  | Worker_take | Worker_advance _ _ => Worker false
  end.

Definition is_shutdown_call (a : action) : bool :=
  match a with
  | Bg_exec_shutdown _ _ => true
  | _ => false
  end.

(** What a submission is answered by an open pool. *)
Definition answered_open (a : action) (r : response) : Prop :=
  match a with
  | Bg_run _ => r = Submitted (Ok true)
  | Bg_run_unique_pre _ _ | Bg_run_unique_post _ _ =>
      r = Submitted (Ok true) ∨ r = Submitted (Ok false)
  | _ => True
  end.



(** ** Letting the workers finish

    The steps that a task still takes, and those of a job in the queue
    (being taken is one). *)
Definition task_steps (t : task) : nat :=
  match t with
  | TPreLock _ _ | TPostFn _ _ => 2
  | TPlain _ | TPreFn _ _ | TPostFinally _ _ _ => 1
  end.

Definition item_steps (w : work_item) : nat := S (task_steps (start_item w)).

Definition pool_steps (p : ThreadPoolExecutor) : nat :=
  list_sum (task_steps <$> running p) + list_sum (item_steps <$> work_queue p).

(** ** Callers that overlap

    [_get_exec] tests the global and assigns it without a lock, and
    [bg_exec_shutdown] reads it twice.  Here a call is kept with the
    program point it has reached, the steps of the threads interleave in
    any order, the engines are objects in a store and the global holds a
    reference to one of them. *)

(** A submission: [bg_run(fn, ...)] or [bg_run_unique_pre/post(id, fn,
    ...)]. *)
Inductive submission :=
  | Sub_run (c : call)
  | Sub_unique (run_fn : style) (job_id : string) (c : call).

(** The method of the engine that the submission calls:
    [submit_unique_job_pre] and [submit_unique_job_post] are [_submit_job]
    with their wrapper. *)
Definition engine_method (s : submission)
    : JobExecutorEngine -> result bool * JobExecutorEngine :=
  match s with
  | Sub_run c => submit_job c
  | Sub_unique run_fn job_id c => _submit_job job_id run_fn c
  end.

(** A call of a module-level function and the point it has reached.
    For [bg_run] and its two siblings, inside [_get_exec]:
    - [Get_exec_test]: at [if _job_executor is None];
    - [Get_exec_construct]: at [_JobExecutorEngine()];
    - [Get_exec_assign]: the engine [r] is built, at the store to the
      global;
    - [Get_exec_return]: at [return _job_executor], which reads the global
      again;
    and after it:
    - [Call_method]: [_get_exec()] has returned the engine [r], at the call
      of its method;
    - [Returned]: the call has returned or raised [a]; [r] is the engine
      whose method it called, if it came to that.
    For [bg_exec_shutdown]:
    - [Shutdown_test]: at [if _job_executor is None];
    - [Shutdown_load]: at the second read of the global;
    - [Shutdown_method]: at the call of [shutdown] of the engine [r];
    - [Shutdown_returned]: the call has returned or raised. *)
Inductive frame :=
  | Get_exec_test (s : submission)
  | Get_exec_construct (s : submission)
  | Get_exec_assign (s : submission) (r : nat)
  | Get_exec_return (s : submission)
  | Call_method (s : submission) (r : nat)
  | Returned (s : submission) (r : option nat) (a : result bool)
  | Shutdown_test (wait cancel_pending : bool)
  | Shutdown_load (wait cancel_pending : bool)
  | Shutdown_method (wait cancel_pending : bool) (r : nat)
  | Shutdown_returned (wait cancel_pending : bool) (r : option nat)
      (a : result unit).

(** The module and its threads: the default argument of [__init__], the
    global [_job_executor] (a reference into the store), the engines built
    so far, and the calls made so far. *)
Record world := {
  init_default : pyval;
  global_ref : option nat;
  engines : list JobExecutorEngine;
  calls : list frame
}.

Definition boot (environ : gmap string string) : world :=
  {| init_default := DEFAULT_BG_THREADS environ;
     global_ref := None; engines := []; calls := [] |}.

Definition add_frame (f : frame) (w : world) : world :=
  {| init_default := init_default w; global_ref := global_ref w;
     engines := engines w; calls := calls w ++ [f] |}.

Definition set_frame (t : nat) (f : frame) (w : world) : world :=
  {| init_default := init_default w; global_ref := global_ref w;
     engines := engines w; calls := <[t := f]> (calls w) |}.

Definition add_engine (e : JobExecutorEngine) (w : world) : world :=
  {| init_default := init_default w; global_ref := global_ref w;
     engines := engines w ++ [e]; calls := calls w |}.

Definition set_engine (r : nat) (e : JobExecutorEngine) (w : world) : world :=
  {| init_default := init_default w; global_ref := global_ref w;
     engines := <[r := e]> (engines w); calls := calls w |}.

Definition set_global (r : nat) (w : world) : world :=
  {| init_default := init_default w; global_ref := Some r;
     engines := engines w; calls := calls w |}.

(** The next step of the frame [f], which is call [t].  A method called on
    [None] is an [AttributeError]. *)
Definition frame_step (t : nat) (f : frame) (w : world) : world :=
  match f with
  | Get_exec_test s =>
      match global_ref w with
      | None => set_frame t (Get_exec_construct s) w
      | Some _ => set_frame t (Get_exec_return s) w
      end
  | Get_exec_construct s =>
      match JobExecutorEngine_init (init_default w) with
      | Ok e =>
          set_frame t (Get_exec_assign s (length (engines w)))
            (add_engine e w)
      | Raise x => set_frame t (Returned s None (Raise x)) w
      end
  | Get_exec_assign s r => set_frame t (Get_exec_return s) (set_global r w)
  | Get_exec_return s =>
      match global_ref w with
      | Some r => set_frame t (Call_method s r) w
      | None => set_frame t (Returned s None (Raise AttributeError)) w
      end
  | Call_method s r =>
      match engines w !! r with
      | Some e =>
          set_frame t (Returned s (Some r) (fst (engine_method s e)))
            (set_engine r (snd (engine_method s e)) w)
      | None => w
      end
  | Returned _ _ _ => w
  | Shutdown_test wait cancel_pending =>
      match global_ref w with
      | None =>
          set_frame t (Shutdown_returned wait cancel_pending None (Ok tt)) w
      | Some _ => set_frame t (Shutdown_load wait cancel_pending) w
      end
  | Shutdown_load wait cancel_pending =>
      match global_ref w with
      | Some r => set_frame t (Shutdown_method wait cancel_pending r) w
      | None =>
          set_frame t
            (Shutdown_returned wait cancel_pending None
               (Raise AttributeError)) w
      end
  | Shutdown_method wait cancel_pending r =>
      match engines w !! r with
      | Some e =>
          set_frame t (Shutdown_returned wait cancel_pending (Some r) (Ok tt))
            (set_engine r (shutdown wait cancel_pending e) w)
      | None => w
      end
  | Shutdown_returned _ _ _ _ => w
  end.

(** What happens: a thread enters a call, the call [t] takes its next
    step, a worker of the engine [r] takes a job, or the task [i] of the
    engine [r] takes its next step. *)
Inductive event :=
  | Enter (s : submission)
  | Enter_shutdown (wait cancel_pending : bool)
  | Move (t : nat)
  | Take (r : nat)
  | Advance (r : nat) (i : nat) (o : outcome).

Definition engine_step (f : JobExecutorEngine -> option JobExecutorEngine)
    (r : nat) (w : world) : world :=
  match engines w !! r with
  | Some e =>
      match f e with
      | Some e' => set_engine r e' w
      | None => w
      end
  | None => w
  end.

Definition wstep (ev : event) (w : world) : world :=
  match ev with
  | Enter s => add_frame (Get_exec_test s) w
  | Enter_shutdown wait cancel_pending =>
      add_frame (Shutdown_test wait cancel_pending) w
  | Move t =>
      match calls w !! t with
      | Some f => frame_step t f w
      | None => w
      end
  | Take r => engine_step worker_take r w
  | Advance r i o => engine_step (worker_advance i o) r w
  end.

Fixpoint wrun (evs : list event) (w : world) : world :=
  match evs with
  | [] => w
  | ev :: rest => wrun rest (wstep ev w)
  end.

(** *** What the calls have done to an engine *)

(** A completed call of a method of an engine: a submission with its
    answer, or a shutdown. *)
Inductive entry :=
  | Answered (s : submission) (a : result bool)
  | Shut_down (wait cancel_pending : bool).

Definition frame_entry (r : nat) (f : frame) : option entry :=
  match f with
  | Returned s (Some r') a =>
      if decide (r' = r) then Some (Answered s a) else None
  | Shutdown_returned wait cancel_pending (Some r') _ =>
      if decide (r' = r) then Some (Shut_down wait cancel_pending) else None
  | _ => None
  end.

(** The completed calls of the methods of the engine [r]. *)
Definition completed (r : nat) (w : world) : list entry :=
  omap (frame_entry r) (calls w).

(** The engine that a frame refers to. *)
Definition frame_engine (f : frame) : option nat :=
  match f with
  | Get_exec_assign _ r | Call_method _ r | Shutdown_method _ _ r => Some r
  | Returned _ r _ | Shutdown_returned _ _ r _ => r
  | _ => None
  end.

(** A frame that is about to read the global after [_get_exec] or
    [bg_exec_shutdown] has seen or made it other than [None]. *)
Definition reads_global (f : frame) : bool :=
  match f with
  | Get_exec_return _ | Shutdown_load _ _ => true
  | _ => false
  end.

(** The lives of an engine object: what calls of its methods and steps of
    its workers make of a new engine, with the completed calls, the latest
    first. *)
Inductive engine_reach (mw : pyval)
    : list entry -> JobExecutorEngine -> Prop :=
  | Reach_init e :
      JobExecutorEngine_init mw = Ok e -> engine_reach mw [] e
  | Reach_method s l e :
      engine_reach mw l e ->
      engine_reach mw (Answered s (fst (engine_method s e)) :: l)
        (snd (engine_method s e))
  | Reach_shutdown wait cancel_pending l e :
      engine_reach mw l e ->
      engine_reach mw (Shut_down wait cancel_pending :: l)
        (shutdown wait cancel_pending e)
  | Reach_take l e e' :
      engine_reach mw l e -> worker_take e = Some e' -> engine_reach mw l e'
  | Reach_advance i o l e e' :
      engine_reach mw l e -> worker_advance i o e = Some e' ->
      engine_reach mw l e'.

(** The references of a world are those of engines in the store, every
    pool has a positive bound, and a call that is about to read the global
    again finds it set. *)
Definition well_formed (w : world) : Prop :=
  (∀ r, global_ref w = Some r -> (r < length (engines w))%nat)
  ∧ (∀ t f r, calls w !! t = Some f -> frame_engine f = Some r ->
              (r < length (engines w))%nat)
  ∧ (∀ t f, calls w !! t = Some f -> reads_global f = true ->
            is_Some (global_ref w)).

(** The pool of the engine [r] has refused a keyed submission under [id]:
    the call raised the pool's [RuntimeError]. *)
Definition refused (l : list entry) (id : string) : Prop :=
  ∃ k c, Answered (Sub_unique k id c) (Raise RuntimeError) ∈ l.

Definition refused_on (r : nat) (w : world) (id : string) : Prop :=
  ∃ t k c,
    calls w !! t
    = Some (Returned (Sub_unique k id c) (Some r) (Raise RuntimeError)).

(** The number of submissions that the engine [r] answered [True]. *)
Definition entry_true (x : entry) : bool :=
  match x with
  | Answered _ a => ok_true a
  | Shut_down _ _ => false
  end.

Definition entries_true (l : list entry) : nat :=
  list_sum ((fun x => if entry_true x then 1%nat else 0%nat) <$> l).

Definition accepted_by (r : nat) (w : world) : nat :=
  entries_true (completed r w).

(** The worlds that the callers and the workers reach after the import. *)
Definition reachable (environ : gmap string string) (w : world) : Prop :=
  ∃ evs, w = wrun evs (boot environ).

(** Every engine of the store has a life of its own, whose completed calls
    are those that the frames record for it. *)
Definition histories (w : world) : Prop :=
  ∀ r e, engines w !! r = Some e ->
         ∃ l, engine_reach (init_default w) l e ∧ l ≡ₚ completed r w.

(** The state of the reservations of one engine: [H] are the identifiers
    held by accepted jobs before their release points, [I] is [_job_ids]
    and [L] are the identifiers that the pool refused.  No identifier is
    held twice; [I] is made of [H] and [L], which share nothing. *)
Definition reservations (L : string -> Prop) (H : list string)
    (I : gset string) : Prop :=
  NoDup H
  ∧ (∀ id, id ∈ H -> id ∈ I ∧ ¬ L id)
  ∧ (∀ id, id ∈ I -> id ∈ H ∨ L id)
  ∧ (∀ id, L id -> id ∈ I).

Definition engine_reservations (l : list entry) (e : JobExecutorEngine)
    : Prop :=
  reservations (refused l) (pool_holders (_executor e)) (_job_ids e)
  ∧ (∀ id, refused l id -> shutdown_flag (_executor e) = true).



(** A call inside the branch of [_get_exec] that builds an engine. *)
Definition builds (f : frame) : bool :=
  match f with
  | Get_exec_construct _ | Get_exec_assign _ _ => true
  | _ => false
  end.

(** The global holds an engine and no call is about to build another. *)
Definition stored (w : world) : Prop :=
  is_Some (global_ref w) ∧ Forall (fun f => builds f = false) (calls w).

(** *** Calls that follow one another *)

(** What the module looks like to a call that nobody overlaps. *)
Definition seen (w : world) : module_state :=
  {| default_max_workers := init_default w;
     _job_executor := global_ref w ≫= (engines w !!.) |}.

(** No engine yet, or the one engine that the global refers to. *)
Definition one_engine (w : world) : Prop :=
  (global_ref w = None ∧ engines w = [])
  ∨ (global_ref w = Some 0%nat ∧ length (engines w) = 1%nat).

(** The events of a call made and completed with no other step in
    between (a submission takes five steps at most and [bg_exec_shutdown]
    three; a call that has returned takes none), and those of a step of a
    worker of the engine that the global refers to. *)
Definition alone (a : action) (w : world) : list event :=
  let t := length (calls w) in
  match a with
  | Bg_run c => Enter (Sub_run c) :: replicate 5 (Move t)
  | Bg_run_unique_pre id c =>
      Enter (Sub_unique Pre id c) :: replicate 5 (Move t)
  | Bg_run_unique_post id c =>
      Enter (Sub_unique Post id c) :: replicate 5 (Move t)
  | Bg_exec_shutdown wait cancel_pending =>
      Enter_shutdown wait cancel_pending :: replicate 3 (Move t)
  | Worker_take =>
      match global_ref w with
      | Some r => [Take r]
      | None => []
      end
  | Worker_advance i o =>
      match global_ref w with
      | Some r => [Advance r i o]
      | None => []
      end
  end.

Fixpoint serial (acts : list action) (w : world) : list event :=
  match acts with
  | [] => []
  | a :: rest => alone a w ++ serial rest (wrun (alone a w) w)
  end.

(** What a completed call answered its caller. *)
Definition frame_answer (f : frame) : option response :=
  match f with
  | Returned _ _ a => Some (Submitted a)
  | Shutdown_returned _ _ _ a => Some (Shut a)
  | _ => None
  end.

Definition call_answer (r : response) : option response :=
  match r with
  | Worker _ => None
  | _ => Some r
  end.

(** *** Letting every call and every job finish *)

(** The steps that a call still takes, each weighed so that the job it may
    hand to a pool is paid for. *)
Definition frame_steps (f : frame) : nat :=
  match f with
  | Get_exec_test _ => 8
  | Get_exec_construct _ => 7
  | Get_exec_assign _ _ => 6
  | Get_exec_return _ => 5
  | Call_method _ _ => 4
  | Returned _ _ _ => 0
  | Shutdown_test _ _ => 3
  | Shutdown_load _ _ => 2
  | Shutdown_method _ _ _ => 1
  | Shutdown_returned _ _ _ _ => 0
  end.

Definition work_left (w : world) : nat :=
  list_sum (frame_steps <$> calls w)
  + list_sum ((fun e => pool_steps (_executor e)) <$> engines w).

Definition is_pending (f : frame) : bool :=
  negb (frame_steps f =? 0)%nat.

Definition is_busy (e : JobExecutorEngine) : bool :=
  negb (pool_steps (_executor e) =? 0)%nat.

(** A schedule: the first call that has not returned takes its next step;
    when all have returned, the first engine with work left lets its first
    running task move on (the body ending with [o]) or, when it runs none,
    lets a worker take the head of its queue. *)
Definition next_event (o : outcome) (w : world) : option event :=
  match list_find (fun f => is_pending f = true) (calls w) with
  | Some (t, _) => Some (Move t)
  | None =>
      match list_find (fun e => is_busy e = true) (engines w) with
      | Some (r, e) =>
          Some (match running (_executor e) with
                | [] => Take r
                | _ :: _ => Advance r 0 o
                end)
      | None => None
      end
  end.

Fixpoint settle (o : outcome) (fuel : nat) (w : world) : list event :=
  match fuel with
  | O => []
  | S fuel' =>
      match next_event o w with
      | Some ev => ev :: settle o fuel' (wstep ev w)
      | None => []
      end
  end.

Definition is_shutdown_frame (f : frame) : bool :=
  match f with
  | Shutdown_test _ _ | Shutdown_load _ _ | Shutdown_method _ _ _
  | Shutdown_returned _ _ _ _ => true
  | _ => false
  end.

End BgThreads.

Module Paths.

(** ** [hashlib.sha1]

    SHA-1 as in FIPS 180-4, on 32-bit words kept as [Z]. *)

Definition w32 (x : Z) : Z := Z.land x 4294967295.

Definition rotl (n x : Z) : Z :=
  w32 (Z.lor (Z.shiftl x n) (Z.shiftr x (32 - n))).

(** The five chaining words. *)
Record sha1_words := Words { wa : Z; wb : Z; wc : Z; wd : Z; we : Z }.

Definition sha1_iv : sha1_words :=
  Words 1732584193 4023233417 2562383102 271733878 3285377520.

(** The function and the constant of round [t]. *)
Definition sha1_f (t : nat) (b c d : Z) : Z :=
  if (t <? 20)%nat then Z.lor (Z.land b c) (Z.land (w32 (Z.lnot b)) d)
  else if (t <? 40)%nat then Z.lxor (Z.lxor b c) d
  else if (t <? 60)%nat then
    Z.lor (Z.lor (Z.land b c) (Z.land b d)) (Z.land c d)
  else Z.lxor (Z.lxor b c) d.

Definition sha1_k (t : nat) : Z :=
  if (t <? 20)%nat then 1518500249
  else if (t <? 40)%nat then 1859775393
  else if (t <? 60)%nat then 2400959708
  else 3395469782.

Definition byte_Z (b : byte) : Z := Z.of_N (Byte.to_N b).

(** The big-endian words of a block. *)
Fixpoint be_words (bs : list byte) : list Z :=
  match bs with
  | b0 :: b1 :: b2 :: b3 :: rest =>
      (byte_Z b0 * 16777216 + byte_Z b1 * 65536 + byte_Z b2 * 256 + byte_Z b3)
      :: be_words rest
  | _ => []
  end.

(** [n] rounds from round [t] on; [win] holds the sixteen words of the
    message schedule from [t] on. *)
Fixpoint sha1_rounds (n t : nat) (win : list Z) (s : sha1_words) : sha1_words :=
  match n with
  | O => s
  | S n' =>
      let w := nth 0 win 0 in
      let tmp :=
        w32 (rotl 5 (wa s) + sha1_f t (wb s) (wc s) (wd s) + we s
             + sha1_k t + w) in
      let next :=
        rotl 1 (Z.lxor (Z.lxor (Z.lxor (nth 13 win 0) (nth 8 win 0))
                          (nth 2 win 0)) w) in
      sha1_rounds n' (S t) (tl win ++ [next])
        (Words tmp (wa s) (rotl 30 (wb s)) (wc s) (wd s))
  end.

(** The compression of one 64-byte block. *)
Definition sha1_compress (s : sha1_words) (block : list byte) : sha1_words :=
  let r := sha1_rounds 80 0 (be_words block) s in
  Words (w32 (wa s + wa r)) (w32 (wb s + wb r)) (w32 (wc s + wc r))
        (w32 (wd s + wd r)) (w32 (we s + we r)).

Definition byte_of_Z (z : Z) : byte :=
  default Byte.x00 (Byte.of_N (Z.to_N (z mod 256))).

(** The big-endian bytes of [z], [n] of them. *)
Fixpoint be_bytes (n : nat) (z : Z) : list byte :=
  match n with
  | O => []
  | S n' => be_bytes n' (z / 256) ++ [byte_of_Z z]
  end.

(** The padding of a message of [len] bytes: the byte 0x80, zeros up to 56
    modulo 64, and the length in bits on eight bytes. *)
Definition sha1_padding (len : nat) : list byte :=
  Byte.x80
  :: repeat Byte.x00 ((119 - len mod 64) mod 64)
  ++ be_bytes 8 (8 * Z.of_nat len).

(** The blocks of [data] are compressed one after the other; what is left
    is shorter than a block. *)
Fixpoint sha1_blocks (fuel : nat) (s : sha1_words) (data : list byte)
    : sha1_words * list byte :=
  match fuel with
  | O => (s, data)
  | S fuel' =>
      if (64 <=? length data)%nat then
        sha1_blocks fuel' (sha1_compress s (take 64 data)) (drop 64 data)
      else (s, data)
  end.

Definition hex_digit (z : Z) : ascii :=
  nth (Z.to_nat z)
    ["0"; "1"; "2"; "3"; "4"; "5"; "6"; "7";
     "8"; "9"; "a"; "b"; "c"; "d"; "e"; "f"]%char "0"%char.

Fixpoint hex_word (n : nat) (z : Z) : string :=
  match n with
  | O => ""
  | S n' => hex_word n' (z / 16) +:+ String (hex_digit (z mod 16)) ""
  end.

Definition hex_words (s : sha1_words) : string :=
  hex_word 8 (wa s) +:+ hex_word 8 (wb s) +:+ hex_word 8 (wc s)
  +:+ hex_word 8 (wd s) +:+ hex_word 8 (we s).

(** The SHA-1 hex digest of a whole message: pad, cut into blocks, compress
    them in order. *)
Definition sha1_hex (msg : list byte) : string :=
  let padded := msg ++ sha1_padding (length msg) in
  hex_words (fst (sha1_blocks (length padded) sha1_iv padded)).

(** The hash object: the chaining words, the bytes not yet compressed
    (fewer than a block) and the number of bytes taken so far. *)
Record sha1_object := {
  chain : sha1_words;
  pending : list byte;
  count : nat
}.

(** [sha1()]. *)
Definition sha1 : sha1_object :=
  {| chain := sha1_iv; pending := []; count := 0 |}.

(** [hash_alg.update(buf)]. *)
Definition update (buf : list byte) (o : sha1_object) : sha1_object :=
  let data := pending o ++ buf in
  let (s, rest) := sha1_blocks (length data) (chain o) data in
  {| chain := s; pending := rest; count := count o + length buf |}.

(** [hash_alg.hexdigest()]. *)
Definition hexdigest (o : sha1_object) : string :=
  let final := pending o ++ sha1_padding (count o) in
  hex_words (fst (sha1_blocks (length final) (chain o) final)).

(** ** Files *)

(** Exceptions of this module. *)
Inductive exn :=
  | FileNotFoundError
  | ValueError
  | OverflowError
  | MemoryError.

Inductive result (A : Type) :=
  | Ok (a : A)
  | Raise (e : exn).
Arguments Ok {A} a.
Arguments Raise {A} e.

(** The sizes of a 64-bit CPython: [sys.maxsize], and the length of the
    longest bytes object. *)
Definition ssize_max : Z := 9223372036854775807.

Definition bytes_max : Z := ssize_max - 33.

(** A binary file object is the bytes still to be read.  [f.read(size)] on
    the buffered reader that [open(_, 'rb')] gives: a size that does not fit
    the machine integer is an [OverflowError], a size below -1 a
    [ValueError], and -1 reads to the end.  For another size the reader
    first makes a bytes object of [size] bytes, whatever the length of the
    file: beyond [bytes_max] that is an [OverflowError], and beyond
    [memory], the longest object that the interpreter obtains from the
    system, a [MemoryError]; then it returns [size] bytes, or what is left
    of the file.  (The bytes of the file themselves are taken to fit.) *)
Definition file_read (memory size : Z) (f : list byte)
    : result (list byte * list byte) :=
  if (size <? - ssize_max - 1) || (ssize_max <? size) then Raise OverflowError
  else if size <? -1 then Raise ValueError
  else if size =? -1 then Ok (f, [])
  else if bytes_max <? size then Raise OverflowError
  else if (0 <? size) && (memory <? size) then Raise MemoryError
  else Ok (take (Z.to_nat size) f, drop (Z.to_nat size) f).

(** The [while len(buf) > 0] loop of [hash_file_sha1]; [fuel] bounds the
    number of tests of the condition.  An exception of [read] leaves the
    loop and the function. *)
Fixpoint hash_loop (fuel : nat) (memory buffer_size : Z)
    (hash_alg : sha1_object) (buf : list byte) (f : list byte)
    : option (result sha1_object) :=
  match fuel with
  | O => None
  | S fuel' =>
      if (0 <? length buf)%nat then
        let hash_alg := update buf hash_alg in
        match file_read memory buffer_size f with
        | Ok (buf, f) => hash_loop fuel' memory buffer_size hash_alg buf f
        | Raise x => Some (Raise x)
        end
      else Some (Ok hash_alg)
  end.

(** [hash_file_sha1(file_target, buffer_size=262144)] over the files [fs];
    [None] when the fuel does not suffice for the loop. *)
Definition hash_file_sha1 (fuel : nat) (memory : Z)
    (fs : gmap string (list byte)) (file_target : string) (buffer_size : Z)
    : option (result string) :=
  match fs !! file_target with
  | None => Some (Raise FileNotFoundError)
  | Some contents =>
      let hash_alg := sha1 in
      match file_read memory buffer_size contents with
      | Raise x => Some (Raise x)
      | Ok (buf, f) =>
          match hash_loop fuel memory buffer_size hash_alg buf f with
          | Some (Ok hash_alg) => Some (Ok (hexdigest hash_alg))
          | Some (Raise x) => Some (Raise x)
          | None => None
          end
      end
  end.

(** The bytes of an ASCII text, for examples. *)
Definition bytes_of_string (s : string) : list byte :=
  (fun c => byte_of_Z (Z.of_N (N_of_ascii c))) <$> String.list_ascii_of_string s.

(** The chunks that the loop reads: [n] bytes each, the last one what is
    left. *)
Fixpoint chunks (fuel n : nat) (l : list byte) : list (list byte) :=
  match fuel with
  | O => []
  | S fuel' =>
      match l with
      | [] => []
      | _ => take n l :: chunks fuel' n (drop n l)
      end
  end.

(** The object that has taken the whole of [data]. *)
Definition sha1_of (data : list byte) : sha1_object :=
  {| chain := fst (sha1_blocks (length data) sha1_iv data);
     pending := snd (sha1_blocks (length data) sha1_iv data);
     count := length data |}.

(** ** [posixpath]

    [osp] is taken to be [posixpath]: the separator is ["/"]. *)

Definition is_sep (c : ascii) : bool := Ascii.eqb c "/".

(** [p[:i], p[i:]] with [i = p.rfind('/') + 1]. *)
Fixpoint cut_at_last_sep (p : string) : string * string :=
  match p with
  | EmptyString => (EmptyString, EmptyString)
  | String c rest =>
      let (h, t) := cut_at_last_sep rest in
      match h with
      | String _ _ => (String c h, t)
      | EmptyString =>
          if is_sep c then (String c EmptyString, rest)
          else (EmptyString, String c rest)
      end
  end.

(** [s.rstrip('/')]. *)
Fixpoint rstrip_sep (s : string) : string :=
  match s with
  | EmptyString => EmptyString
  | String c rest =>
      match rstrip_sep rest with
      | EmptyString => if is_sep c then EmptyString else String c EmptyString
      | r => String c r
      end
  end.

(** [head == sep * len(head)]. *)
Fixpoint all_sep (s : string) : bool :=
  match s with
  | EmptyString => true
  | String c rest => is_sep c && all_sep rest
  end.

(** [osp.split(p)]: the head loses its trailing separators unless it is
    made of separators only. *)
Definition osp_split (p : string) : string * string :=
  let (head, tail) := cut_at_last_sep p in
  if negb (String.length head =? 0)%nat && negb (all_sep head)
  then (rstrip_sep head, tail)
  else (head, tail).

(** [osp.join(a, *p)]. *)
Definition starts_with_sep (s : string) : bool :=
  match s with
  | String c _ => is_sep c
  | EmptyString => false
  end.

Fixpoint ends_with_sep (s : string) : bool :=
  match s with
  | EmptyString => false
  | String c EmptyString => is_sep c
  | String _ rest => ends_with_sep rest
  end.

Definition join_step (path b : string) : string :=
  if starts_with_sep b then b
  else if (String.length path =? 0)%nat || ends_with_sep path then path +:+ b
  else path +:+ "/" +:+ b.

Definition osp_join (a : string) (p : list string) : string :=
  foldl join_step a p.

(** [s * n]. *)
Fixpoint str_repeat (s : string) (n : nat) : string :=
  match n with
  | O => EmptyString
  | S n' => s +:+ str_repeat s n'
  end.

(** ** Python lists

    A list is an object with an identity: the heap gives the contents of
    each of them, a reference is an index in the heap.  [a + b] and [a[1:]]
    build a new object; [a += b] changes [a] in place. *)

Definition contents (r : nat) (h : list (list string)) : list string :=
  default [] (h !! r).

(** [list()], a display [[x]]: a new object. *)
Definition new_list (v : list string) (h : list (list string))
    : nat * list (list string) :=
  (length h, h ++ [v]).

(** [a + b]. *)
Definition list_add (a b : nat) (h : list (list string))
    : nat * list (list string) :=
  new_list (contents a h ++ contents b h) h.

(** [a[1:]]. *)
Definition list_tail (a : nat) (h : list (list string))
    : nat * list (list string) :=
  new_list (drop 1 (contents a h)) h.

(** [a += b]. *)
Definition list_iadd (a b : nat) (h : list (list string))
    : list (list string) :=
  <[a := contents a h ++ contents b h]> h.

(** [_path_split(p, rest)]; [fuel] bounds the depth of the recursion. *)
Fixpoint _path_split (fuel : nat) (p : string) (rest : nat)
    (h : list (list string)) : option (nat * list (list string)) :=
  match fuel with
  | O => None
  | S fuel' =>
      let (hd, t) := osp_split p in
      if (String.length hd <? 1)%nat then
        let (x, h1) := new_list [t] h in Some (list_add x rest h1)
      else if (String.length t <? 1)%nat then
        let (x, h1) := new_list [hd] h in Some (list_add x rest h1)
      else
        let (x, h1) := new_list [t] h in
        let (acc, h2) := list_add x rest h1 in
        _path_split fuel' hd acc h2
  end.

(** [_common_path(l1, l2, common)]. *)
Fixpoint _common_path (fuel : nat) (l1 l2 common : nat)
    (h : list (list string)) : option (nat * nat * nat * list (list string)) :=
  match fuel with
  | O => None
  | S fuel' =>
      match contents l1 h, contents l2 h with
      | [], _ | _, [] => Some (common, l1, l2, h)
      | a :: _, b :: _ =>
          if negb (String.eqb a b) then Some (common, l1, l2, h)
          else
            let (t1, h1) := list_tail l1 h in
            let (t2, h2) := list_tail l2 h1 in
            let (x, h3) := new_list [a] h2 in
            let (acc, h4) := list_add common x h3 in
            _common_path fuel' t1 t2 acc h4
      end
  end.

(** The module: the heap, and the two objects that the [def] statements
    built for the defaults [rest=list()] and [common=list()]. *)
Record module_state := {
  heap : list (list string);
  _path_split_rest : nat;
  _common_path_common : nat
}.

Definition import_module : module_state :=
  {| heap := [[]; []]; _path_split_rest := 0; _common_path_common := 1 |}.

Definition with_heap (h : list (list string)) (m : module_state)
    : module_state :=
  {| heap := h;
     _path_split_rest := _path_split_rest m;
     _common_path_common := _common_path_common m |}.

(** [count(x)] of a list. *)
Definition list_count (x : string) (l : list string) : nat :=
  length (filter (fun y => y = x) l).

(** [relative_path(p1, p2)]: both helpers are called with their defaults. *)
Definition relative_path (fuel : nat) (p1 p2 : string) (m : module_state)
    : option (string * module_state) :=
  match _path_split fuel p1 (_path_split_rest m) (heap m) with
  | None => None
  | Some (s1, h1) =>
  match _path_split fuel p2 (_path_split_rest m) h1 with
  | None => None
  | Some (s2, h2) =>
  match _common_path fuel s1 s2 (_common_path_common m) h2 with
  | None => None
  | Some (common, l1, l2, h3) =>
      let (path_parts, h4) := new_list [] h3 in
      let effective_length :=
        (Z.of_nat (length (contents l1 h4))
         - Z.of_nat (list_count "." (contents l1 h4))
         - Z.of_nat (list_count "" (contents l1 h4)))%Z in
      let h5 :=
        if (0 <? effective_length)%Z then
          let (x, h) :=
            new_list [str_repeat "../" (Z.to_nat effective_length)] h4 in
          list_iadd path_parts x h
        else h4 in
      let h6 :=
        if (0 <? length (contents l2 h5))%nat then list_iadd path_parts l2 h5
        else h5 in
      let r :=
        match contents path_parts h6 with
        | [] => EmptyString
        | a :: p => osp_join a p
        end in
      Some (r, with_heap h6 m)
  end end end.

(** A call of [_path_split(p)], and of [_path_split(p, rest)] with a list
    that the caller builds; the value is the contents of the list that
    comes back. *)
Definition call_path_split (fuel : nat) (p : string) (m : module_state)
    : option (list string * module_state) :=
  match _path_split fuel p (_path_split_rest m) (heap m) with
  | Some (r, h) => Some (contents r h, with_heap h m)
  | None => None
  end.

Definition call_path_split_with (fuel : nat) (p : string) (rest : list string)
    (m : module_state) : option (list string * module_state) :=
  let (a, h0) := new_list rest (heap m) in
  match _path_split fuel p a h0 with
  | Some (r, h) => Some (contents r h, with_heap h m)
  | None => None
  end.

(** The same for [_common_path(l1, l2)] and [_common_path(l1, l2, common)];
    the value is the contents of the three lists of the tuple. *)
Definition triple_contents (t : nat * nat * nat) (h : list (list string))
    : list string * list string * list string :=
  (contents t.1.1 h, contents t.1.2 h, contents t.2 h).

Definition call_common_path (fuel : nat) (l1 l2 : list string)
    (m : module_state)
    : option (list string * list string * list string * module_state) :=
  let (a1, h1) := new_list l1 (heap m) in
  let (a2, h2) := new_list l2 h1 in
  match _common_path fuel a1 a2 (_common_path_common m) h2 with
  | Some (t, h) => Some (triple_contents t h, with_heap h m)
  | None => None
  end.

Definition call_common_path_with (fuel : nat) (l1 l2 common : list string)
    (m : module_state)
    : option (list string * list string * list string * module_state) :=
  let (a1, h1) := new_list l1 (heap m) in
  let (a2, h2) := new_list l2 h1 in
  let (a3, h3) := new_list common h2 in
  match _common_path fuel a1 a2 a3 h3 with
  | Some (t, h) => Some (triple_contents t h, with_heap h m)
  | None => None
  end.

(** Both defaults are objects of the heap and still hold the empty list. *)
Definition pristine (m : module_state) : Prop :=
  heap m !! _path_split_rest m = Some []
  ∧ heap m !! _common_path_common m = Some [].

(** The parts that [_path_split] puts in front of [rest], and the tuple of
    [_common_path], as functions of the contents alone. *)
Fixpoint path_parts (fuel : nat) (p : string) (rest : list string)
    : option (list string) :=
  match fuel with
  | O => None
  | S fuel' =>
      let (hd, t) := osp_split p in
      if (String.length hd <? 1)%nat then Some ([t] ++ rest)
      else if (String.length t <? 1)%nat then Some ([hd] ++ rest)
      else path_parts fuel' hd ([t] ++ rest)
  end.

Fixpoint common_parts (l1 l2 common : list string)
    : list string * list string * list string :=
  match l1, l2 with
  | a :: l1', b :: l2' =>
      if negb (String.eqb a b) then (common, l1, l2)
      else common_parts l1' l2' (common ++ [a])
  | _, _ => (common, l1, l2)
  end.

(** ** More of the module *)

(** The characters of a lower-case hexadecimal text. *)
Definition is_hex_digit (c : ascii) : bool :=
  existsb (Ascii.eqb c)
    ["0"; "1"; "2"; "3"; "4"; "5"; "6"; "7";
     "8"; "9"; "a"; "b"; "c"; "d"; "e"; "f"]%char.

Fixpoint all_hex (s : string) : bool :=
  match s with
  | EmptyString => true
  | String c rest => is_hex_digit c && all_hex rest
  end.

(** What [relative_path] makes of the two lists that are left of its paths
    once the common parts are gone: as its body does, on the contents. *)
Definition relative_of (l1 l2 : list string) : string :=
  let effective_length :=
    (Z.of_nat (length l1) - Z.of_nat (list_count "." l1)
     - Z.of_nat (list_count "" l1))%Z in
  let path_parts :=
    (if (0 <? effective_length)%Z
     then [str_repeat "../" (Z.to_nat effective_length)] else [])
    ++ l2 in
  match path_parts with
  | [] => EmptyString
  | a :: p => osp_join a p
  end.

(** A path component: not empty, without a separator. *)
Fixpoint no_sep (s : string) : bool :=
  match s with
  | EmptyString => true
  | String c rest => negb (is_sep c) && no_sep rest
  end.

Definition component (c : string) : Prop := c ≠ EmptyString ∧ no_sep c = true.

(** ["/".join(cs)]. *)
Fixpoint join_parts (cs : list string) : string :=
  match cs with
  | [] => EmptyString
  | [c] => c
  | c :: cs' => c +:+ "/" +:+ join_parts cs'
  end.

(** ** Package names

    [s.split("/")], [s.replace(old, new)] for texts of one character, and
    [posixpath.normpath]. *)
Fixpoint split_sep (s : string) : list string :=
  match s with
  | EmptyString => [EmptyString]
  | String c rest =>
      if is_sep c then EmptyString :: split_sep rest
      else
        match split_sep rest with
        | h :: t => String c h :: t
        | [] => [String c EmptyString]
        end
  end.

Fixpoint replace_char (old new : ascii) (s : string) : string :=
  match s with
  | EmptyString => EmptyString
  | String c rest =>
      String (if Ascii.eqb c old then new else c) (replace_char old new rest)
  end.

(** The body of the loop over the components: empty ones and ["."] are
    skipped; [".."] takes the last component away, unless there is none to
    take (and the path is relative) or the last one is [".."] too. *)
Definition normpath_step (initial_slashes : nat) (new_comps : list string)
    (comp : string) : list string :=
  if (comp =? "")%string || (comp =? ".")%string then new_comps
  else if negb (comp =? "..")%string
          || ((initial_slashes =? 0)%nat
              && match new_comps with [] => true | _ => false end)
          || match last new_comps with
             | Some c => (c =? "..")%string
             | None => false
             end
  then new_comps ++ [comp]
  else removelast new_comps.

(** One or two separators in front count; three or more count as one. *)
Definition initial_slashes (path : string) : nat :=
  if starts_with_sep path then
    if String.prefix "//" path && negb (String.prefix "///" path)
    then 2%nat else 1%nat
  else 0%nat.

Definition normpath (path : string) : string :=
  if (path =? "")%string then "."
  else
    let comps :=
      foldl (normpath_step (initial_slashes path)) [] (split_sep path) in
    let joined := join_parts comps in
    let joined :=
      if (initial_slashes path =? 0)%nat then joined
      else str_repeat "/" (initial_slashes path) +:+ joined in
    if (joined =? "")%string then "." else joined.

(** [path_to_package] and [package_to_path]. *)
Definition path_to_package (path_name : string) : string :=
  replace_char "/" "." (normpath path_name).

Definition package_to_path (package_name : string) : string :=
  normpath (replace_char "." "/" package_name).

(** [".".join(cs)], and the components of a package name: not empty, with
    neither a dot nor a separator. *)
Fixpoint join_dots (cs : list string) : string :=
  match cs with
  | [] => EmptyString
  | [c] => c
  | c :: cs' => c +:+ "." +:+ join_dots cs'
  end.

Fixpoint no_dot (s : string) : bool :=
  match s with
  | EmptyString => true
  | String c rest => negb (Ascii.eqb c ".") && no_dot rest
  end.

Definition identifier (c : string) : Prop := component c ∧ no_dot c = true.

(** A component that [normpath] keeps as it is. *)
Definition plain (c : string) : Prop := component c ∧ c ≠ "." ∧ c ≠ "..".

End Paths.
(** * Facts about the executor *)

Section BgThreadsFacts.
Import BgThreads.

Section Lists.
Context {A B : Type} (f : A -> list B).

Lemma flat_map_delete (l : list A) (i : nat) (t : A) :
  l !! i = Some t -> flat_map f l ≡ₚ f t ++ flat_map f (delete i l).
Proof.
  intros Hi.
  rewrite (Permutation_flat_map f (delete_Permutation l i t Hi)).
  reflexivity.
Qed.

Lemma flat_map_insert (l : list A) (i : nat) (t t' : A) :
  l !! i = Some t ->
  flat_map f (<[i := t']> l) ≡ₚ f t' ++ flat_map f (delete i l).
Proof.
  revert i; induction l as [|a l IH]; intros [|i] Hi; simpl in *;
    try discriminate.
  - reflexivity.
  - rewrite (IH i Hi).
    rewrite !app_assoc. apply Permutation_app_tail, Permutation_app_comm.
Qed.

Lemma flat_map_snoc (l : list A) (a : A) :
  flat_map f (l ++ [a]) = flat_map f l ++ f a.
Proof. rewrite flat_map_app. simpl. by rewrite app_nil_r. Qed.
End Lists.

Lemma task_holds_start (w : work_item) : task_holds (start_item w) = item_holds w.
Proof. by destruct w as [c|[] id c]. Qed.

Lemma set_executor_same (e : JobExecutorEngine) (m : module_state) :
  _job_executor m = Some e -> set_executor e m = m.
Proof. destruct m as [d o]; simpl; intros ->. reflexivity. Qed.

Lemma difference_absent (x : string) (ids : gset string) :
  x ∉ ids -> ids ∖ {[x]} = ids.
Proof.
  intros Hx. apply set_eq. intros y.
  rewrite elem_of_difference, elem_of_singleton.
  split; [by intros [Hy _] | intros Hy; split; [done | by intros ->]].
Qed.

(** *** The effect of each operation of the engine *)

Lemma submit_job_effect (c : call) (e : JobExecutorEngine) :
  engine_effect e (snd (submit_job c e)) false.
Proof.
  unfold submit_job, pool_submit.
  destruct (shutdown_flag (_executor e)); simpl; apply Eff_same; try done.
  unfold pool_holders; simpl. by rewrite flat_map_snoc, app_nil_r.
Qed.

Lemma _submit_job_effect (id : string) (k : style) (c : call)
    (e : JobExecutorEngine) :
  engine_effect e (snd (_submit_job id k c e))
    (match fst (_submit_job id k c e) with
     | Raise RuntimeError => true
     | _ => false
     end).
Proof.
  unfold _submit_job, pool_submit.
  destruct (decide (id ∈ _job_ids e)) as [Hin|Hin]; simpl.
  { by apply Eff_same. }
  destruct (shutdown_flag (_executor e)); simpl.
  - by apply (Eff_leak _ _ _ _ id).
  - apply (Eff_accept _ _ _ _ id); try done.
    unfold pool_holders; simpl. rewrite flat_map_snoc. simpl.
    rewrite <- !app_assoc. simpl.
    by rewrite <- !Permutation_middle.
Qed.

Lemma shutdown_effect (wait cancel : bool) (e : JobExecutorEngine) :
  engine_effect e (shutdown wait cancel e) false.
Proof.
  apply Eff_same; try done.
  unfold pool_holders; destruct cancel; simpl; try done.
  rewrite flat_map_app. apply Permutation_app_head, Permutation_app_comm.
Qed.

Lemma worker_take_effect (e e' : JobExecutorEngine) :
  worker_take e = Some e' -> engine_effect e e' false.
Proof.
  unfold worker_take.
  destruct (work_queue (_executor e)) as [|w q] eqn:Hq; try discriminate.
  case_match; try discriminate.
  intros [= <-]. apply Eff_same; try done.
  unfold pool_holders; simpl. rewrite Hq, flat_map_snoc, task_holds_start.
  simpl. by rewrite <- !app_assoc.
Qed.

Lemma task_finish_holders (i : nat) (t : task) (r : result unit)
    (ids : gset string) (e : JobExecutorEngine) :
  running (_executor e) !! i = Some t ->
  pool_holders (_executor e)
  ≡ₚ task_holds t ++ pool_holders (_executor (task_finish i r ids e)).
Proof.
  intros Hi. unfold pool_holders; simpl.
  rewrite (flat_map_delete _ _ _ _ Hi). by rewrite <- !app_assoc.
Qed.

Lemma task_replace_holders (i : nat) (t t' : task) (ids : gset string)
    (e : JobExecutorEngine) :
  running (_executor e) !! i = Some t ->
  task_holds t ++ pool_holders (_executor (task_continue i t' ids e))
  ≡ₚ task_holds t' ++ pool_holders (_executor e).
Proof.
  intros Hi. unfold pool_holders; simpl.
  rewrite (flat_map_insert _ _ _ _ _ Hi), (flat_map_delete _ _ _ _ Hi).
  rewrite !app_assoc. do 3 apply Permutation_app_tail.
  apply Permutation_app_comm.
Qed.

Lemma worker_advance_effect (i : nat) (o : outcome)
    (e e' : JobExecutorEngine) :
  worker_advance i o e = Some e' -> engine_effect e e' false.
Proof.
  unfold worker_advance, set_remove.
  destruct (running (_executor e) !! i) as [t|] eqn:Hi; try discriminate.
  destruct t as [c|id c|id c|id c|id c o'].
  - intros [= <-]. apply Eff_same; try done. symmetry.
    apply (task_finish_holders i _ (outcome_result o) (_job_ids e) e Hi).
  - destruct (decide (id ∈ _job_ids e)) as [Hin|Hin]; intros [= <-].
    + apply (Eff_release _ _ _ _ id); try done. symmetry.
      apply (task_replace_holders i _ (TPreFn id c) (_job_ids e ∖ {[id]}) e Hi).
    + apply (Eff_release _ _ _ _ id).
      * apply (task_finish_holders i _ (Raise KeyError) (_job_ids e) e Hi).
      * simpl. symmetry. by apply difference_absent.
  - intros [= <-]. apply Eff_same; try done. symmetry.
    apply (task_finish_holders i _ (outcome_result o) (_job_ids e) e Hi).
  - intros [= <-]. apply Eff_same; try done.
    apply (Permutation_app_inv_l [id]).
    apply (task_replace_holders i _ (TPostFinally id c o) (_job_ids e) e Hi).
  - destruct (decide (id ∈ _job_ids e)) as [Hin|Hin]; intros [= <-].
    + apply (Eff_release _ _ _ _ id); try done.
      apply (task_finish_holders i _ (outcome_result o')
               (_job_ids e ∖ {[id]}) e Hi).
    + apply (Eff_release _ _ _ _ id).
      * apply (task_finish_holders i _ (Raise KeyError) (_job_ids e) e Hi).
      * simpl. symmetry. by apply difference_absent.
Qed.

(** *** The effect of a step of the program *)

Lemma init_fresh (mw : pyval) (e : JobExecutorEngine) :
  JobExecutorEngine_init mw = Ok e ->
  pool_holders (_executor e) = [] ∧ _job_ids e = ∅
  ∧ shutdown_flag (_executor e) = false.
Proof.
  unfold JobExecutorEngine_init, ThreadPoolExecutor_init.
  destruct mw as [n|s]; try discriminate.
  destruct (n <=? 0); try discriminate. by intros [= <-].
Qed.

Lemma init_raises (mw : pyval) (x : exn) :
  JobExecutorEngine_init mw = Raise x -> x = TypeError ∨ x = ValueError.
Proof.
  unfold JobExecutorEngine_init, ThreadPoolExecutor_init.
  destruct mw as [n|s]; [destruct (n <=? 0)|]; intros [= <-]; auto.
Qed.

Lemma with_exec_effect
    (f : JobExecutorEngine -> result bool * JobExecutorEngine)
    (flag : result bool -> bool) (m : module_state) :
  (∀ e, engine_effect e (snd (f e)) (flag (fst (f e)))) ->
  flag (Raise TypeError) = false -> flag (Raise ValueError) = false ->
  state_effect m (snd (with_exec f m)) (flag (fst (with_exec f m))).
Proof.
  intros Hf Ht Hv.
  unfold engine_effect in Hf.
  unfold with_exec, _get_exec, state_effect, holders, reserved.
  destruct (_job_executor m) as [e|] eqn:He.
  - specialize (Hf e). destruct (f e) as [r e']; simpl in *. by rewrite ?He.
  - destruct (JobExecutorEngine_init (default_max_workers m)) as [e|x] eqn:Hi.
    + destruct (init_fresh _ _ Hi) as (Hh & Hids & _).
      specialize (Hf e). rewrite Hh, Hids in Hf.
      destruct (f e) as [r e']; simpl in *. by rewrite ?He.
    + simpl. rewrite He.
      destruct (init_raises _ _ Hi) as [-> | ->];
        [rewrite Ht | rewrite Hv]; by apply Eff_same.
Qed.

Lemma worker_step_effect
    (f : JobExecutorEngine -> option JobExecutorEngine) (m : module_state) :
  (∀ e e', f e = Some e' -> engine_effect e e' false) ->
  state_effect m (snd (worker_step f m)) false.
Proof.
  intros Hf. unfold engine_effect in Hf.
  unfold worker_step, state_effect, holders, reserved.
  destruct (_job_executor m) as [e|] eqn:He; simpl.
  - destruct (f e) as [e'|] eqn:Hfe; simpl; rewrite ?He.
    + by apply Hf.
    + by apply Eff_same.
  - rewrite He. by apply Eff_same.
Qed.

Lemma step_effect (a : action) (m : module_state) :
  state_effect m (snd (step a m)) (pool_refused a (fst (step a m))).
Proof.
  destruct a as [c|id c|id c|w cp| |i o]; simpl.
  - pose proof (with_exec_effect (submit_job c) (fun _ => false) m
                  (submit_job_effect c) eq_refl eq_refl) as H.
    unfold bg_run. by destruct (with_exec (submit_job c) m).
  - pose proof (with_exec_effect (submit_unique_job_pre id c) refusal m
                  (_submit_job_effect id Pre c) eq_refl eq_refl) as H.
    unfold bg_run_unique_pre.
    by destruct (with_exec (submit_unique_job_pre id c) m).
  - pose proof (with_exec_effect (submit_unique_job_post id c) refusal m
                  (_submit_job_effect id Post c) eq_refl eq_refl) as H.
    unfold bg_run_unique_post.
    by destruct (with_exec (submit_unique_job_post id c) m).
  - unfold bg_exec_shutdown, state_effect, holders, reserved.
    destruct (_job_executor m) as [e|] eqn:He; simpl; rewrite ?He.
    + apply (shutdown_effect w cp e).
    + by apply Eff_same.
  - pose proof (worker_step_effect worker_take m worker_take_effect) as H.
    by destruct (worker_step worker_take m) as [[] ?].
  - pose proof (worker_step_effect (worker_advance i o) m
                  (worker_advance_effect i o)) as H.
    by destruct (worker_step (worker_advance i o) m) as [[] ?].
Qed.

(** *** The invariants *)

Lemma effect_held_once (H H' : list string) (I I' : gset string) (b : bool) :
  effect H I H' I' b ->
  NoDup H ∧ (∀ id, id ∈ H -> id ∈ I) ->
  NoDup H' ∧ (∀ id, id ∈ H' -> id ∈ I').
Proof.
  intros [Hp -> | id Hid Hp -> | id Hp -> | id Hid Hp ->] [Hnd Hsub].
  - rewrite Hp. split; [done|]. intros x. rewrite Hp. apply Hsub.
  - rewrite Hp. split.
    + apply NoDup_cons. split; [|done]. intros Hx. by apply Hid, Hsub.
    + intros x. rewrite Hp, elem_of_cons, elem_of_union, elem_of_singleton.
      intros [-> | Hx]; [by left | right; by apply Hsub].
  - rewrite Hp in Hnd. apply NoDup_cons in Hnd as [Hid Hnd]. split; [done|].
    intros x Hx. rewrite elem_of_difference, elem_of_singleton. split.
    + apply Hsub. rewrite Hp. by right.
    + intros ->. by apply Hid.
  - rewrite Hp. split; [done|]. intros x. rewrite Hp, elem_of_union.
    intros Hx. right. by apply Hsub.
Qed.

Lemma held_once_import (environ : gmap string string) :
  held_once (import_module environ).
Proof. split; [constructor | by intros id Hid%elem_of_nil]. Qed.

Lemma held_once_step (a : action) (m : module_state) :
  held_once m -> held_once (snd (step a m)).
Proof. apply (effect_held_once _ _ _ _ _ (step_effect a m)). Qed.

Lemma held_once_run (acts : list action) (m : module_state) :
  held_once m -> held_once (run acts m).
Proof.
  revert m; induction acts as [|a acts IH]; intros m Hm; simpl; [done|].
  by apply IH, held_once_step.
Qed.

(** *** Submissions *)

Lemma reserved_some (m : module_state) (id : string) :
  id ∈ reserved m -> ∃ e, _job_executor m = Some e ∧ id ∈ _job_ids e.
Proof.
  unfold reserved. destruct (_job_executor m) as [e|]; [eauto|].
  by intros ?%not_elem_of_empty.
Qed.


Lemma with_exec_some
    (f : JobExecutorEngine -> result bool * JobExecutorEngine)
    (m : module_state) (e : JobExecutorEngine) :
  _job_executor m = Some e ->
  with_exec f m = (fst (f e), set_executor (snd (f e)) m).
Proof.
  intros He. unfold with_exec, _get_exec. rewrite He. by destruct (f e).
Qed.

Lemma _submit_job_duplicate (id : string) (k : style) (c : call)
    (e : JobExecutorEngine) :
  id ∈ _job_ids e -> _submit_job id k c e = (Ok false, e).
Proof. intros Hin. unfold _submit_job. by rewrite decide_True. Qed.

Lemma _submit_job_accepted (id : string) (k : style) (c : call)
    (e : JobExecutorEngine) :
  id ∉ _job_ids e -> shutdown_flag (_executor e) = false ->
  fst (_submit_job id k c e) = Ok true.
Proof.
  intros Hin Hs. unfold _submit_job, pool_submit.
  by rewrite decide_False, Hs.
Qed.


Lemma with_exec_duplicate (m : module_state) (id : string) (k : style)
    (c : call) :
  id ∈ reserved m -> with_exec (_submit_job id k c) m = (Ok false, m).
Proof.
  intros (e & He & Hin)%reserved_some.
  rewrite (with_exec_some _ m e He), _submit_job_duplicate by done.
  simpl. by rewrite (set_executor_same e m He).
Qed.

(** C5.  A keyed submission ([bg_run_unique_pre] or [bg_run_unique_post])
    under an identifier that is in the reserved set returns [False], raises
    nothing and leaves the whole state as it was: nothing reaches the pool
    and the reserved set is unchanged. *)
Theorem duplicate_submission_dropped (m : module_state) (id : string)
    (c : call) :
  id ∈ reserved m ->
  bg_run_unique_pre id c m = (Ok false, m)
  ∧ bg_run_unique_post id c m = (Ok false, m).
Proof.
  intros Hin. split; by apply with_exec_duplicate.
Qed.


(** *** Shutting down *)

(** C8.  [bg_exec_shutdown] on a module whose engine was never built returns
    [None], builds nothing and raises nothing; on any state whatever it
    raises nothing, and neither does a second call after it. *)
Theorem shutdown_never_raises (m : module_state)
    (wait cancel wait' cancel' : bool) :
  (_job_executor m = None -> bg_exec_shutdown wait cancel m = (Ok tt, m))
  ∧ fst (bg_exec_shutdown wait cancel m) = Ok tt
  ∧ fst (bg_exec_shutdown wait' cancel'
           (snd (bg_exec_shutdown wait cancel m))) = Ok tt.
Proof.
  unfold bg_exec_shutdown. split; [by intros ->|].
  destruct (_job_executor m) eqn:He; simpl; rewrite ?He; split; reflexivity.
Qed.

(** *** Reachable states *)

Lemma held_once_reachable (environ : gmap string string)
    (acts : list action) :
  held_once (run acts (import_module environ)).
Proof. apply held_once_run, held_once_import. Qed.

Lemma tasks_some (m : module_state) (i : nat) (t : task) :
  tasks m !! i = Some t ->
  ∃ e, _job_executor m = Some e ∧ running (_executor e) !! i = Some t.
Proof.
  unfold tasks, pool. destruct (_job_executor m) as [e|]; simpl; [eauto|].
  by rewrite lookup_nil.
Qed.

Lemma running_holder (p : ThreadPoolExecutor) (i : nat) (t : task)
    (id : string) :
  running p !! i = Some t -> id ∈ task_holds t -> id ∈ pool_holders p.
Proof.
  intros Hi Hid. unfold pool_holders.
  rewrite (flat_map_delete task_holds _ _ _ Hi), !elem_of_app. auto.
Qed.

Lemma task_reserved (m : module_state) (e : JobExecutorEngine) (i : nat)
    (t : task) (id : string) :
  held_once m -> _job_executor m = Some e ->
  running (_executor e) !! i = Some t -> id ∈ task_holds t ->
  id ∈ _job_ids e.
Proof.
  intros [_ Hsub] He Hi Hid. specialize (Hsub id).
  unfold holders, reserved in Hsub. rewrite He in Hsub.
  by apply Hsub, (running_holder _ i t).
Qed.

Lemma step_advance (m : module_state) (e e' : JobExecutorEngine) (i : nat)
    (o : outcome) :
  _job_executor m = Some e -> worker_advance i o e = Some e' ->
  step (Worker_advance i o) m = (Worker true, set_executor e' m).
Proof. intros He Ha. simpl. unfold worker_step. by rewrite He, Ha. Qed.

Lemma unique_accepted (m : module_state) (id : string) (k : style)
    (c : call) :
  id ∉ reserved m -> is_shut_down m = false -> is_Some (_job_executor m) ->
  fst (with_exec (_submit_job id k c) m) = Ok true.
Proof.
  intros Hin Hs [e He]. rewrite (with_exec_some _ m e He). simpl.
  unfold reserved in Hin. unfold is_shut_down in Hs. rewrite He in Hin, Hs.
  by apply _submit_job_accepted.
Qed.

(** C4, as the code has it.  When the wrapper of an accepted pre job takes
    its first step, the identifier leaves the reserved set and only then
    does the job body run: the task is at the call of [fn], no future has
    been completed by the step, and a further [bg_run_unique_pre] under the
    same identifier is accepted while that body is still executing, as long
    as the pool has not been shut down. *)
Theorem pre_job_releases_at_start (environ : gmap string string)
    (acts : list action) (i : nat) (o : outcome) (id : string)
    (c c' : call) :
  tasks (run acts (import_module environ)) !! i = Some (TPreLock id c) ->
  let m1 :=
    snd (step (Worker_advance i o) (run acts (import_module environ))) in
  id ∈ reserved (run acts (import_module environ))
  ∧ (tasks m1 !! i = Some (TPreFn id c))
  ∧ (id ∉ reserved m1)
  ∧ futures m1 = futures (run acts (import_module environ))
  ∧ (is_shut_down m1 = false ->
     fst (bg_run_unique_pre id c' m1) = Ok true).
Proof.
  pose proof (held_once_reachable environ acts) as Hinv.
  set (m := run acts (import_module environ)) in *.
  intros (e & He & Hi)%tasks_some.
  assert (id ∈ _job_ids e) as Hin.
  { apply (task_reserved m e i _ id Hinv He Hi). simpl. by left. }
  assert (worker_advance i o e
          = Some (task_continue i (TPreFn id c) (_job_ids e ∖ {[id]}) e))
    as Ha.
  { unfold worker_advance, set_remove. by rewrite Hi, decide_True. }
  rewrite (step_advance m e _ i o He Ha). simpl.
  split; [by unfold reserved; rewrite He|].
  split.
  { unfold tasks, pool. simpl. apply list_lookup_insert_eq.
    by apply lookup_lt_Some in Hi. }
  split.
  { unfold reserved. simpl.
    rewrite elem_of_difference, elem_of_singleton. by intros [_ []]. }
  split.
  { unfold futures, pool. simpl. by rewrite He. }
  intros Hs. unfold bg_run_unique_pre, submit_unique_job_pre.
  apply unique_accepted; [|done|by eexists].
  unfold reserved. simpl.
  rewrite elem_of_difference, elem_of_singleton. by intros [_ []].
Qed.

(** C3, as the code has it.  A post job keeps its identifier while its body
    runs, and when the body raises the wrapper goes on to its [finally]
    block; that block, for a body that has returned as for one that has
    raised, can always take its step, removes the identifier from the
    reserved set and leaves the outcome of the body in the future.  After
    it a [bg_run_unique_post] under the same identifier is accepted, as
    long as the pool has not been shut down. *)
Theorem post_job_failure_releases (environ : gmap string string)
    (acts : list action) (i : nat) (o o' : outcome) (id : string)
    (c c' : call) :
  (tasks (run acts (import_module environ)) !! i = Some (TPostFn id c) ->
   let m1 :=
     snd (step (Worker_advance i Raises) (run acts (import_module environ)))
   in (tasks m1 !! i = Some (TPostFinally id c Raises)) ∧ id ∈ reserved m1)
  ∧ (tasks (run acts (import_module environ)) !! i
     = Some (TPostFinally id c o) ->
     let m2 :=
       snd (step (Worker_advance i o') (run acts (import_module environ)))
     in (fst (step (Worker_advance i o') (run acts (import_module environ)))
         = Worker true)
        ∧ (id ∉ reserved m2)
        ∧ futures m2
          = futures (run acts (import_module environ)) ++ [outcome_result o]
        ∧ (is_shut_down m2 = false ->
           fst (bg_run_unique_post id c' m2) = Ok true)).
Proof.
  pose proof (held_once_reachable environ acts) as Hinv.
  set (m := run acts (import_module environ)) in *.
  split; intros (e & He & Hi)%tasks_some.
  - assert (id ∈ _job_ids e) as Hin.
    { apply (task_reserved m e i _ id Hinv He Hi). simpl. by left. }
    assert (worker_advance i Raises e
            = Some (task_continue i (TPostFinally id c Raises) (_job_ids e) e))
      as Ha.
    { unfold worker_advance. by rewrite Hi. }
    rewrite (step_advance m e _ i _ He Ha). simpl. split.
    + unfold tasks, pool. simpl. apply list_lookup_insert_eq.
      by apply lookup_lt_Some in Hi.
    + by unfold reserved.
  - assert (id ∈ _job_ids e) as Hin.
    { apply (task_reserved m e i _ id Hinv He Hi). simpl. by left. }
    assert (worker_advance i o' e
            = Some (task_finish i (outcome_result o)
                      (_job_ids e ∖ {[id]}) e)) as Ha.
    { unfold worker_advance, set_remove. by rewrite Hi, decide_True. }
    rewrite (step_advance m e _ i o' He Ha). simpl.
    split; [done|]. split.
    { unfold reserved. simpl.
      rewrite elem_of_difference, elem_of_singleton. by intros [_ []]. }
    split.
    { unfold futures, pool. simpl. by rewrite He. }
    intros Hs. unfold bg_run_unique_post, submit_unique_job_post.
    apply unique_accepted; [|done|by eexists].
    unfold reserved. simpl.
    rewrite elem_of_difference, elem_of_singleton. by intros [_ []].
Qed.

(** *** The size of the pool *)

Lemma submit_job_sized (n : Z) (c : call) (e : JobExecutorEngine) :
  engine_sized n e -> engine_sized n (snd (submit_job c e)).
Proof.
  unfold submit_job, pool_submit, engine_sized.
  by destruct (shutdown_flag (_executor e)).
Qed.

Lemma _submit_job_sized (n : Z) (id : string) (k : style) (c : call)
    (e : JobExecutorEngine) :
  engine_sized n e -> engine_sized n (snd (_submit_job id k c e)).
Proof.
  unfold _submit_job, pool_submit, engine_sized.
  destruct (decide (id ∈ _job_ids e)); [done|].
  by destruct (shutdown_flag (_executor e)).
Qed.

Lemma worker_take_sized (n : Z) (e e' : JobExecutorEngine) :
  worker_take e = Some e' -> engine_sized n e -> engine_sized n e'.
Proof.
  unfold worker_take, engine_sized.
  destruct (work_queue (_executor e)) as [|w q]; try discriminate.
  destruct (Z.of_nat (length (running (_executor e)))
            <? max_workers (_executor e)) eqn:Hlt; try discriminate.
  apply Z.ltb_lt in Hlt. intros [= <-] [Hn _]. simpl.
  split; [done|]. rewrite length_app. simpl. lia.
Qed.

Lemma worker_advance_sized (n : Z) (i : nat) (o : outcome)
    (e e' : JobExecutorEngine) :
  worker_advance i o e = Some e' -> engine_sized n e -> engine_sized n e'.
Proof.
  unfold worker_advance, set_remove, engine_sized.
  destruct (running (_executor e) !! i) as [t|] eqn:Hi; try discriminate.
  assert (length (delete i (running (_executor e)))
          <= length (running (_executor e)))%nat as Hd.
  { rewrite length_delete by eauto. lia. }
  intros He' [Hn Hl].
  destruct t as [c|id c|id c|id c|id c o'];
    repeat case_decide; injection He' as <-; simpl;
    rewrite ?length_insert; split; (done || lia).
Qed.

(** *** Concrete runs *)

(** A post job holds its identifier until its [finally] block has run, a
    pre job until its wrapper has started. *)
Lemma post_style_answers :
  answers [Bg_run_unique_post "x" (Call "f" []);
           Bg_run_unique_post "x" (Call "f" []);
           Worker_take;
           Worker_advance 0 Returns;
           Bg_run_unique_post "x" (Call "f" []);
           Worker_advance 0 Returns;
           Bg_run_unique_post "x" (Call "f" [])] (import_module ∅)
  = [Submitted (Ok true); Submitted (Ok false); Worker true; Worker true;
     Submitted (Ok false); Worker true; Submitted (Ok true)].
Proof. vm_compute. reflexivity. Qed.

Lemma pre_style_answers :
  answers [Bg_run_unique_pre "y" (Call "f" []);
           Bg_run_unique_pre "y" (Call "f" []);
           Worker_take;
           Bg_run_unique_pre "y" (Call "f" []);
           Worker_advance 0 Returns;
           Bg_run_unique_pre "y" (Call "f" [])] (import_module ∅)
  = [Submitted (Ok true); Submitted (Ok false); Worker true;
     Submitted (Ok false); Worker true; Submitted (Ok true)].
Proof. vm_compute. reflexivity. Qed.



Lemma post_job_failure_releases_witness :
  tasks (run [Bg_run_unique_post "y" (Call "f" []); Worker_take]
           (import_module ∅)) !! 0%nat
  = Some (TPostFn "y" (Call "f" []))
  ∧ tasks (run [Bg_run_unique_post "y" (Call "f" []); Worker_take;
                Worker_advance 0 Raises] (import_module ∅)) !! 0%nat
    = Some (TPostFinally "y" (Call "f" []) Raises)
  ∧ "y" ∈ reserved
            (run [Bg_run_unique_post "y" (Call "f" []); Worker_take;
                  Worker_advance 0 Raises] (import_module ∅))
  ∧ fst (bg_run_unique_post "y" (Call "g" [])
           (snd (step (Worker_advance 0 Returns)
                   (run [Bg_run_unique_post "y" (Call "f" []); Worker_take;
                         Worker_advance 0 Raises] (import_module ∅)))))
    = Ok true.
Proof.
  assert (tasks (run [Bg_run_unique_post "y" (Call "f" []); Worker_take]
                   (import_module ∅)) !! 0%nat
          = Some (TPostFn "y" (Call "f" []))) as H1 by reflexivity.
  assert (tasks (run [Bg_run_unique_post "y" (Call "f" []); Worker_take;
                      Worker_advance 0 Raises] (import_module ∅)) !! 0%nat
          = Some (TPostFinally "y" (Call "f" []) Raises)) as H2
    by reflexivity.
  split; [exact H1|]. split; [exact H2|].
  destruct (post_job_failure_releases ∅
              [Bg_run_unique_post "y" (Call "f" []); Worker_take]
              0 Raises Returns "y" (Call "f" []) (Call "g" [])) as [Hfn _].
  destruct (post_job_failure_releases ∅
              [Bg_run_unique_post "y" (Call "f" []); Worker_take;
               Worker_advance 0 Raises]
              0 Raises Returns "y" (Call "f" []) (Call "g" [])) as [_ Hfin].
  destruct (Hfn H1) as [_ Hres].
  destruct (Hfin H2) as (_ & _ & _ & Hok).
  exact (conj Hres (Hok eq_refl)).
Defined.

Lemma pre_job_releases_at_start_witness :
  tasks (run [Bg_run_unique_pre "y" (Call "f" []); Worker_take]
           (import_module ∅)) !! 0%nat
  = Some (TPreLock "y" (Call "f" []))
  ∧ fst (bg_run_unique_pre "y" (Call "g" [])
           (snd (step (Worker_advance 0 Returns)
                   (run [Bg_run_unique_pre "y" (Call "f" []); Worker_take]
                      (import_module ∅)))))
    = Ok true.
Proof.
  assert (tasks (run [Bg_run_unique_pre "y" (Call "f" []); Worker_take]
                   (import_module ∅)) !! 0%nat
          = Some (TPreLock "y" (Call "f" []))) as Ht by reflexivity.
  split; [exact Ht|].
  destruct (pre_job_releases_at_start ∅
              [Bg_run_unique_pre "y" (Call "f" []); Worker_take]
              0 Returns "y" (Call "f" []) (Call "g" []) Ht)
    as (_ & _ & _ & _ & Hok).
  exact (Hok eq_refl).
Defined.

Lemma duplicate_submission_dropped_witness :
  "y" ∈ reserved (run [Bg_run_unique_pre "y" (Call "f" [])] (import_module ∅))
  ∧ bg_run_unique_post "y" (Call "g" [])
      (run [Bg_run_unique_pre "y" (Call "f" [])] (import_module ∅))
    = (Ok false, run [Bg_run_unique_pre "y" (Call "f" [])] (import_module ∅)).
Proof.
  assert ("y" ∈ reserved (run [Bg_run_unique_pre "y" (Call "f" [])]
                            (import_module ∅))) as Hin
    by (vm_compute; reflexivity).
  split; [exact Hin|].
  apply (duplicate_submission_dropped _ "y" (Call "g" []) Hin).
Defined.

(** After a shutdown, [bg_run_unique_post("x", f)] leaves ["x"] in the
    reserved set although no job was accepted under it. *)
Lemma reserved_without_holder :
  ¬ ("x" ∈ reserved
             (run [Bg_run (Call "f" []); Bg_exec_shutdown false true;
                   Bg_run_unique_post "x" (Call "f" [])] (import_module ∅))
     ↔ "x" ∈ holders
               (run [Bg_run (Call "f" []); Bg_exec_shutdown false true;
                     Bg_run_unique_post "x" (Call "f" [])]
                  (import_module ∅))).
Proof.
  intros [H _].
  assert ("x" ∈ reserved
                  (run [Bg_run (Call "f" []); Bg_exec_shutdown false true;
                        Bg_run_unique_post "x" (Call "f" [])]
                     (import_module ∅))) as Hin
    by (vm_compute; reflexivity).
  apply H in Hin. vm_compute in Hin. inversion Hin.
Qed.

Lemma shutdown_never_raises_witness :
  _job_executor (import_module ∅) = None
  ∧ bg_exec_shutdown false true (import_module ∅)
    = (Ok tt, import_module ∅).
Proof.
  split; [reflexivity|].
  destruct (shutdown_never_raises (import_module ∅) false true false true)
    as [H _].
  exact (H eq_refl).
Defined.

End BgThreadsFacts.

(** * Facts about the path utilities *)

Section PathsFacts.
Import Paths.

(** ** Hashing in chunks *)

Lemma sha1_blocks_S (fuel : nat) (s : sha1_words) (data : list byte) :
  sha1_blocks (S fuel) s data
  = if (64 <=? length data)%nat
    then sha1_blocks fuel (sha1_compress s (take 64 data)) (drop 64 data)
    else (s, data).
Proof. reflexivity. Qed.

Lemma sha1_blocks_short (fuel : nat) (s : sha1_words) (data : list byte) :
  (length data < 64)%nat -> sha1_blocks fuel s data = (s, data).
Proof.
  intros Hlen. destruct fuel; [done|].
  by rewrite sha1_blocks_S, (proj2 (Nat.leb_gt _ _) Hlen).
Qed.

(** Fuel for every block of the data is enough. *)
Lemma sha1_blocks_fuel (fuel fuel' : nat) (s : sha1_words) (data : list byte) :
  (length data < 64 * S fuel)%nat -> (length data < 64 * S fuel')%nat ->
  sha1_blocks fuel s data = sha1_blocks fuel' s data.
Proof.
  revert fuel' s data. induction fuel as [|fuel IH]; intros fuel' s data H1 H2.
  - rewrite (sha1_blocks_short fuel') by lia. reflexivity.
  - destruct fuel' as [|fuel'].
    + rewrite (sha1_blocks_short (S fuel)) by lia. reflexivity.
    + rewrite !sha1_blocks_S.
      destruct (64 <=? length data)%nat eqn:Hlen; [|done].
      apply Nat.leb_le in Hlen. apply IH; rewrite length_drop; lia.
Qed.

(** Compressing the blocks of [d ++ e] is compressing those of [d] and
    going on with what is left of [d] followed by [e]. *)
Lemma sha1_blocks_app (s : sha1_words) (d e : list byte) :
  sha1_blocks (length (d ++ e)) s (d ++ e)
  = sha1_blocks (length (snd (sha1_blocks (length d) s d) ++ e))
      (fst (sha1_blocks (length d) s d))
      (snd (sha1_blocks (length d) s d) ++ e).
Proof.
  remember (length d) as n eqn:Hn.
  assert (length d <= n)%nat as Hle by lia. clear Hn.
  revert s d Hle. induction n as [|n IH]; intros s d Hle.
  - by destruct d; [|simpl in Hle; lia].
  - rewrite (sha1_blocks_S n s d).
    destruct (64 <=? length d)%nat eqn:Hlen; [|done].
    apply Nat.leb_le in Hlen.
    rewrite <- (IH (sha1_compress s (take 64 d)) (drop 64 d))
      by (rewrite length_drop; lia).
    rewrite (sha1_blocks_fuel (length (d ++ e)) (S (length (drop 64 d ++ e))))
      by (rewrite ?length_app, ?length_drop; lia).
    rewrite sha1_blocks_S.
    rewrite (proj2 (Nat.leb_le 64 (length (d ++ e))))
      by (rewrite length_app; lia).
    by rewrite take_app_le, drop_app_le by lia.
Qed.

Lemma update_sha1_of (d buf : list byte) :
  update buf (sha1_of d) = sha1_of (d ++ buf).
Proof.
  unfold update, sha1_of. simpl.
  rewrite (sha1_blocks_app sha1_iv d buf).
  destruct (sha1_blocks _ _ (_ ++ buf)) as [s r]. simpl.
  by rewrite length_app.
Qed.

Lemma hexdigest_sha1_of (d : list byte) : hexdigest (sha1_of d) = sha1_hex d.
Proof.
  unfold hexdigest, sha1_hex, sha1_of. simpl.
  by rewrite (sha1_blocks_app sha1_iv d (sha1_padding (length d))).
Qed.

Lemma sha1_of_nil : sha1 = sha1_of [].
Proof. reflexivity. Qed.

Lemma file_read_positive (memory n : Z) (f : list byte) :
  0 < n -> n <= memory -> n <= bytes_max ->
  file_read memory n f = Ok (take (Z.to_nat n) f, drop (Z.to_nat n) f)
  ∧ (0 < Z.to_nat n)%nat.
Proof.
  intros Hn Hm Hb. unfold file_read.
  assert (bytes_max < ssize_max) as Hs by done.
  rewrite (proj2 (Z.ltb_ge n (- ssize_max - 1))) by (unfold ssize_max; lia).
  rewrite (proj2 (Z.ltb_ge ssize_max n)) by lia.
  rewrite (proj2 (Z.ltb_ge n (-1))) by lia.
  rewrite (proj2 (Z.eqb_neq n (-1))) by lia.
  rewrite (proj2 (Z.ltb_ge bytes_max n)) by lia.
  rewrite (proj2 (Z.ltb_ge memory n)) by lia.
  rewrite andb_false_r. split; [done|lia].
Qed.

Lemma chunks_fuel (fuel fuel' n : nat) (l : list byte) :
  (0 < n)%nat -> (length l <= fuel)%nat -> (length l <= fuel')%nat ->
  chunks fuel n l = chunks fuel' n l.
Proof.
  intros Hn. revert fuel' l.
  induction fuel as [|fuel IH]; intros fuel' l H1 H2.
  - destruct l; [by destruct fuel'|simpl in H1; lia].
  - destruct l as [|x l]; [by destruct fuel'|].
    destruct fuel' as [|fuel']; [simpl in H2; lia|].
    change (take n (x :: l) :: chunks fuel n (drop n (x :: l))
            = take n (x :: l) :: chunks fuel' n (drop n (x :: l))).
    f_equal. apply IH; rewrite length_drop; simpl in *; lia.
Qed.

(** The loop takes the buffer and the rest of the file, chunk after chunk. *)
Lemma hash_loop_chunks (fuel : nat) (memory n : Z) (o : sha1_object)
    (buf : list byte) (f : list byte) :
  0 < n -> n <= memory -> n <= bytes_max ->
  (buf = [] -> f = []) -> (length (buf ++ f) < fuel)%nat ->
  hash_loop fuel memory n o buf f
  = Some (Ok (foldl (fun o c => update c o) o
                (if decide (buf = []) then []
                 else buf :: chunks (length f) (Z.to_nat n) f))).
Proof.
  intros Hn Hm Hb.
  destruct (file_read_positive memory n [] Hn Hm Hb) as [_ Hpos].
  revert o buf f. induction fuel as [|fuel IH]; intros o buf f Hbuf Hlen.
  { lia. }
  destruct buf as [|b buf].
  { by rewrite (Hbuf eq_refl). }
  change (hash_loop (S fuel) memory n o (b :: buf) f)
    with (match file_read memory n f with
          | Ok (buf', f') =>
              hash_loop fuel memory n (update (b :: buf) o) buf' f'
          | Raise x => Some (Raise x)
          end).
  rewrite (proj1 (file_read_positive memory n f Hn Hm Hb)).
  rewrite IH.
  - f_equal. f_equal. rewrite (decide_False (P := b :: buf = [])) by done.
    cbn [foldl].
    f_equal.
    destruct f as [|x f]; [by rewrite take_nil|].
    destruct (Z.to_nat n) as [|k] eqn:Hk; [lia|].
    rewrite decide_False by done.
    change (chunks (length (x :: f)) (S k) (x :: f))
      with (take (S k) (x :: f)
            :: chunks (length f) (S k) (drop (S k) (x :: f))).
    f_equal. apply chunks_fuel; [lia|done|].
    rewrite length_drop. simpl. lia.
  - destruct f as [|x f]; [by rewrite drop_nil|].
    destruct (Z.to_nat n); [lia|done].
  - simpl in Hlen. rewrite length_app in Hlen.
    rewrite take_drop. lia.
Qed.

Lemma foldl_update_sha1_of (d : list byte) (cs : list (list byte)) :
  foldl (fun o c => update c o) (sha1_of d) cs = sha1_of (d ++ concat cs).
Proof.
  revert d. induction cs as [|c cs IH]; intros d; simpl.
  - by rewrite app_nil_r.
  - by rewrite update_sha1_of, IH, app_assoc.
Qed.

Lemma concat_chunks (fuel n : nat) (l : list byte) :
  (0 < n)%nat -> (length l <= fuel)%nat -> concat (chunks fuel n l) = l.
Proof.
  intros Hn. revert l. induction fuel as [|fuel IH]; intros l Hl.
  - by destruct l; [|simpl in Hl; lia].
  - destruct l as [|x l]; [done|].
    change (take n (x :: l) ++ concat (chunks fuel n (drop n (x :: l)))
            = x :: l).
    rewrite IH; [apply take_drop|].
    rewrite length_drop. simpl in *. lia.
Qed.

Lemma chunks_unfold (n : nat) (l : list byte) :
  (0 < n)%nat ->
  (if decide (take n l = []) then []
   else take n l :: chunks (length (drop n l)) n (drop n l))
  = chunks (length l) n l.
Proof.
  intros Hn. destruct l as [|x l]; [by rewrite take_nil|].
  destruct n as [|k]; [lia|].
  rewrite decide_False by done.
  change (chunks (length (x :: l)) (S k) (x :: l))
    with (take (S k) (x :: l)
          :: chunks (length l) (S k) (drop (S k) (x :: l))).
  f_equal. apply chunks_fuel; [lia|done|].
  rewrite length_drop. simpl. lia.
Qed.

(** C9, as the code has it.  For a file that exists and a positive
    [buffer_size] for which [read] obtains its buffer (no more than the
    longest bytes object and than the memory there is), given fuel for the
    loop, [hash_file_sha1] returns the SHA-1 hex digest of the whole
    contents; the digest is the one of the hash object updated with the
    successive chunks of [buffer_size] bytes, and it is the same for any
    other such [buffer_size]. *)
Theorem hash_file_sha1_whole_file (fs : gmap string (list byte))
    (file_target : string) (contents : list byte)
    (memory buffer_size buffer_size' : Z) (fuel : nat) :
  fs !! file_target = Some contents ->
  0 < buffer_size <= Z.min memory bytes_max ->
  0 < buffer_size' <= Z.min memory bytes_max ->
  (length contents < fuel)%nat ->
  hash_file_sha1 fuel memory fs file_target buffer_size
  = Some (Ok (sha1_hex contents))
  ∧ hash_file_sha1 fuel memory fs file_target buffer_size
    = Some (Ok (hexdigest
                  (foldl (fun o c => update c o) sha1
                     (chunks (length contents) (Z.to_nat buffer_size)
                        contents))))
  ∧ hash_file_sha1 fuel memory fs file_target buffer_size'
    = hash_file_sha1 fuel memory fs file_target buffer_size.
Proof.
  intros Hfs Hn Hn' Hfuel.
  assert (∀ n, 0 < n <= Z.min memory bytes_max ->
            hash_file_sha1 fuel memory fs file_target n
            = Some (Ok (hexdigest
                          (foldl (fun o c => update c o) sha1
                             (chunks (length contents) (Z.to_nat n)
                                contents))))) as Hloop.
  { intros n [Hpos Hle]. unfold hash_file_sha1. rewrite Hfs.
    destruct (file_read_positive memory n contents Hpos) as [-> Hk];
      [lia|lia|].
    rewrite hash_loop_chunks, chunks_unfold; try done; try lia.
    - destruct contents as [|x l]; [by rewrite drop_nil|].
      destruct (Z.to_nat n); [lia|done].
    - by rewrite take_drop. }
  assert (∀ n, 0 < n <= Z.min memory bytes_max ->
            hash_file_sha1 fuel memory fs file_target n
            = Some (Ok (sha1_hex contents))) as Hall.
  { intros n Hpos. rewrite (Hloop n Hpos), sha1_of_nil.
    rewrite foldl_update_sha1_of, concat_chunks by lia.
    by rewrite hexdigest_sha1_of. }
  split; [by apply Hall|]. split; [by apply Hloop|].
  by rewrite !Hall.
Qed.

(** ** The heap of lists *)

Lemma contents_new (v : list string) (h : list (list string)) :
  contents (length h) (h ++ [v]) = v.
Proof. unfold contents. by rewrite lookup_app_r, Nat.sub_diag. Qed.

Lemma contents_old (r : nat) (h k : list (list string)) :
  (r < length h)%nat -> contents r (h ++ k) = contents r h.
Proof. intros Hr. unfold contents. by rewrite lookup_app_l. Qed.

Lemma contents_prefix (r : nat) (h h' : list (list string)) :
  h `prefix_of` h' -> (r < length h)%nat -> contents r h' = contents r h.
Proof. intros [k ->]. apply contents_old. Qed.

Lemma prefix_insert_fresh (a : nat) (v : list string)
    (h h' : list (list string)) :
  h `prefix_of` h' -> (length h <= a)%nat -> h `prefix_of` <[a := v]> h'.
Proof.
  intros [k ->] Ha. exists (<[(a - length h)%nat := v]> k).
  by rewrite insert_app_r_alt.
Qed.

(** ** [osp.split] shortens *)

Lemma cut_at_last_sep_length (p h t : string) :
  cut_at_last_sep p = (h, t) ->
  (String.length h + String.length t = String.length p)%nat.
Proof.
  revert h t. induction p as [|c p IH]; intros h t; simpl.
  - by intros [= <- <-].
  - destruct (cut_at_last_sep p) as [h' t'].
    specialize (IH h' t' eq_refl).
    destruct h' as [|c' h'].
    + destruct (is_sep c); intros [= <- <-]; simpl in *; lia.
    + intros [= <- <-]. simpl in *. lia.
Qed.

Lemma rstrip_sep_length (s : string) :
  (String.length (rstrip_sep s) <= String.length s)%nat.
Proof.
  induction s as [|c s IH]; simpl; [done|].
  destruct (rstrip_sep s); [destruct (is_sep c)|]; simpl in *; lia.
Qed.

Lemma osp_split_length (p hd t : string) :
  osp_split p = (hd, t) ->
  (String.length hd + String.length t <= String.length p)%nat.
Proof.
  unfold osp_split. destruct (cut_at_last_sep p) as [h' t'] eqn:Hc.
  apply cut_at_last_sep_length in Hc.
  pose proof (rstrip_sep_length h').
  case_match; intros [= <- <-]; lia.
Qed.

(** ** The helpers and their contents *)

Lemma path_parts_total (fuel : nat) (p : string) (rest : list string) :
  (String.length p < fuel)%nat -> is_Some (path_parts fuel p rest).
Proof.
  revert p rest. induction fuel as [|fuel IH]; intros p rest Hf; [lia|].
  simpl. destruct (osp_split p) as [hd t] eqn:Hs.
  apply osp_split_length in Hs.
  destruct (String.length hd <? 1)%nat; [by eexists|].
  destruct (String.length t <? 1)%nat eqn:Ht; [by eexists|].
  apply Nat.ltb_ge in Ht. apply IH. lia.
Qed.

(** [_path_split] builds new objects only, and the list that it returns
    holds the parts in front of the contents of [rest]. *)
Lemma _path_split_spec (fuel : nat) (p : string) (rest : nat)
    (h : list (list string)) (v : list string) :
  (rest < length h)%nat ->
  path_parts fuel p (contents rest h) = Some v ->
  ∃ r h', _path_split fuel p rest h = Some (r, h')
          ∧ contents r h' = v ∧ h `prefix_of` h'.
Proof.
  revert p rest h. induction fuel as [|fuel IH]; intros p rest h Hr;
    [done|].
  simpl. destruct (osp_split p) as [hd t].
  assert (contents rest (h ++ [[t]]) = contents rest h) as Ht
    by by apply contents_old.
  assert (contents rest (h ++ [[hd]]) = contents rest h) as Hhd
    by by apply contents_old.
  destruct (String.length hd <? 1)%nat.
  { intros [= <-]. eexists _, _. split; [done|].
    rewrite contents_new, Ht, contents_new. split; [done|].
    rewrite <- app_assoc. by apply prefix_app_r. }
  destruct (String.length t <? 1)%nat.
  { intros [= <-]. eexists _, _. split; [done|].
    rewrite contents_new, Hhd, contents_new. split; [done|].
    rewrite <- app_assoc. by apply prefix_app_r. }
  intros Hv. rewrite contents_new, Ht.
  destruct (IH hd (length (h ++ [[t]]))
              ((h ++ [[t]]) ++ [[t] ++ contents rest h])) as (r & h' & -> & Hc & Hp).
  - rewrite !length_app. simpl. lia.
  - by rewrite contents_new.
  - eexists _, _. split; [done|]. split; [done|].
    etrans; [|exact Hp]. rewrite <- app_assoc. by apply prefix_app_r.
Qed.

(** The same for [_common_path]. *)
Lemma _common_path_spec (fuel : nat) (l1 l2 common : nat)
    (h : list (list string)) :
  (l1 < length h)%nat -> (l2 < length h)%nat -> (common < length h)%nat ->
  (length (contents l1 h) < fuel)%nat ->
  ∃ t h', _common_path fuel l1 l2 common h = Some (t, h')
          ∧ triple_contents t h'
            = common_parts (contents l1 h) (contents l2 h) (contents common h)
          ∧ h `prefix_of` h'.
Proof.
  revert l1 l2 common h.
  induction fuel as [|fuel IH]; intros l1 l2 common h H1 H2 Hc Hf; [lia|].
  simpl.
  destruct (contents l1 h) as [|a k1] eqn:E1.
  { eexists (_, _, _), _. split; [done|].
    unfold triple_contents. cbn [fst snd]. rewrite E1.
    by destruct (contents l2 h). }
  destruct (contents l2 h) as [|b k2] eqn:E2.
  { eexists (_, _, _), _. split; [done|].
    unfold triple_contents. cbn [fst snd]. by rewrite E1, E2. }
  cbv beta iota. cbn [common_parts].
  destruct (negb (a =? b)%string).
  { eexists (_, _, _), _. split; [done|].
    unfold triple_contents. cbn [fst snd]. by rewrite E1, E2. }
  unfold list_tail, list_add, new_list.
  change (drop 1 (a :: k1)) with k1.
  rewrite (contents_old l2 h [k1]), E2 by done.
  change (drop 1 (b :: k2)) with k2.
  set (h1 := h ++ [k1]). set (h2 := h1 ++ [k2]). set (h3 := h2 ++ [[a]]).
  assert (h `prefix_of` h3) as Hp3.
  { unfold h3, h2, h1. rewrite <- !app_assoc. by apply prefix_app_r. }
  assert (contents common h3 = contents common h) as ->
    by by apply contents_prefix.
  assert (contents (length h2) h3 = [a]) as -> by apply contents_new.
  set (h4 := h3 ++ [contents common h ++ [a]]).
  assert (length h1 = S (length h)) as L1
    by (unfold h1; rewrite length_app; simpl; lia).
  assert (length h2 = S (length h1)) as L2
    by (unfold h2; rewrite length_app; simpl; lia).
  assert (length h3 = S (length h2)) as L3
    by (unfold h3; rewrite length_app; simpl; lia).
  assert (length h4 = S (length h3)) as L4
    by (unfold h4; rewrite length_app; simpl; lia).
  assert (contents (length h) h4 = k1) as C1.
  { unfold h4. rewrite contents_old by lia.
    unfold h3. rewrite contents_old by lia.
    unfold h2. rewrite contents_old by lia. apply contents_new. }
  assert (contents (length h1) h4 = k2) as C2.
  { unfold h4. rewrite contents_old by lia.
    unfold h3. rewrite contents_old by lia. apply contents_new. }
  assert (contents (length h3) h4 = contents common h ++ [a]) as C3
    by apply contents_new.
  destruct (IH (length h) (length h1) (length h3) h4) as (t & h' & -> & Ht & Hp);
    try lia.
  { rewrite C1. simpl in Hf. lia. }
  eexists _, _. split; [done|]. split.
  - by rewrite Ht, C1, C2, C3.
  - etrans; [exact Hp3|]. etrans; [|exact Hp]. by apply prefix_app_r.
Qed.

(** Neither helper changes an object that exists when it is called. *)
Lemma _path_split_frame (fuel : nat) (p : string) (rest : nat)
    (h : list (list string)) (r : nat) (h' : list (list string)) :
  _path_split fuel p rest h = Some (r, h') -> h `prefix_of` h'.
Proof.
  revert p rest h. induction fuel as [|fuel IH]; intros p rest h; [done|].
  simpl. destruct (osp_split p) as [hd t].
  destruct (String.length hd <? 1)%nat.
  { intros [= <- <-]. rewrite <- app_assoc. by apply prefix_app_r. }
  destruct (String.length t <? 1)%nat.
  { intros [= <- <-]. rewrite <- app_assoc. by apply prefix_app_r. }
  intros Hr%IH. etrans; [|exact Hr].
  rewrite <- app_assoc. by apply prefix_app_r.
Qed.

Lemma _common_path_frame (fuel : nat) (l1 l2 common : nat)
    (h : list (list string)) (t : nat * nat * nat)
    (h' : list (list string)) :
  _common_path fuel l1 l2 common h = Some (t, h') -> h `prefix_of` h'.
Proof.
  revert l1 l2 common h.
  induction fuel as [|fuel IH]; intros l1 l2 common h; [done|].
  cbn [_common_path].
  destruct (contents l1 h) as [|a k1]; [by intros [= <- <-]|].
  destruct (contents l2 h) as [|b k2]; [by intros [= <- <-]|].
  destruct (negb (a =? b)%string); [by intros [= <- <-]|].
  unfold list_tail, list_add, new_list.
  intros Hr%IH. etrans; [|exact Hr].
  rewrite <- !app_assoc. by apply prefix_app_r.
Qed.

Lemma pristine_valid (m : module_state) :
  pristine m ->
  (_path_split_rest m < length (heap m))%nat
  ∧ (_common_path_common m < length (heap m))%nat
  ∧ contents (_path_split_rest m) (heap m) = []
  ∧ contents (_common_path_common m) (heap m) = [].
Proof.
  intros [H1 H2]. unfold contents. rewrite H1, H2.
  apply lookup_lt_Some in H1, H2. done.
Qed.

(** [relative_path] changes the list [path_parts] in place, and that list
    only. *)
Lemma relative_path_frame (fuel : nat) (p1 p2 : string) (m m' : module_state)
    (s : string) :
  relative_path fuel p1 p2 m = Some (s, m') -> heap m `prefix_of` heap m'.
Proof.
  unfold relative_path.
  destruct (_path_split fuel p1 _ _) as [[s1 h1]|] eqn:E1; [|done].
  destruct (_path_split fuel p2 _ _) as [[s2 h2]|] eqn:E2; [|done].
  destruct (_common_path fuel s1 s2 _ _) as [[[[c l1] l2] h3]|] eqn:E3;
    [|done].
  apply _path_split_frame in E1, E2. apply _common_path_frame in E3.
  assert (heap m `prefix_of` h3) as Hp by (etrans; [|etrans]; eauto).
  assert (length (heap m) <= length h3)%nat as Hl by by apply prefix_length.
  unfold new_list, list_iadd. intros [= _ <-]. simpl.
  assert (heap m `prefix_of` h3 ++ [[]]) as Hp4 by by apply prefix_app_r.
  repeat case_match; repeat apply prefix_insert_fresh; try done;
    by apply prefix_app_r.
Qed.

Lemma call_path_split_with_spec (fuel : nat) (p : string)
    (rest : list string) (m : module_state) :
  (String.length p < fuel)%nat ->
  ∃ v m', path_parts fuel p rest = Some v
          ∧ call_path_split_with fuel p rest m = Some (v, m')
          ∧ heap m `prefix_of` heap m'.
Proof.
  intros Hf. destruct (path_parts_total fuel p rest Hf) as [v Hv].
  unfold call_path_split_with, new_list.
  destruct (_path_split_spec fuel p (length (heap m)) (heap m ++ [rest]) v)
    as (r & h' & -> & <- & Hp).
  - rewrite length_app. simpl. lia.
  - by rewrite contents_new.
  - eexists _, _. split; [done|]. split; [done|]. simpl.
    etrans; [|exact Hp]. by apply prefix_app_r.
Qed.

Lemma call_path_split_spec (fuel : nat) (p : string) (m : module_state) :
  pristine m -> (String.length p < fuel)%nat ->
  ∃ v m', path_parts fuel p [] = Some v
          ∧ call_path_split fuel p m = Some (v, m')
          ∧ heap m `prefix_of` heap m'.
Proof.
  intros (Hr & _ & Hc & _)%pristine_valid Hf.
  destruct (path_parts_total fuel p [] Hf) as [v Hv].
  unfold call_path_split.
  destruct (_path_split_spec fuel p (_path_split_rest m) (heap m) v)
    as (r & h' & -> & <- & Hp); [done|by rewrite Hc|].
  by eexists _, _.
Qed.

Lemma call_common_path_with_spec (fuel : nat) (l1 l2 common : list string)
    (m : module_state) :
  (length l1 < fuel)%nat ->
  ∃ m', call_common_path_with fuel l1 l2 common m
        = Some (common_parts l1 l2 common, m')
        ∧ heap m `prefix_of` heap m'.
Proof.
  intros Hf. unfold call_common_path_with, new_list.
  set (h1 := heap m ++ [l1]). set (h2 := h1 ++ [l2]).
  set (h3 := h2 ++ [common]).
  assert (length h1 = S (length (heap m))) as L1
    by (unfold h1; rewrite length_app; simpl; lia).
  assert (length h2 = S (length h1)) as L2
    by (unfold h2; rewrite length_app; simpl; lia).
  assert (length h3 = S (length h2)) as L3
    by (unfold h3; rewrite length_app; simpl; lia).
  assert (contents (length (heap m)) h3 = l1) as C1.
  { unfold h3. rewrite contents_old by lia.
    unfold h2. rewrite contents_old by lia. apply contents_new. }
  assert (contents (length h1) h3 = l2) as C2.
  { unfold h3. rewrite contents_old by lia. apply contents_new. }
  assert (contents (length h2) h3 = common) as C3 by apply contents_new.
  destruct (_common_path_spec fuel (length (heap m)) (length h1) (length h2) h3)
    as (t & h' & -> & Ht & Hp); try lia.
  { by rewrite C1. }
  rewrite Ht, C1, C2, C3. eexists. split; [done|]. simpl.
  etrans; [|exact Hp]. unfold h3, h2, h1. rewrite <- !app_assoc.
  by apply prefix_app_r.
Qed.

Lemma call_common_path_spec (fuel : nat) (l1 l2 : list string)
    (m : module_state) :
  pristine m -> (length l1 < fuel)%nat ->
  ∃ m', call_common_path fuel l1 l2 m = Some (common_parts l1 l2 [], m')
        ∧ heap m `prefix_of` heap m'.
Proof.
  intros (_ & Hr & _ & Hc)%pristine_valid Hf.
  unfold call_common_path, new_list.
  set (h1 := heap m ++ [l1]). set (h2 := h1 ++ [l2]).
  assert (length h1 = S (length (heap m))) as L1
    by (unfold h1; rewrite length_app; simpl; lia).
  assert (length h2 = S (length h1)) as L2
    by (unfold h2; rewrite length_app; simpl; lia).
  assert (contents (length (heap m)) h2 = l1) as C1.
  { unfold h2. rewrite contents_old by lia. apply contents_new. }
  assert (contents (length h1) h2 = l2) as C2 by apply contents_new.
  assert (contents (_common_path_common m) h2 = []) as C3.
  { unfold h2. rewrite contents_old by lia.
    unfold h1. by rewrite contents_old by lia. }
  destruct (_common_path_spec fuel (length (heap m)) (length h1)
              (_common_path_common m) h2)
    as (t & h' & -> & Ht & Hp); try lia.
  { by rewrite C1. }
  rewrite Ht, C1, C2, C3. eexists. split; [done|]. simpl.
  etrans; [|exact Hp]. unfold h2, h1. rewrite <- !app_assoc.
  by apply prefix_app_r.
Qed.

Lemma pristine_later (m m' : module_state) :
  pristine m -> heap m `prefix_of` heap m' ->
  _path_split_rest m' = _path_split_rest m ->
  _common_path_common m' = _common_path_common m ->
  pristine m'.
Proof.
  intros [H1 H2] Hp E1 E2. unfold pristine. rewrite E1, E2.
  split; by eapply prefix_lookup_Some.
Qed.

Lemma call_path_split_refs (fuel : nat) (p : string) (m m' : module_state)
    (v : list string) :
  call_path_split fuel p m = Some (v, m') ->
  _path_split_rest m' = _path_split_rest m
  ∧ _common_path_common m' = _common_path_common m.
Proof.
  unfold call_path_split. destruct (_path_split _ _ _ _) as [[r h]|]; [|done].
  by intros [= _ <-].
Qed.

Lemma call_path_split_with_refs (fuel : nat) (p : string)
    (rest : list string) (m m' : module_state) (v : list string) :
  call_path_split_with fuel p rest m = Some (v, m') ->
  _path_split_rest m' = _path_split_rest m
  ∧ _common_path_common m' = _common_path_common m.
Proof.
  unfold call_path_split_with, new_list.
  destruct (_path_split _ _ _ _) as [[r h]|]; [|done]. by intros [= _ <-].
Qed.

Lemma call_common_path_refs (fuel : nat) (l1 l2 : list string)
    (m m' : module_state) (v : list string * list string * list string) :
  call_common_path fuel l1 l2 m = Some (v, m') ->
  _path_split_rest m' = _path_split_rest m
  ∧ _common_path_common m' = _common_path_common m.
Proof.
  unfold call_common_path, new_list.
  destruct (_common_path _ _ _ _ _) as [[t h]|]; [|done]. by intros [= _ <-].
Qed.

Lemma call_common_path_with_refs (fuel : nat) (l1 l2 common : list string)
    (m m' : module_state) (v : list string * list string * list string) :
  call_common_path_with fuel l1 l2 common m = Some (v, m') ->
  _path_split_rest m' = _path_split_rest m
  ∧ _common_path_common m' = _common_path_common m.
Proof.
  unfold call_common_path_with, new_list.
  destruct (_common_path _ _ _ _ _) as [[t h]|]; [|done]. by intros [= _ <-].
Qed.

Lemma relative_path_refs (fuel : nat) (p1 p2 : string) (m m' : module_state)
    (s : string) :
  relative_path fuel p1 p2 m = Some (s, m') ->
  _path_split_rest m' = _path_split_rest m
  ∧ _common_path_common m' = _common_path_common m.
Proof.
  unfold relative_path.
  destruct (_path_split fuel p1 _ _) as [[s1 h1]|]; [|done].
  destruct (_path_split fuel p2 _ _) as [[s2 h2]|]; [|done].
  destruct (_common_path fuel s1 s2 _ _) as [[[[c l1] l2] h3]|]; [|done].
  unfold new_list. by intros [= _ <-].
Qed.

(** With nothing in common at the start, [_common_path] hands back the very
    object of its default. *)
Lemma _common_path_returns_default (fuel : nat) (l2 : nat)
    (m : module_state) :
  pristine m ->
  _common_path (S fuel) (_path_split_rest m) l2 (_common_path_common m)
    (heap m)
  = Some (_common_path_common m, _path_split_rest m, l2, heap m).
Proof.
  intros (_ & _ & Hc & _)%pristine_valid. cbn [_common_path]. by rewrite Hc.
Qed.

(** C10.  In a state in which the two default lists are still empty, and
    with fuel for the recursion: [_path_split(p)] returns what
    [_path_split(p, [])] returns and [_common_path(l1, l2)] what
    [_common_path(l1, l2, [])] returns; after any of these calls, and after
    a call of [relative_path], the defaults are still empty and every list
    that existed before has its contents; so the same calls made again, in
    any order, return the same results. *)
Theorem default_accumulators_never_mutated (m : module_state) (fuel : nat)
    (p p1 p2 : string) (l1 l2 : list string) :
  pristine m -> (String.length p < fuel)%nat -> (length l1 < fuel)%nat ->
  ∃ v m1 m2 m3 m4,
    (call_path_split fuel p m = Some (v, m1)
     ∧ call_path_split_with fuel p [] m = Some (v, m2))
    ∧ (call_common_path fuel l1 l2 m = Some (common_parts l1 l2 [], m3)
       ∧ call_common_path_with fuel l1 l2 [] m
         = Some (common_parts l1 l2 [], m4))
    ∧ (pristine m1 ∧ pristine m2 ∧ pristine m3 ∧ pristine m4)
    ∧ (heap m `prefix_of` heap m1 ∧ heap m `prefix_of` heap m3)
    ∧ (fst <$> call_path_split fuel p m1 = Some v
       ∧ fst <$> call_path_split fuel p m3 = Some v)
    ∧ (fst <$> call_common_path fuel l1 l2 m3 = Some (common_parts l1 l2 [])
       ∧ fst <$> call_common_path fuel l1 l2 m1
         = Some (common_parts l1 l2 []))
    ∧ (∀ s m', relative_path fuel p1 p2 m = Some (s, m') ->
               pristine m' ∧ heap m `prefix_of` heap m').
Proof.
  intros Hm Hp Hl.
  destruct (call_path_split_spec fuel p m Hm Hp) as (v & m1 & Hv & E1 & P1).
  destruct (call_path_split_with_spec fuel p [] m Hp)
    as (v' & m2 & Hv' & E2 & P2).
  destruct (call_common_path_spec fuel l1 l2 m Hm Hl) as (m3 & E3 & P3).
  destruct (call_common_path_with_spec fuel l1 l2 [] m Hl) as (m4 & E4 & P4).
  assert (v' = v) as -> by congruence.
  assert (pristine m1) as Hm1.
  { destruct (call_path_split_refs _ _ _ _ _ E1).
    by apply (pristine_later m). }
  assert (pristine m2) as Hm2.
  { destruct (call_path_split_with_refs _ _ _ _ _ _ E2).
    by apply (pristine_later m). }
  assert (pristine m3) as Hm3.
  { destruct (call_common_path_refs _ _ _ _ _ _ E3).
    by apply (pristine_later m). }
  assert (pristine m4) as Hm4.
  { destruct (call_common_path_with_refs _ _ _ _ _ _ _ E4).
    by apply (pristine_later m). }
  exists v, m1, m2, m3, m4.
  refine (conj (conj E1 E2) (conj (conj E3 E4)
            (conj (conj Hm1 (conj Hm2 (conj Hm3 Hm4))) (conj (conj P1 P3)
               (conj (conj _ _) (conj (conj _ _) _)))))).
  - destruct (call_path_split_spec fuel p m1 Hm1 Hp) as (w & ? & Hw & -> & _).
    simpl. congruence.
  - destruct (call_path_split_spec fuel p m3 Hm3 Hp) as (w & ? & Hw & -> & _).
    simpl. congruence.
  - by destruct (call_common_path_spec fuel l1 l2 m3 Hm3 Hl) as (? & -> & _).
  - by destruct (call_common_path_spec fuel l1 l2 m1 Hm1 Hl) as (? & -> & _).
  - intros s m' Hr. destruct (relative_path_refs _ _ _ _ _ _ Hr).
    pose proof (relative_path_frame _ _ _ _ _ _ Hr).
    split; [|done]. by apply (pristine_later m).
Qed.

(** *** Concrete files and paths *)

Lemma sha1_hex_abc :
  sha1_hex (bytes_of_string "abc")
  = "a9993e364706816aba3e25717850c26c9cd0d89d".
Proof. vm_compute. reflexivity. Qed.

Lemma sha1_hex_empty :
  sha1_hex [] = "da39a3ee5e6b4b0d3255bfef95601890afd80709".
Proof. vm_compute. reflexivity. Qed.

Lemma sha1_hex_two_blocks :
  sha1_hex
    (bytes_of_string
       "abcdbcdecdefdefgefghfghighijhijkijkljklmklmnlmnomnopnopq")
  = "84983e441c3bd26ebaae4aa1f95129e5e54670f1".
Proof. vm_compute. reflexivity. Qed.

Lemma hash_file_sha1_whole_file_witness :
  ({["a.txt" := bytes_of_string "abc"]} : gmap string (list byte)) !! "a.txt"
  = Some (bytes_of_string "abc")
  ∧ hash_file_sha1 5 1048576 {["a.txt" := bytes_of_string "abc"]} "a.txt" 2
    = Some (Ok (sha1_hex (bytes_of_string "abc"))).
Proof.
  assert (({["a.txt" := bytes_of_string "abc"]} : gmap string (list byte))
          !! "a.txt" = Some (bytes_of_string "abc")) as Hfs by reflexivity.
  split; [exact Hfs|].
  apply (hash_file_sha1_whole_file _ "a.txt" (bytes_of_string "abc")
           1048576 2 1 5 Hfs);
    [by vm_compute|by vm_compute|simpl; lia].
Defined.

(** A size that [read] refuses: at 2^63 the size does not fit the machine
    integer, [read] raises [OverflowError] and [hash_file_sha1] returns no
    digest, however much memory there is. *)
Lemma hash_file_sha1_size_too_large :
  hash_file_sha1 5 9223372036854775808
    {["a.txt" := bytes_of_string "abc"]} "a.txt" 9223372036854775808
  = Some (Raise OverflowError).
Proof. vm_compute. reflexivity. Qed.

Lemma default_accumulators_never_mutated_witness :
  pristine import_module
  ∧ ∃ v m1 m2,
      call_path_split 7 "/a/b/c" import_module = Some (v, m1)
      ∧ call_path_split_with 7 "/a/b/c" [] import_module = Some (v, m2)
      ∧ fst <$> call_path_split 7 "/a/b/c" m1 = Some v.
Proof.
  assert (pristine import_module) as Hm by (split; reflexivity).
  split; [exact Hm|].
  destruct (default_accumulators_never_mutated import_module 7
              "/a/b/c" "a" "b" ["a"; "b"] ["a"; "c"] Hm)
    as (v & m1 & m2 & _ & _ & [E1 E2] & _ & _ & _ & [E3 _] & _);
    [simpl; lia|simpl; lia|].
  exists v, m1, m2. exact (conj E1 (conj E2 E3)).
Defined.

End PathsFacts.

(** * More facts about the executor *)

Section BgThreadsMore.
Import BgThreads.

Lemma init_ok (mw : pyval) (e : JobExecutorEngine) :
  JobExecutorEngine_init mw = Ok e ->
  ∃ n, mw = PyInt n ∧ 0 < n ∧ e = fresh_engine n.
Proof.
  unfold JobExecutorEngine_init, ThreadPoolExecutor_init.
  destruct mw as [n|s]; [|done].
  destruct (n <=? 0) eqn:Hn; [done|]. apply Z.leb_gt in Hn.
  intros [= <-]. by exists n.
Qed.

(** What a call of a method of the singleton comes to: the method runs on
    the engine there is, or on the one just built, or the constructor
    raises. *)
Lemma with_exec_cases
    (f : JobExecutorEngine -> result bool * JobExecutorEngine)
    (m : module_state) :
  (∃ e, _job_executor m = Some e
        ∧ with_exec f m = (fst (f e), set_executor (snd (f e)) m))
  ∨ (∃ n, _job_executor m = None ∧ default_max_workers m = PyInt n ∧ 0 < n
          ∧ with_exec f m
            = (fst (f (fresh_engine n)),
               set_executor (snd (f (fresh_engine n))) m))
  ∨ (∃ x, _job_executor m = None ∧ (x = TypeError ∨ x = ValueError)
          ∧ JobExecutorEngine_init (default_max_workers m) = Raise x
          ∧ with_exec f m = (Raise x, m)).
Proof.
  destruct (_job_executor m) as [e|] eqn:He.
  { left. exists e. split; [done|]. unfold with_exec, _get_exec.
    rewrite He. by destruct (f e). }
  destruct (JobExecutorEngine_init (default_max_workers m)) as [e|x] eqn:Hi.
  - right; left. apply init_ok in Hi as Hi'. destruct Hi' as (n & Hn & Hpos & ->).
    exists n. repeat split; try done. unfold with_exec, _get_exec.
    rewrite He, Hi. by destruct (f (fresh_engine n)).
  - right; right. exists x. split; [done|].
    split; [by apply (init_raises _ _ Hi)|]. split; [done|].
    unfold with_exec, _get_exec. by rewrite He, Hi.
Qed.

(** ** No accepted job is lost *)

Lemma submit_job_jobs (c : call) (e : JobExecutorEngine) :
  pool_jobs (_executor (snd (submit_job c e)))
  = (pool_jobs (_executor e)
     + if ok_true (fst (submit_job c e)) then 1 else 0)%nat.
Proof.
  unfold submit_job, pool_submit, pool_jobs.
  destruct (shutdown_flag (_executor e)); simpl;
    rewrite ?length_app; simpl; lia.
Qed.

Lemma _submit_job_jobs (id : string) (k : style) (c : call)
    (e : JobExecutorEngine) :
  pool_jobs (_executor (snd (_submit_job id k c e)))
  = (pool_jobs (_executor e)
     + if ok_true (fst (_submit_job id k c e)) then 1 else 0)%nat.
Proof.
  unfold _submit_job, pool_submit, pool_jobs.
  destruct (decide (id ∈ _job_ids e)); simpl; [lia|].
  destruct (shutdown_flag (_executor e)); simpl;
    rewrite ?length_app; simpl; lia.
Qed.

Lemma shutdown_jobs (wait cancel : bool) (e : JobExecutorEngine) :
  pool_jobs (_executor (shutdown wait cancel e)) = pool_jobs (_executor e).
Proof.
  unfold shutdown, pool_shutdown, pool_jobs.
  destruct cancel; simpl; rewrite ?length_app; lia.
Qed.

Lemma worker_take_jobs (e e' : JobExecutorEngine) :
  worker_take e = Some e' -> pool_jobs (_executor e') = pool_jobs (_executor e).
Proof.
  unfold worker_take, pool_jobs.
  destruct (work_queue (_executor e)) as [|w q]; [done|].
  case_match; [|done]. intros [= <-]. simpl. rewrite length_app. simpl. lia.
Qed.

Lemma worker_advance_jobs (i : nat) (o : outcome) (e e' : JobExecutorEngine) :
  worker_advance i o e = Some e' ->
  pool_jobs (_executor e') = pool_jobs (_executor e).
Proof.
  unfold worker_advance, set_remove, pool_jobs.
  destruct (running (_executor e) !! i) as [t|] eqn:Hi; [|done].
  assert (length (delete i (running (_executor e)))
          = length (running (_executor e)) - 1)%nat as Hd
    by (apply length_delete; eauto).
  assert (0 < length (running (_executor e)))%nat as Hl
    by (apply lookup_lt_Some in Hi; lia).
  intros He'.
  destruct t as [c|id c|id c|id c|id c o'];
    repeat case_decide; injection He' as <-; simpl;
    rewrite ?length_insert, ?length_app, ?Hd; simpl; lia.
Qed.



Lemma jobs_known_none (m : module_state) :
  _job_executor m = None -> jobs_known m = 0%nat.
Proof. intros He. unfold jobs_known, pool. by rewrite He. Qed.





(** ** One step, seen from the engine

    A step leaves the state alone, or it is an operation of the engine
    there is, or of the engine that the step builds. *)

Section StepRelation.

Variable R : JobExecutorEngine -> JobExecutorEngine -> Prop.

Hypothesis R_submit_job : ∀ c e, R e (snd (submit_job c e)).
Hypothesis R__submit_job : ∀ id k c e, R e (snd (_submit_job id k c e)).
Hypothesis R_shutdown : ∀ wait cancel e, R e (shutdown wait cancel e).
Hypothesis R_worker_take : ∀ e e', worker_take e = Some e' -> R e e'.
Hypothesis R_worker_advance :
  ∀ i o e e', worker_advance i o e = Some e' -> R e e'.

Lemma with_exec_related
    (f : JobExecutorEngine -> result bool * JobExecutorEngine)
    (m : module_state) :
  (∀ e, R e (snd (f e))) ->
  snd (with_exec f m) = m
  ∨ (∃ e e', _job_executor m = Some e
             ∧ snd (with_exec f m) = set_executor e' m ∧ R e e')
  ∨ (∃ n e', _job_executor m = None ∧ default_max_workers m = PyInt n
             ∧ 0 < n ∧ snd (with_exec f m) = set_executor e' m
             ∧ R (fresh_engine n) e').
Proof.
  intros Hf.
  destruct (with_exec_cases f m)
    as [(e & He & ->) | [(n & He & Hn & Hpos & ->) | (x & He & Hx & _ & ->)]].
  - right; left. exists e, (snd (f e)). auto.
  - right; right. exists n, (snd (f (fresh_engine n))). auto 10.
  - by left.
Qed.

Lemma worker_step_related
    (f : JobExecutorEngine -> option JobExecutorEngine) (m : module_state) :
  (∀ e e', f e = Some e' -> R e e') ->
  snd (worker_step f m) = m
  ∨ (∃ e e', _job_executor m = Some e
             ∧ snd (worker_step f m) = set_executor e' m ∧ R e e').
Proof.
  intros Hf. unfold worker_step.
  destruct (_job_executor m) as [e|] eqn:He; [|by left].
  destruct (f e) as [e'|] eqn:Hfe; [|by left].
  right. exists e, e'. auto.
Qed.

Lemma step_related (a : action) (m : module_state) :
  snd (step a m) = m
  ∨ (∃ e e', _job_executor m = Some e
             ∧ snd (step a m) = set_executor e' m ∧ R e e')
  ∨ (∃ n e', _job_executor m = None ∧ default_max_workers m = PyInt n
             ∧ 0 < n ∧ snd (step a m) = set_executor e' m
             ∧ R (fresh_engine n) e').
Proof.
  destruct a as [c|id c|id c|w cp| |i o]; cbn [step].
  - pose proof (with_exec_related (submit_job c) m (R_submit_job c)) as H.
    unfold bg_run. by destruct (with_exec (submit_job c) m).
  - pose proof (with_exec_related _ m (R__submit_job id Pre c)) as H.
    unfold bg_run_unique_pre, submit_unique_job_pre.
    by destruct (with_exec (_submit_job id Pre c) m).
  - pose proof (with_exec_related _ m (R__submit_job id Post c)) as H.
    unfold bg_run_unique_post, submit_unique_job_post.
    by destruct (with_exec (_submit_job id Post c) m).
  - unfold bg_exec_shutdown.
    destruct (_job_executor m) as [e|] eqn:He; cbn [snd]; [|by left].
    right; left. exists e, (shutdown w cp e). auto.
  - destruct (worker_step_related worker_take m R_worker_take) as [H|H];
      auto.
  - destruct (worker_step_related (worker_advance i o) m
                (R_worker_advance i o)) as [H|H]; auto.
Qed.

End StepRelation.


Lemma futures_set (e : JobExecutorEngine) (m : module_state) :
  futures (set_executor e m) = finished (_executor e).
Proof. reflexivity. Qed.

Lemma futures_some (e : JobExecutorEngine) (m : module_state) :
  _job_executor m = Some e -> futures m = finished (_executor e).
Proof. intros He. unfold futures, pool. by rewrite He. Qed.

(** ** The wrappers never fail on their own *)

Lemma futures_grow_same (e e' : JobExecutorEngine) :
  finished (_executor e') = finished (_executor e) -> futures_grow e e'.
Proof. intros H _. exists []. by rewrite app_nil_r. Qed.

Lemma of_body_outcome (o : outcome) : of_body (outcome_result o).
Proof. destruct o; [by left|by right]. Qed.

Lemma worker_advance_futures (i : nat) (o : outcome)
    (e e' : JobExecutorEngine) :
  worker_advance i o e = Some e' -> futures_grow e e'.
Proof.
  unfold worker_advance, set_remove. intros Ha Hheld.
  destruct (running (_executor e) !! i) as [t|] eqn:Hi; [|done].
  specialize (Hheld i t).
  assert (∀ r, of_body r ->
            ∃ l, finished (_executor e) ++ [r] = finished (_executor e) ++ l
                 ∧ Forall of_body l) as Hone.
  { intros r Hr. exists [r]. split; [done|]. by constructor. }
  destruct t as [c|id c|id c|id c|id c o'].
  - injection Ha as <-. apply Hone, of_body_outcome.
  - rewrite decide_True in Ha by (apply Hheld; [done|by left]).
    injection Ha as <-. exists []. by rewrite app_nil_r.
  - injection Ha as <-. apply Hone, of_body_outcome.
  - injection Ha as <-. exists []. by rewrite app_nil_r.
  - rewrite decide_True in Ha by (apply Hheld; [done|by left]).
    injection Ha as <-. apply Hone, of_body_outcome.
Qed.

Lemma step_futures (a : action) (m : module_state) :
  held_once m -> futures_of_bodies m -> futures_of_bodies (snd (step a m)).
Proof.
  intros Hinv Hm.
  destruct (step_related futures_grow) with (a := a) (m := m)
    as [-> | [(e & e' & He & -> & HR) | (n & e' & He & _ & _ & -> & HR)]];
    try done.
  - intros c e. apply futures_grow_same.
    unfold submit_job, pool_submit. by destruct (shutdown_flag (_executor e)).
  - intros id k c e. apply futures_grow_same.
    unfold _submit_job, pool_submit.
    destruct (decide (id ∈ _job_ids e)); [done|].
    by destruct (shutdown_flag (_executor e)).
  - intros w cp e. by apply futures_grow_same.
  - intros e e' Ht. apply futures_grow_same. revert Ht. unfold worker_take.
    destruct (work_queue (_executor e)); [done|].
    case_match; [|done]. by intros [= <-].
  - apply worker_advance_futures.
  - destruct HR as (l & Hl & Hb).
    { intros i t id. by apply (task_reserved m e i t id). }
    unfold futures_of_bodies in *. rewrite futures_set, Hl.
    rewrite (futures_some e m He) in Hm. by apply Forall_app.
  - destruct HR as (l & Hl & Hb).
    { intros i t id. simpl. by rewrite lookup_nil. }
    unfold futures_of_bodies. by rewrite futures_set, Hl.
Qed.

Lemma run_futures (acts : list action) (m : module_state) :
  held_once m -> futures_of_bodies m -> futures_of_bodies (run acts m).
Proof.
  revert m. induction acts as [|a acts IH]; intros m Hinv Hm; simpl; [done|].
  apply IH; [by apply held_once_step|by apply step_futures].
Qed.

(** X2.  In every state that a run reaches, the future of every finished
    task holds what the job body did, its return or its failure: the
    [remove] of [_run_pre_job] and the one in the [finally] block of
    [_run_post_job] find their identifier in the set each time, so no
    wrapper ends with a [KeyError], and a failure of the body is never
    replaced by one. *)
Theorem wrappers_never_raise_KeyError (environ : gmap string string)
    (acts : list action) :
  futures_of_bodies (run acts (import_module environ))
  ∧ Raise KeyError ∉ futures (run acts (import_module environ)).
Proof.
  assert (futures_of_bodies (run acts (import_module environ))) as H.
  { apply run_futures; [apply held_once_import|]. by constructor. }
  split; [done|]. intros Hin.
  unfold futures_of_bodies in H. rewrite Forall_forall in H.
  by destruct (H _ Hin).
Qed.

(** ** A setting in the environment *)

Lemma step_without_engine (a : action) (m : module_state) (s : string) :
  default_max_workers m = PyStr s -> _job_executor m = None ->
  step a m = (answer_without_engine TypeError a, m).
Proof.
  intros Hd He.
  assert (∀ f, with_exec f m = (Raise TypeError, m)) as Hw.
  { intros f. unfold with_exec, _get_exec. rewrite He, Hd. reflexivity. }
  destruct a as [c|id c|id c|w cp| |i o]; cbn [step answer_without_engine].
  - unfold bg_run. by rewrite Hw.
  - unfold bg_run_unique_pre. by rewrite Hw.
  - unfold bg_run_unique_post. by rewrite Hw.
  - unfold bg_exec_shutdown. by rewrite He.
  - unfold worker_step. by rewrite He.
  - unfold worker_step. by rewrite He.
Qed.

Lemma run_without_engine (acts : list action) (m : module_state)
    (s : string) :
  default_max_workers m = PyStr s -> _job_executor m = None ->
  run acts m = m ∧ answers acts m = answer_without_engine TypeError <$> acts.
Proof.
  intros Hd He. induction acts as [|a acts [IHr IHa]]; [done|].
  cbn [run answers]. rewrite (step_without_engine a m s Hd He).
  cbn [fst snd]. rewrite IHr, IHa. done.
Qed.

Lemma accepted_without_engine (x : exn) (acts : list action) :
  accepted (answer_without_engine x <$> acts) = 0%nat.
Proof.
  induction acts as [|a acts IH]; [done|].
  rewrite fmap_cons. cbn [accepted]. rewrite IH. by destruct a.
Qed.

(** X3.  When [ENGINE_BACKGROUND_THREADS] is set, to digits as to any other
    text, [DEFAULT_BG_THREADS] is that text and the constructor of the pool
    raises [TypeError] on it each time: in every run every [bg_run],
    [bg_run_unique_pre] and [bg_run_unique_post] raises [TypeError], no
    engine is ever built and no job is ever accepted; [bg_exec_shutdown]
    still returns. *)
Theorem set_variable_disables_executor (environ : gmap string string)
    (s : string) (acts : list action) :
  environ !! "ENGINE_BACKGROUND_THREADS" = Some s ->
  run acts (import_module environ) = import_module environ
  ∧ _job_executor (run acts (import_module environ)) = None
  ∧ answers acts (import_module environ)
    = answer_without_engine TypeError <$> acts
  ∧ accepted (answers acts (import_module environ)) = 0%nat.
Proof.
  intros Hs.
  assert (default_max_workers (import_module environ) = PyStr s) as Hd.
  { simpl. unfold DEFAULT_BG_THREADS, os_getenv. by rewrite Hs. }
  destruct (run_without_engine acts (import_module environ) s Hd eq_refl)
    as [Hr Ha].
  rewrite Hr, Ha. repeat split. apply accepted_without_engine.
Qed.

Lemma set_variable_disables_executor_witness :
  answers [Bg_run (Call "f" []); Bg_run_unique_post "x" (Call "f" []);
           Worker_take; Bg_exec_shutdown false true]
    (import_module {["ENGINE_BACKGROUND_THREADS" := "8"]})
  = [Submitted (Raise TypeError); Submitted (Raise TypeError); Worker false;
     Shut (Ok tt)].
Proof.
  assert (({["ENGINE_BACKGROUND_THREADS" := "8"]} : gmap string string)
            !! "ENGINE_BACKGROUND_THREADS" = Some "8") as H
    by (vm_compute; reflexivity).
  exact (proj1 (proj2 (proj2
    (set_variable_disables_executor _ "8"
       [Bg_run (Call "f" []); Bg_run_unique_post "x" (Call "f" []);
        Worker_take; Bg_exec_shutdown false true] H)))).
Defined.

(** ** What each operation leaves alone *)

Lemma submit_job_pool (c : call) (e : JobExecutorEngine) :
  let e' := snd (submit_job c e) in
  running (_executor e') = running (_executor e)
  ∧ cancelled (_executor e') = cancelled (_executor e)
  ∧ shutdown_flag (_executor e') = shutdown_flag (_executor e)
  ∧ _job_ids e' = _job_ids e
  ∧ work_queue (_executor e')
    = work_queue (_executor e)
      ++ (if shutdown_flag (_executor e) then [] else [WPlain c])
  ∧ fst (submit_job c e)
    = (if shutdown_flag (_executor e) then Raise RuntimeError else Ok true).
Proof.
  unfold submit_job, pool_submit.
  destruct (shutdown_flag (_executor e)) eqn:Hs; simpl;
    rewrite ?app_nil_r; auto 10.
Qed.

Lemma _submit_job_pool (id : string) (k : style) (c : call)
    (e : JobExecutorEngine) :
  let e' := snd (_submit_job id k c e) in
  running (_executor e') = running (_executor e)
  ∧ cancelled (_executor e') = cancelled (_executor e)
  ∧ shutdown_flag (_executor e') = shutdown_flag (_executor e)
  ∧ work_queue (_executor e')
    = work_queue (_executor e)
      ++ (if ok_true (fst (_submit_job id k c e)) then [WUnique k id c]
          else []).
Proof.
  unfold _submit_job, pool_submit.
  destruct (decide (id ∈ _job_ids e)); simpl; rewrite ?app_nil_r; [done|].
  destruct (shutdown_flag (_executor e)) eqn:Hs; simpl;
    rewrite ?app_nil_r; auto.
Qed.

Lemma worker_take_pool (e e' : JobExecutorEngine) :
  worker_take e = Some e' ->
  ∃ w, work_queue (_executor e) = w :: work_queue (_executor e')
       ∧ running (_executor e') = running (_executor e) ++ [start_item w]
       ∧ cancelled (_executor e') = cancelled (_executor e)
       ∧ shutdown_flag (_executor e') = shutdown_flag (_executor e)
       ∧ _job_ids e' = _job_ids e.
Proof.
  unfold worker_take.
  destruct (work_queue (_executor e)) as [|w q]; [done|].
  case_match; [|done]. intros [= <-]. by exists w.
Qed.

Lemma worker_advance_pool (i : nat) (o : outcome)
    (e e' : JobExecutorEngine) :
  worker_advance i o e = Some e' ->
  work_queue (_executor e') = work_queue (_executor e)
  ∧ cancelled (_executor e') = cancelled (_executor e)
  ∧ shutdown_flag (_executor e') = shutdown_flag (_executor e)
  ∧ (length (running (_executor e')) <= length (running (_executor e)))%nat.
Proof.
  unfold worker_advance, set_remove.
  destruct (running (_executor e) !! i) as [t|] eqn:Hi; [|done].
  assert (length (delete i (running (_executor e)))
          <= length (running (_executor e)))%nat as Hd.
  { rewrite length_delete by eauto. lia. }
  intros He'.
  destruct t as [c|id c|id c|id c|id c o'];
    repeat case_decide; injection He' as <-; simpl;
    rewrite ?length_insert; auto.
Qed.

Lemma waiting_set (e : JobExecutorEngine) (m : module_state) :
  waiting (set_executor e m) = work_queue (_executor e).
Proof. reflexivity. Qed.

Lemma waiting_some (e : JobExecutorEngine) (m : module_state) :
  _job_executor m = Some e -> waiting m = work_queue (_executor e).
Proof. intros He. unfold waiting, pool. by rewrite He. Qed.

Lemma tasks_set (e : JobExecutorEngine) (m : module_state) :
  tasks (set_executor e m) = running (_executor e).
Proof. reflexivity. Qed.

Lemma tasks_of_some (e : JobExecutorEngine) (m : module_state) :
  _job_executor m = Some e -> tasks m = running (_executor e).
Proof. intros He. unfold tasks, pool. by rewrite He. Qed.

Lemma cancelled_set (e : JobExecutorEngine) (m : module_state) :
  cancelled_items (set_executor e m) = cancelled (_executor e).
Proof. reflexivity. Qed.

Lemma cancelled_some (e : JobExecutorEngine) (m : module_state) :
  _job_executor m = Some e -> cancelled_items m = cancelled (_executor e).
Proof. intros He. unfold cancelled_items, pool. by rewrite He. Qed.



(** ** Cancelled jobs *)






(** ** After the shutdown *)




(** ** Cancelling what is pending *)





(** ** Submissions to an open pool *)

Lemma reserved_set (e : JobExecutorEngine) (m : module_state) :
  reserved (set_executor e m) = _job_ids e.
Proof. reflexivity. Qed.

Lemma usable_set (e : JobExecutorEngine) (m : module_state) :
  shutdown_flag (_executor e) = false -> usable (set_executor e m).
Proof. intros Hf. split; [done|]. left. by eexists. Qed.

(** In a usable state a method of the singleton runs on an engine whose
    pool is open: the one there is, or the one just built. *)
Lemma with_exec_usable
    (f : JobExecutorEngine -> result bool * JobExecutorEngine)
    (m : module_state) :
  usable m ->
  ∃ e, shutdown_flag (_executor e) = false
       ∧ with_exec f m = (fst (f e), set_executor (snd (f e)) m)
       ∧ reserved m = _job_ids e
       ∧ waiting m = work_queue (_executor e)
       ∧ tasks m = running (_executor e)
       ∧ cancelled_items m = cancelled (_executor e).
Proof.
  intros [Hs Hu].
  destruct (with_exec_cases f m)
    as [(e & He & Hw) | [(n & He & Hn & Hpos & Hw) | (x & He & _ & Hi & _)]].
  - exists e. unfold is_shut_down in Hs. rewrite He in Hs.
    rewrite (waiting_some e m He), (tasks_of_some e m He),
      (cancelled_some e m He).
    unfold reserved. rewrite He. done.
  - exists (fresh_engine n). unfold reserved, waiting, tasks, cancelled_items,
      pool. rewrite He. done.
  - destruct Hu as [[e He']|(n & Hn & Hpos)]; [by rewrite He in He'|].
    rewrite Hn in Hi. unfold JobExecutorEngine_init, ThreadPoolExecutor_init
      in Hi.
    destruct (n <=? 0) eqn:Hle; [apply Z.leb_le in Hle; lia|done].
Qed.

Lemma worker_step_usable
    (f : JobExecutorEngine -> option JobExecutorEngine) (m : module_state) :
  (∀ e e', f e = Some e' ->
           shutdown_flag (_executor e') = shutdown_flag (_executor e)) ->
  usable m -> usable (snd (worker_step f m)).
Proof.
  intros Hf Hu. unfold worker_step.
  destruct (_job_executor m) as [e|] eqn:He; [|done].
  destruct (f e) as [e'|] eqn:Hfe; [|done].
  apply usable_set. rewrite (Hf e e' Hfe).
  destruct Hu as [Hs _]. unfold is_shut_down in Hs. by rewrite He in Hs.
Qed.

Lemma union_present (id : string) (I : gset string) :
  id ∈ I -> {[id]} ∪ I = I.
Proof.
  intros Hin. apply set_eq. intros x.
  rewrite elem_of_union, elem_of_singleton. split; [|auto].
  by intros [->|].
Qed.

Lemma keyed_open (id : string) (k : style) (c : call) (m : module_state) :
  usable m ->
  let m' := snd (with_exec (_submit_job id k c) m) in
  usable m'
  ∧ fst (with_exec (_submit_job id k c) m)
    = Ok (bool_decide (id ∉ reserved m))
  ∧ reserved m' = {[id]} ∪ reserved m
  ∧ waiting m'
    = waiting m ++ (if decide (id ∈ reserved m) then [] else [WUnique k id c])
  ∧ tasks m' = tasks m
  ∧ cancelled_items m' = cancelled_items m.
Proof.
  intros Hu.
  destruct (with_exec_usable (_submit_job id k c) m Hu)
    as (e & Hf & -> & -> & -> & -> & ->).
  cbn [fst snd]. rewrite reserved_set, waiting_set, tasks_set, cancelled_set.
  unfold _submit_job, pool_submit.
  destruct (decide (id ∈ _job_ids e)) as [Hin|Hin].
  - cbn [fst snd]. rewrite app_nil_r, bool_decide_false by auto.
    split; [by apply usable_set|]. by rewrite union_present.
  - rewrite Hf. cbn [fst snd]. rewrite bool_decide_true by done.
    split; [by apply usable_set|]. done.
Qed.

Lemma step_open (a : action) (m : module_state) :
  is_shutdown_call a = false -> usable m ->
  usable (snd (step a m)) ∧ answered_open a (fst (step a m))
  ∧ cancelled_items (snd (step a m)) = cancelled_items m.
Proof.
  intros Ha Hu.
  assert (∀ id k c,
    let r := with_exec (_submit_job id k c) m in
    usable (snd (let (r0, m') := r in (Submitted r0, m')))
    ∧ (fst (let (r0, m') := r in (Submitted r0, m')) = Submitted (Ok true)
       ∨ fst (let (r0, m') := r in (Submitted r0, m'))
         = Submitted (Ok false))
    ∧ cancelled_items (snd (let (r0, m') := r in (Submitted r0, m')))
      = cancelled_items m) as Hk.
  { intros id k c.
    destruct (keyed_open id k c m Hu) as (Hu' & Hr & _ & _ & _ & Hc).
    cbn zeta. destruct (with_exec (_submit_job id k c) m) as [r m'].
    cbn [fst snd] in *. subst r. split; [done|]. split; [|done].
    destruct (bool_decide (id ∉ reserved m)); auto. }
  destruct a as [c|id c|id c|w cp| |i o]; try done; cbn [step answered_open].
  - unfold bg_run.
    destruct (with_exec_usable (submit_job c) m Hu)
      as (e & Hf & -> & _ & _ & _ & Hc).
    destruct (submit_job_pool c e) as (_ & Hc' & Hf' & _ & _ & Hr).
    cbn [fst snd]. rewrite Hr, Hf, cancelled_set, Hc', Hc.
    split; [|done]. apply usable_set. by rewrite Hf'.
  - apply (Hk id Pre c).
  - apply (Hk id Post c).
  - split; [|split; [done|]].
    + apply worker_step_usable; [|done].
      by intros e e' (w' & _ & _ & _ & -> & _)%worker_take_pool.
    + unfold worker_step. destruct (_job_executor m) as [e|] eqn:He; [|done].
      destruct (worker_take e) as [e'|] eqn:Ht; [|done].
      apply worker_take_pool in Ht as (w' & _ & _ & Hc & _).
      cbn [snd]. by rewrite cancelled_set, (cancelled_some e m He).
  - split; [|split; [done|]].
    + apply worker_step_usable; [|done].
      by intros e e' (_ & _ & -> & _)%worker_advance_pool.
    + unfold worker_step. destruct (_job_executor m) as [e|] eqn:He; [|done].
      destruct (worker_advance i o e) as [e'|] eqn:Ht; [|done].
      apply worker_advance_pool in Ht as (_ & Hc & _).
      cbn [snd]. by rewrite cancelled_set, (cancelled_some e m He).
Qed.

Lemma run_open (acts : list action) (m : module_state) :
  Forall (fun a => is_shutdown_call a = false) acts -> usable m ->
  usable (run acts m) ∧ Forall2 answered_open acts (answers acts m)
  ∧ cancelled_items (run acts m) = cancelled_items m.
Proof.
  intros Hacts. revert m.
  induction Hacts as [|a acts Ha Hacts IH]; intros m Hu.
  { split; [done|]. split; [constructor|done]. }
  destruct (step_open a m Ha Hu) as (Hu' & Hr & Hc).
  destruct (IH _ Hu') as (I1 & I2 & I3).
  cbn [run answers]. split; [done|]. split; [by constructor|].
  by rewrite I3.
Qed.

(** X7.  As long as nobody calls [bg_exec_shutdown], submissions never
    raise and unkeyed ones are never turned away: from a state in which the
    pool is open (or not built yet, with a positive default size), in every
    interleaving of submissions and worker steps, each [bg_run] returns
    [True] and each keyed submission returns [True] or [False]; the pool is
    still open afterwards and nothing was cancelled. *)
Theorem open_pool_never_raises (m : module_state) (acts : list action) :
  usable m -> Forall (fun a => is_shutdown_call a = false) acts ->
  Forall2 answered_open acts (answers acts m)
  ∧ usable (run acts m)
  ∧ cancelled_items (run acts m) = cancelled_items m.
Proof.
  intros Hu Hacts. destruct (run_open acts m Hacts Hu) as (H1 & H2 & H3).
  done.
Qed.

Lemma usable_import (environ : gmap string string) :
  environ !! "ENGINE_BACKGROUND_THREADS" = None ->
  usable (import_module environ).
Proof.
  intros Hu. split; [done|]. right. exists 4. split; [|lia].
  simpl. unfold DEFAULT_BG_THREADS, os_getenv. by rewrite Hu.
Qed.

Lemma open_pool_never_raises_witness :
  let acts := [Bg_run (Call "f" []); Bg_run_unique_post "x" (Call "f" []);
               Bg_run (Call "f" []); Worker_take;
               Bg_run_unique_post "x" (Call "f" []); Bg_run (Call "f" [])] in
  Forall2 answered_open acts (answers acts (import_module ∅))
  ∧ usable (run acts (import_module ∅))
  ∧ cancelled_items (run acts (import_module ∅))
    = cancelled_items (import_module ∅).
Proof.
  apply (open_pool_never_raises (import_module ∅)).
  - apply usable_import. reflexivity.
  - repeat constructor.
Defined.

(** ** A burst of keyed submissions *)








(** ** Lists of holders *)

Lemma elem_of_flat_map_lookup {A : Type} (f : A -> list string)
    (l : list A) (i : nat) (x : A) (id : string) :
  l !! i = Some x -> id ∈ f x -> id ∈ flat_map f l.
Proof.
  intros Hi Hid. apply list_elem_of_In, in_flat_map. exists x.
  split; [|by apply list_elem_of_In].
  apply list_elem_of_In. by apply (list_elem_of_lookup_2 l i).
Qed.

Lemma NoDup_flat_map_lookup {A : Type} (f : A -> list string)
    (l : list A) (i j : nat) (x y : A) (id : string) :
  NoDup (flat_map f l) -> l !! i = Some x -> l !! j = Some y ->
  id ∈ f x -> id ∈ f y -> i = j.
Proof.
  revert i j. induction l as [|a l IH]; intros i j Hnd Hi Hj Hx Hy.
  { by rewrite lookup_nil in Hi. }
  simpl in Hnd. apply NoDup_app in Hnd as (_ & Hdis & Hnd).
  destruct i as [|i], j as [|j]; simpl in Hi, Hj.
  - done.
  - injection Hi as ->. destruct (Hdis id Hx).
    by apply (elem_of_flat_map_lookup f l j y).
  - injection Hj as ->. destruct (Hdis id Hy).
    by apply (elem_of_flat_map_lookup f l i x).
  - f_equal. by apply IH.
Qed.


(** ** The steps that the workers have left *)

Lemma task_steps_pos (t : task) : (0 < task_steps t)%nat.
Proof. destruct t; simpl; lia. Qed.

Lemma pool_steps_zero (p : ThreadPoolExecutor) :
  pool_steps p = 0%nat -> running p = [] ∧ work_queue p = [].
Proof.
  unfold pool_steps. intros H.
  destruct (running p) as [|t r].
  - destruct (work_queue p) as [|w q]; [done|]. simpl in H.
    unfold item_steps in H. lia.
  - simpl in H. pose proof (task_steps_pos t). lia.
Qed.

(** A worker that takes a job, the first task that moves on: each uses up
    one of the steps that are left, or more. *)
Lemma worker_take_steps (e : JobExecutorEngine) :
  running (_executor e) = [] -> work_queue (_executor e) ≠ [] ->
  0 < max_workers (_executor e) ->
  ∃ e', worker_take e = Some e'
        ∧ (pool_steps (_executor e') < pool_steps (_executor e))%nat
        ∧ max_workers (_executor e') = max_workers (_executor e).
Proof.
  intros Hr Hq Hn. unfold worker_take, pool_steps. rewrite Hr.
  destruct (work_queue (_executor e)) as [|w q]; [done|].
  simpl length. replace (Z.of_nat 0 <? max_workers (_executor e)) with true
    by (symmetry; apply Z.ltb_lt; lia).
  eexists. split; [done|]. simpl. unfold item_steps, fmap.
  split; [lia|done].
Qed.

Lemma worker_advance_steps (o : outcome) (e : JobExecutorEngine) :
  running (_executor e) ≠ [] ->
  ∃ e', worker_advance 0 o e = Some e'
        ∧ (pool_steps (_executor e') < pool_steps (_executor e))%nat
        ∧ max_workers (_executor e') = max_workers (_executor e).
Proof.
  intros Hr. unfold worker_advance, set_remove, pool_steps.
  destruct (running (_executor e)) as [|t r] eqn:Ht; [done|].
  assert ((t :: r) !! 0%nat = Some t) as -> by done.
  destruct t as [c|id c|id c|id c|id c o'];
    repeat case_decide; eexists; (split; [done|]);
    unfold task_finish, task_continue; simpl; rewrite ?Ht; simpl;
    unfold fmap; (split; [lia|done]).
Qed.

(** ** Callers that overlap *)

Lemma wrun_app (evs evs' : list event) (w : world) :
  wrun (evs ++ evs') w = wrun evs' (wrun evs w).
Proof.
  revert w. induction evs as [|ev evs IH]; intros w; simpl; [done|].
  by rewrite IH.
Qed.

Lemma omap_insert {A B : Type} (g : A -> option B) (l : list A) (t : nat)
    (f f' : A) :
  l !! t = Some f -> g f = None ->
  omap g (<[t := f']> l) ≡ₚ option_list (g f') ++ omap g l.
Proof.
  intros Ht Hf.
  rewrite insert_take_drop by (by apply lookup_lt_Some in Ht).
  rewrite <- (take_drop_middle l t f Ht) at 3.
  rewrite !omap_app. simpl. rewrite Hf.
  destruct (g f') as [x|]; simpl; [|done].
  by rewrite <- Permutation_middle.
Qed.

Lemma completed_add_frame (r : nat) (f : frame) (w : world) :
  frame_entry r f = None -> completed r (add_frame f w) = completed r w.
Proof.
  intros Hf. unfold completed. simpl. rewrite omap_app. simpl.
  by rewrite Hf, app_nil_r.
Qed.

Lemma completed_set_frame (r t : nat) (f f' : frame) (w : world) :
  calls w !! t = Some f -> frame_entry r f = None ->
  completed r (set_frame t f' w)
  ≡ₚ option_list (frame_entry r f') ++ completed r w.
Proof. intros Ht Hf. by apply omap_insert with f. Qed.

(** *** The references stay good *)

Lemma well_formed_add_frame (f : frame) (w : world) :
  frame_engine f = None -> reads_global f = false ->
  well_formed w -> well_formed (add_frame f w).
Proof.
  intros Hf Hg (Hglobal & Hcalls & Hreads).
  split; [done|]. split.
  - intros t f0 r [Ht | [_ Ht]]%lookup_app_Some Hr; [by eapply Hcalls|].
    apply list_lookup_singleton_Some in Ht as [_ <-]. by rewrite Hf in Hr.
  - intros t f0 [Ht | [_ Ht]]%lookup_app_Some Hr; [by eapply Hreads|].
    apply list_lookup_singleton_Some in Ht as [_ <-]. by rewrite Hg in Hr.
Qed.

Lemma well_formed_set_frame (t : nat) (f' : frame) (w : world) :
  (∀ r, frame_engine f' = Some r -> (r < length (engines w))%nat) ->
  (reads_global f' = true -> is_Some (global_ref w)) ->
  well_formed w -> well_formed (set_frame t f' w).
Proof.
  intros Hf Hg (Hglobal & Hcalls & Hreads).
  split; [done|]. split.
  - intros t0 f0 r Ht Hr. simpl in *.
    apply list_lookup_insert_Some in Ht as [(-> & <- & _) | [_ Ht]];
      [by apply Hf | by eapply Hcalls].
  - intros t0 f0 Ht Hr. simpl in *.
    apply list_lookup_insert_Some in Ht as [(-> & <- & _) | [_ Ht]];
      [by apply Hg | by eapply Hreads].
Qed.

Lemma well_formed_add_engine (e : JobExecutorEngine) (w : world) :
  well_formed w -> well_formed (add_engine e w).
Proof.
  intros (Hglobal & Hcalls & Hreads).
  split; [|split]; simpl; try done.
  - intros r Hr. rewrite length_app. apply Hglobal in Hr. simpl. lia.
  - intros t f r Ht Hr. rewrite length_app.
    pose proof (Hcalls t f r Ht Hr). simpl. lia.
Qed.

Lemma well_formed_set_engine (r : nat) (e : JobExecutorEngine) (w : world) :
  well_formed w -> well_formed (set_engine r e w).
Proof.
  intros (Hglobal & Hcalls & Hreads).
  split; [|split]; simpl; try done.
  - intros r0 Hr. rewrite length_insert. by apply Hglobal.
  - intros t f r0 Ht Hr. rewrite length_insert. by eapply Hcalls.
Qed.

Lemma well_formed_set_global (r : nat) (w : world) :
  (r < length (engines w))%nat -> well_formed w ->
  well_formed (set_global r w).
Proof.
  intros Hr (Hglobal & Hcalls & Hreads).
  split; [|split]; simpl; try done. by intros r0 [= <-].
Qed.

Lemma well_formed_frame_step (t : nat) (f : frame) (w : world) :
  calls w !! t = Some f -> well_formed w -> well_formed (frame_step t f w).
Proof.
  intros Ht Hw. pose proof Hw as (Hglobal & Hcalls & Hreads).
  destruct f as [s|s|s r|s|s r|s r a|wt cp|wt cp|wt cp r|wt cp r a]; simpl.
  - destruct (global_ref w) as [g|] eqn:Hg;
      apply well_formed_set_frame; try done.
  - destruct (JobExecutorEngine_init (init_default w)) as [e|x].
    + apply well_formed_set_frame; [|done|by apply well_formed_add_engine].
      intros r [= <-]. simpl. rewrite length_app. simpl. lia.
    + by apply well_formed_set_frame.
  - apply well_formed_set_frame; [done|by eexists|].
    apply well_formed_set_global; [|done]. by eapply Hcalls.
  - destruct (global_ref w) as [g|] eqn:Hg;
      apply well_formed_set_frame; try done;
      try (intros r [= <-]; by apply Hglobal).
  - destruct (engines w !! r) as [e|] eqn:He; [|done].
    apply well_formed_set_frame; [|done|by apply well_formed_set_engine].
    intros r0 [= <-]. simpl. rewrite length_insert.
    by apply lookup_lt_Some in He.
  - done.
  - destruct (global_ref w) as [g|] eqn:Hg;
      apply well_formed_set_frame; try done.
  - destruct (global_ref w) as [g|] eqn:Hg;
      apply well_formed_set_frame; try done;
      try (intros r [= <-]; by apply Hglobal).
  - destruct (engines w !! r) as [e|] eqn:He; [|done].
    apply well_formed_set_frame; [|done|by apply well_formed_set_engine].
    intros r0 [= <-]. simpl. rewrite length_insert.
    by apply lookup_lt_Some in He.
  - done.
Qed.

Lemma well_formed_engine_step
    (f : JobExecutorEngine -> option JobExecutorEngine) (r : nat)
    (w : world) :
  well_formed w -> well_formed (engine_step f r w).
Proof.
  intros Hw. unfold engine_step.
  destruct (engines w !! r) as [e|]; [|done].
  destruct (f e); [|done]. by apply well_formed_set_engine.
Qed.

Lemma well_formed_wstep (ev : event) (w : world) :
  well_formed w -> well_formed (wstep ev w).
Proof.
  intros Hw. destruct ev as [s|wt cp|t|r|r i o]; simpl.
  - by apply well_formed_add_frame.
  - by apply well_formed_add_frame.
  - destruct (calls w !! t) as [f|] eqn:Ht; [|done].
    by apply well_formed_frame_step.
  - by apply well_formed_engine_step.
  - by apply well_formed_engine_step.
Qed.

Lemma well_formed_boot (environ : gmap string string) :
  well_formed (boot environ).
Proof. split; [done|]. split; simpl; intros t f; by rewrite lookup_nil. Qed.

Lemma well_formed_wrun (evs : list event) (w : world) :
  well_formed w -> well_formed (wrun evs w).
Proof.
  revert w. induction evs as [|ev evs IH]; intros w Hw; simpl; [done|].
  by apply IH, well_formed_wstep.
Qed.

(** *** Every engine has a life of its own *)

Lemma omap_none {A B : Type} (g : A -> option B) (l : list A) :
  (∀ i x, l !! i = Some x -> g x = None) -> omap g l = [].
Proof.
  induction l as [|a l IH]; intros H; [done|]. simpl.
  rewrite (H 0%nat a eq_refl). apply IH. intros i x Hi.
  by apply (H (S i)).
Qed.

Lemma frame_entry_engine (r : nat) (f : frame) (x : entry) :
  frame_entry r f = Some x -> frame_engine f = Some r.
Proof.
  destruct f as [| | | | |s [r'|] a| | | |wt cp [r'|] a]; simpl; try done;
    by case_decide; subst.
Qed.

Lemma completed_fresh (r : nat) (w : world) :
  well_formed w -> (length (engines w) <= r)%nat -> completed r w = [].
Proof.
  intros (_ & Hcalls & _) Hr. apply omap_none. intros t f Ht.
  destruct (frame_entry r f) as [x|] eqn:Hf; [|done].
  apply frame_entry_engine in Hf. pose proof (Hcalls t f r Ht Hf). lia.
Qed.

Lemma histories_same (w w' : world) :
  init_default w' = init_default w -> engines w' = engines w ->
  (∀ r, completed r w' ≡ₚ completed r w) ->
  histories w -> histories w'.
Proof.
  intros Hd He Hc Hw r e Hr. rewrite He in Hr.
  destruct (Hw r e Hr) as (l & Hl & Hp).
  exists l. rewrite Hd, Hc. by split.
Qed.

Lemma histories_set_frame (t : nat) (f f' : frame) (w : world) :
  calls w !! t = Some f ->
  (∀ r, frame_entry r f = None) -> (∀ r, frame_entry r f' = None) ->
  histories w -> histories (set_frame t f' w).
Proof.
  intros Ht Hf Hf'. apply histories_same; try done.
  intros r. by rewrite (completed_set_frame r t f f' w Ht (Hf r)), Hf'.
Qed.

Lemma histories_set_engine (t r : nat) (f f' : frame) (x : entry)
    (e e' : JobExecutorEngine) (w : world) :
  calls w !! t = Some f -> (∀ r0, frame_entry r0 f = None) ->
  frame_entry r f' = Some x -> (∀ r0, r0 ≠ r -> frame_entry r0 f' = None) ->
  engines w !! r = Some e ->
  (∀ l, engine_reach (init_default w) l e ->
        engine_reach (init_default w) (x :: l) e') ->
  histories w -> histories (set_frame t f' (set_engine r e' w)).
Proof.
  intros Ht Hf Hx Hne He Hreach Hw r0 e0 Hr0. simpl in Hr0.
  assert (∀ r1, completed r1 (set_frame t f' (set_engine r e' w))
                ≡ₚ option_list (frame_entry r1 f') ++ completed r1 w) as Hc.
  { intros r1. by apply (completed_set_frame r1 t f f' (set_engine r e' w)). }
  destruct (decide (r0 = r)) as [->|Hr].
  - rewrite list_lookup_insert_eq in Hr0 by (by apply lookup_lt_Some in He).
    injection Hr0 as <-.
    destruct (Hw r e He) as (l & Hl & Hp).
    exists (x :: l). split; [by apply Hreach|].
    rewrite Hc, Hx. simpl. by rewrite Hp.
  - rewrite list_lookup_insert_ne in Hr0 by done.
    destruct (Hw r0 e0 Hr0) as (l & Hl & Hp).
    exists l. split; [done|]. by rewrite Hc, (Hne r0 Hr).
Qed.

Lemma histories_frame_step (t : nat) (f : frame) (w : world) :
  calls w !! t = Some f -> well_formed w -> histories w ->
  histories (frame_step t f w).
Proof.
  intros Ht Hwf Hw.
  destruct f as [s|s|s r|s|s r|s r a|wt cp|wt cp|wt cp r|wt cp r a]; simpl;
    try done.
  - destruct (global_ref w); by apply (histories_set_frame t _ _ w Ht).
  - destruct (JobExecutorEngine_init (init_default w)) as [e|x] eqn:Hi;
      [|by apply (histories_set_frame t _ _ w Ht)].
    intros r0 e0 Hr0. simpl in Hr0.
    assert (completed r0
              (set_frame t (Get_exec_assign s (length (engines w)))
                 (add_engine e w)) ≡ₚ completed r0 w) as Hc.
    { by rewrite (completed_set_frame r0 t _ _ (add_engine e w) Ht eq_refl). }
    apply lookup_app_Some in Hr0 as [Hr0 | [Hlen Hr0]].
    + destruct (Hw r0 e0 Hr0) as (l & Hl & Hp).
      exists l. split; [done|]. by rewrite Hc.
    + apply list_lookup_singleton_Some in Hr0 as [_ <-].
      exists []. split; [by apply Reach_init|].
      by rewrite Hc, (completed_fresh r0 w Hwf Hlen).
  - apply (histories_set_frame t _ _ (set_global r w) Ht); try done.
  - destruct (global_ref w); by apply (histories_set_frame t _ _ w Ht).
  - destruct (engines w !! r) as [e|] eqn:He; [|done].
    apply (histories_set_engine t r _ _ (Answered s (fst (engine_method s e)))
             e _ w Ht); try done.
    + simpl. by rewrite decide_True.
    + intros r0 Hr0. simpl. by rewrite decide_False.
    + intros l Hl. by apply Reach_method.
  - destruct (global_ref w); by apply (histories_set_frame t _ _ w Ht).
  - destruct (global_ref w); by apply (histories_set_frame t _ _ w Ht).
  - destruct (engines w !! r) as [e|] eqn:He; [|done].
    apply (histories_set_engine t r _ _ (Shut_down wt cp) e _ w Ht);
      try done.
    + simpl. by rewrite decide_True.
    + intros r0 Hr0. simpl. by rewrite decide_False.
    + intros l Hl. by apply Reach_shutdown.
Qed.

Lemma histories_engine_step
    (f : JobExecutorEngine -> option JobExecutorEngine) (r : nat)
    (w : world) :
  (∀ l e e', engine_reach (init_default w) l e -> f e = Some e' ->
             engine_reach (init_default w) l e') ->
  histories w -> histories (engine_step f r w).
Proof.
  intros Hf Hw. unfold engine_step.
  destruct (engines w !! r) as [e|] eqn:He; [|done].
  destruct (f e) as [e'|] eqn:Hfe; [|done].
  intros r0 e0 Hr0. simpl in Hr0.
  destruct (decide (r0 = r)) as [->|Hr].
  - rewrite list_lookup_insert_eq in Hr0 by (by apply lookup_lt_Some in He).
    injection Hr0 as <-.
    destruct (Hw r e He) as (l & Hl & Hp).
    exists l. split; [by eapply Hf|done].
  - rewrite list_lookup_insert_ne in Hr0 by done. by apply Hw.
Qed.

Lemma histories_wstep (ev : event) (w : world) :
  well_formed w -> histories w -> histories (wstep ev w).
Proof.
  intros Hwf Hw. destruct ev as [s|wt cp|t|r|r i o]; simpl.
  - apply (histories_same w); try done.
    intros r. by rewrite completed_add_frame.
  - apply (histories_same w); try done.
    intros r. by rewrite completed_add_frame.
  - destruct (calls w !! t) as [f|] eqn:Ht; [|done].
    by apply histories_frame_step.
  - apply histories_engine_step; [|done].
    intros l e e' Hl He. by apply (Reach_take _ l e).
  - apply histories_engine_step; [|done].
    intros l e e' Hl He. by apply (Reach_advance _ i o l e).
Qed.

Lemma init_default_wstep (ev : event) (w : world) :
  init_default (wstep ev w) = init_default w.
Proof.
  destruct ev as [s|wt cp|t|r|r i o]; simpl; try done.
  - destruct (calls w !! t) as [f|]; [|done].
    destruct f; simpl; try done; repeat case_match; done.
  - unfold engine_step. by repeat case_match.
  - unfold engine_step. by repeat case_match.
Qed.

Lemma init_default_wrun (evs : list event) (w : world) :
  init_default (wrun evs w) = init_default w.
Proof.
  revert w. induction evs as [|ev evs IH]; intros w; simpl; [done|].
  by rewrite IH, init_default_wstep.
Qed.

Lemma histories_wrun (evs : list event) (w : world) :
  well_formed w -> histories w -> histories (wrun evs w).
Proof.
  revert w. induction evs as [|ev evs IH]; intros w Hwf Hw; simpl; [done|].
  apply IH; [by apply well_formed_wstep | by apply histories_wstep].
Qed.

(** The engines of a world that overlapping callers reach: each is what
    the completed calls on it and its workers made of a new engine. *)
Lemma engine_history (environ : gmap string string) (evs : list event)
    (r : nat) (e : JobExecutorEngine) :
  engines (wrun evs (boot environ)) !! r = Some e ->
  ∃ l, engine_reach (DEFAULT_BG_THREADS environ) l e
       ∧ l ≡ₚ completed r (wrun evs (boot environ)).
Proof.
  intros He.
  destruct (histories_wrun evs (boot environ) (well_formed_boot environ))
    with r e as (l & Hl & Hp); [|done|].
  { intros r0 e0. simpl. by rewrite lookup_nil. }
  rewrite init_default_wrun in Hl. by exists l.
Qed.

(** *** Reservations, engine by engine *)

Lemma reservations_iff (L L' : string -> Prop) (H : list string)
    (I : gset string) :
  (∀ id, L id ↔ L' id) -> reservations L H I -> reservations L' H I.
Proof.
  intros HL (Hnd & Hh & Hi & Hl). split; [done|]. split; [|split].
  - intros id Hid. destruct (Hh id Hid) as [? Hn]. split; [done|].
    by rewrite <- HL.
  - intros id Hid. rewrite <- HL. by apply Hi.
  - intros id Hid. apply Hl. by rewrite HL.
Qed.

Lemma effect_reservations (L : string -> Prop) (H H' : list string)
    (I I' : gset string) :
  effect H I H' I' false -> reservations L H I -> reservations L H' I'.
Proof.
  intros Heff (Hnd & Hh & Hi & Hl).
  inversion Heff as [Hp -> | id0 Hid0 Hp -> | id0 Hp -> | ].
  - split; [by rewrite Hp|]. split; [|split]; try done.
    + intros id. rewrite Hp. apply Hh.
    + intros id. rewrite Hp. apply Hi.
  - split; [|split; [|split]].
    + rewrite Hp. apply NoDup_cons. split; [|done].
      intros Hx. by apply Hid0, Hh.
    + intros id. rewrite Hp, elem_of_cons, elem_of_union, elem_of_singleton.
      intros [-> | Hid].
      * split; [by left|]. intros Hx. by apply Hid0, Hl.
      * destruct (Hh id Hid). split; [by right|done].
    + intros id. rewrite Hp, elem_of_union, elem_of_singleton, elem_of_cons.
      intros [-> | Hid]; [by left; left|].
      destruct (Hi id Hid); [by left; right | by right].
    + intros id Hid. rewrite elem_of_union. right. by apply Hl.
  - rewrite Hp in Hnd. apply NoDup_cons in Hnd as [Hid0 Hnd].
    assert (∀ id, id ∈ H' -> id ≠ id0) as Hne.
    { by intros id Hid ->. }
    split; [done|]. split; [|split].
    + intros id Hid. destruct (Hh id) as [? ?].
      { rewrite Hp. by right. }
      split; [|done]. rewrite elem_of_difference, elem_of_singleton.
      split; [done|by apply Hne].
    + intros id. rewrite elem_of_difference, elem_of_singleton.
      intros [Hid Hn]. destruct (Hi id Hid) as [Hin|?]; [|by right].
      rewrite Hp, elem_of_cons in Hin. destruct Hin; [done|by left].
    + intros id Hid. rewrite elem_of_difference, elem_of_singleton.
      split; [by apply Hl|]. intros ->.
      destruct (Hh id0) as [_ Hn]; [|done]. rewrite Hp. by left.
Qed.

Lemma refused_cons (x : entry) (l : list entry) (id : string) :
  refused (x :: l) id
  ↔ (∃ k c, x = Answered (Sub_unique k id c) (Raise RuntimeError))
    ∨ refused l id.
Proof.
  unfold refused. split.
  - intros (k & c & [Hx | Hx]%elem_of_cons); [left|right]; eauto.
  - intros [(k & c & ->) | (k & c & Hx)]; exists k, c;
      [by left | by right].
Qed.

Lemma _submit_job_cases (id : string) (k : style) (c : call)
    (e : JobExecutorEngine) :
  (id ∈ _job_ids e ∧ _submit_job id k c e = (Ok false, e))
  ∨ ((id ∉ _job_ids e) ∧ shutdown_flag (_executor e) = false
     ∧ fst (_submit_job id k c e) = Ok true)
  ∨ ((id ∉ _job_ids e) ∧ shutdown_flag (_executor e) = true
     ∧ fst (_submit_job id k c e) = Raise RuntimeError
     ∧ _executor (snd (_submit_job id k c e)) = _executor e
     ∧ _job_ids (snd (_submit_job id k c e)) = {[id]} ∪ _job_ids e).
Proof.
  unfold _submit_job, pool_submit.
  destruct (decide (id ∈ _job_ids e)) as [Hin|Hin]; [by left|right].
  destruct (shutdown_flag (_executor e)); simpl; [right|left]; by destruct e.
Qed.

Lemma reach_reservations (mw : pyval) (l : list entry)
    (e : JobExecutorEngine) :
  engine_reach mw l e -> engine_reservations l e.
Proof.
  induction 1 as [e Hi|s l e Hl [IH IHs]|wt cp l e Hl [IH IHs]
                  |l e e' Hl [IH IHs] Ht|i o l e e' Hl [IH IHs] Ha].
  - destruct (init_fresh _ _ Hi) as (Hh & Hids & _).
    unfold engine_reservations, reservations. rewrite Hh, Hids.
    assert (∀ id, ¬ refused [] id) as Hn.
    { by intros id (k & c & Hx%elem_of_nil). }
    split; [|by intros id ?%Hn].
    split; [constructor|]. split; [by intros id ?%elem_of_nil|].
    split; [by intros id ?%not_elem_of_empty | by intros id ?%Hn].
  - destruct s as [c|k id0 c]; simpl.
    + destruct (submit_job_pool c e) as (_ & _ & Hs & _).
      assert (∀ id, refused l id
                    ↔ refused (Answered (Sub_run c) (fst (submit_job c e))
                                 :: l) id) as Hr.
      { intros id. rewrite refused_cons. split; [by right|].
        by intros [(k & c' & ?) | ?]. }
      split.
      * apply (reservations_iff _ _ _ _ Hr).
        exact (effect_reservations _ _ _ _ _ (submit_job_effect c e) IH).
      * intros id Hid%Hr. rewrite Hs. by apply (IHs id).
    + destruct (_submit_job_cases id0 k c e)
        as [[Hin ->] | [(Hin & Hs & Ha) | (Hin & Hs & Ha & He & Hids)]].
      * simpl.
        assert (∀ id, refused l id
                      ↔ refused (Answered (Sub_unique k id0 c) (Ok false)
                                   :: l) id) as Hr.
        { intros id. rewrite refused_cons. split; [by right|].
          by intros [(k' & c' & ?) | ?]. }
        split; [by apply (reservations_iff _ _ _ _ Hr)|].
        intros id Hid%Hr. by apply (IHs id).
      * pose proof (_submit_job_effect id0 k c e) as Heff.
        destruct (_submit_job_pool id0 k c e) as (_ & _ & Hs' & _).
        rewrite Ha in *.
        assert (∀ id, refused l id
                      ↔ refused (Answered (Sub_unique k id0 c) (Ok true)
                                   :: l) id) as Hr.
        { intros id. rewrite refused_cons. split; [by right|].
          by intros [(k' & c' & ?) | ?]. }
        split.
        -- apply (reservations_iff _ _ _ _ Hr).
           exact (effect_reservations _ _ _ _ _ Heff IH).
        -- intros id Hid%Hr. rewrite Hs'. by apply (IHs id).
      * rewrite Ha. unfold engine_reservations. rewrite He, Hids.
        destruct IH as (Hnd & Hh & Hi & Hl').
        split; [|by intros].
        split; [done|]. split; [|split].
        -- intros id Hid. destruct (Hh id Hid) as [Hid' Hn].
           split; [rewrite elem_of_union; by right|].
           rewrite refused_cons.
           intros [(k' & c' & [= _ <- _]) | ?]; [by apply Hin|done].
        -- intros id. rewrite elem_of_union, elem_of_singleton, refused_cons.
           intros [-> | Hid]; [right; left; eauto|].
           destruct (Hi id Hid); [by left | by right; right].
        -- intros id. rewrite elem_of_union, elem_of_singleton, refused_cons.
           intros [(k' & c' & [= _ <- _]) | Hid]; [by left|].
           right. by apply Hl'.
  - assert (∀ id, refused l id ↔ refused (Shut_down wt cp :: l) id) as Hr.
    { intros id. rewrite refused_cons. split; [by right|].
      by intros [(k & c' & ?) | ?]. }
    split; [|done].
    apply (reservations_iff _ _ _ _ Hr).
    exact (effect_reservations _ _ _ _ _ (shutdown_effect wt cp e) IH).
  - destruct (worker_take_pool e e' Ht) as (w & _ & _ & _ & Hs & _).
    split.
    + exact (effect_reservations _ _ _ _ _ (worker_take_effect e e' Ht) IH).
    + intros id Hid. rewrite Hs. by apply (IHs id).
  - destruct (worker_advance_pool i o e e' Ha) as (_ & _ & Hs & _).
    split.
    + exact (effect_reservations _ _ _ _ _
               (worker_advance_effect i o e e' Ha) IH).
    + intros id Hid. rewrite Hs. by apply (IHs id).
Qed.

Lemma refused_completed (r : nat) (w : world) (l : list entry)
    (id : string) :
  l ≡ₚ completed r w -> refused l id ↔ refused_on r w id.
Proof.
  intros Hp. unfold refused, refused_on. split.
  - intros (k & c & Hx). rewrite Hp in Hx.
    apply list_elem_of_omap in Hx as (f & Hf & Hx).
    apply list_elem_of_lookup_1 in Hf as [t Ht].
    exists t, k, c. rewrite Ht. f_equal.
    destruct f as [| | | | |s [r'|] a| | | |wt cp [r'|] a]; simpl in Hx;
      try done; case_decide; by simplify_eq.
  - intros (t & k & c & Ht). exists k, c. rewrite Hp.
    apply list_elem_of_omap. eexists. split.
    + by apply (list_elem_of_lookup_2 _ t).
    + simpl. by rewrite decide_True.
Qed.

(** C6, as the code has it.  For every engine object of every state that
    the callers and the workers reach, in whatever order their steps
    interleave: an accepted job that has not reached its release point has
    its identifier in the [_job_ids] of that engine; the identifiers of
    that set are those of such jobs and those under which the pool of the
    engine refused a keyed submission (the call raised [RuntimeError]); and
    no identifier is of both kinds. *)
Theorem reserved_iff_held (environ : gmap string string)
    (evs : list event) (r : nat) (e : JobExecutorEngine) (id : string) :
  engines (wrun evs (boot environ)) !! r = Some e ->
  (id ∈ pool_holders (_executor e) -> id ∈ _job_ids e)
  ∧ (id ∈ _job_ids e
     ↔ id ∈ pool_holders (_executor e)
       ∨ refused_on r (wrun evs (boot environ)) id)
  ∧ ¬ (id ∈ pool_holders (_executor e)
       ∧ refused_on r (wrun evs (boot environ)) id).
Proof.
  intros He. destruct (engine_history environ evs r e He) as (l & Hl & Hp).
  destruct (reach_reservations _ l e Hl) as [(Hnd & Hh & Hi & Hr) _].
  pose proof (refused_completed r _ l id Hp) as Hiff.
  split; [intros Hid; by destruct (Hh id Hid)|]. split; [split|].
  - intros Hid. rewrite <- Hiff. by apply Hi.
  - intros [Hid | Hid]; [by destruct (Hh id Hid) | by apply Hr, Hiff].
  - intros [Hid Hx]. apply Hiff in Hx. by destruct (Hh id Hid).
Qed.

Lemma reserved_iff_held_witness :
  engines (wrun [Enter (Sub_unique Post "x" (Call "f" [])); Move 0; Move 0;
                 Move 0; Move 0; Move 0; Take 0] (boot ∅)) !! 0%nat
  = Some {| _executor :=
              {| max_workers := 4; work_queue := [];
                 running := [TPostFn "x" (Call "f" [])];
                 shutdown_flag := false; cancelled := []; finished := [] |};
            _job_ids := {["x"]} |}
  ∧ ("x" ∈ ({["x"]} : gset string)
     ↔ "x" ∈ ["x"]
       ∨ refused_on 0
           (wrun [Enter (Sub_unique Post "x" (Call "f" [])); Move 0; Move 0;
                  Move 0; Move 0; Move 0; Take 0] (boot ∅)) "x").
Proof.
  assert (engines (wrun [Enter (Sub_unique Post "x" (Call "f" [])); Move 0;
                         Move 0; Move 0; Move 0; Move 0; Take 0] (boot ∅))
          !! 0%nat
          = Some {| _executor :=
                      {| max_workers := 4; work_queue := [];
                         running := [TPostFn "x" (Call "f" [])];
                         shutdown_flag := false; cancelled := [];
                         finished := [] |};
                    _job_ids := {["x"]} |}) as He.
  { vm_compute. reflexivity. }
  split; [exact He|].
  exact (proj1 (proj2 (reserved_iff_held ∅ _ 0 _ "x" He))).
Defined.

(** *** No accepted job is lost, engine by engine *)

Lemma entries_true_perm (l l' : list entry) :
  l ≡ₚ l' -> entries_true l = entries_true l'.
Proof.
  unfold entries_true.
  induction 1 as [|x l l' Hp IH|x y l|l l' l'' Hp IH Hp' IH']; simpl;
    unfold fmap in *; lia.
Qed.

Lemma engine_method_jobs (s : submission) (e : JobExecutorEngine) :
  pool_jobs (_executor (snd (engine_method s e)))
  = (pool_jobs (_executor e)
     + if ok_true (fst (engine_method s e)) then 1 else 0)%nat.
Proof.
  destruct s as [c|k id c]; [apply submit_job_jobs|apply _submit_job_jobs].
Qed.

Lemma reach_jobs (mw : pyval) (l : list entry) (e : JobExecutorEngine) :
  engine_reach mw l e -> pool_jobs (_executor e) = entries_true l.
Proof.
  induction 1 as [e Hi|s l e Hl IH|wt cp l e Hl IH|l e e' Hl IH Ht
                  |i o l e e' Hl IH Ha].
  - apply init_ok in Hi as (n & _ & _ & ->). reflexivity.
  - rewrite engine_method_jobs, IH. unfold entries_true. simpl.
    unfold fmap. lia.
  - by rewrite shutdown_jobs, IH.
  - by rewrite (worker_take_jobs e e' Ht).
  - by rewrite (worker_advance_jobs i o e e' Ha).
Qed.

(** X1.  On every engine object, in whatever order the steps of the
    callers and of the workers interleave, the jobs that the pool holds
    (waiting, being run, cancelled at shutdown or finished) are as many as
    the submissions that the engine answered [True]: no accepted job is
    dropped and none is there twice. *)
Theorem accepted_jobs_are_kept (environ : gmap string string)
    (evs : list event) (r : nat) (e : JobExecutorEngine) :
  engines (wrun evs (boot environ)) !! r = Some e ->
  pool_jobs (_executor e) = accepted_by r (wrun evs (boot environ)).
Proof.
  intros He. destruct (engine_history environ evs r e He) as (l & Hl & Hp).
  rewrite (reach_jobs _ l e Hl). by apply entries_true_perm.
Qed.

Lemma accepted_jobs_are_kept_witness :
  engines (wrun [Enter (Sub_run (Call "f" []));
                 Enter (Sub_unique Pre "x" (Call "g" []));
                 Move 0; Move 1; Move 0; Move 0; Move 0; Move 0; Move 1;
                 Move 1; Move 1; Move 1; Take 1] (boot ∅)) !! 1%nat
  = Some {| _executor :=
              {| max_workers := 4; work_queue := [];
                 running := [TPreLock "x" (Call "g" [])];
                 shutdown_flag := false; cancelled := []; finished := [] |};
            _job_ids := {["x"]} |}
  ∧ accepted_by 1
      (wrun [Enter (Sub_run (Call "f" []));
             Enter (Sub_unique Pre "x" (Call "g" []));
             Move 0; Move 1; Move 0; Move 0; Move 0; Move 0; Move 1;
             Move 1; Move 1; Move 1; Take 1] (boot ∅)) = 1%nat.
Proof.
  assert (engines (wrun [Enter (Sub_run (Call "f" []));
                         Enter (Sub_unique Pre "x" (Call "g" []));
                         Move 0; Move 1; Move 0; Move 0; Move 0; Move 0;
                         Move 1; Move 1; Move 1; Move 1; Take 1] (boot ∅))
          !! 1%nat
          = Some {| _executor :=
                      {| max_workers := 4; work_queue := [];
                         running := [TPreLock "x" (Call "g" [])];
                         shutdown_flag := false; cancelled := [];
                         finished := [] |};
                    _job_ids := {["x"]} |}) as He.
  { vm_compute. reflexivity. }
  split; [exact He|].
  symmetry. exact (accepted_jobs_are_kept ∅ _ 1 _ He).
Defined.

(** *** Jobs with one identifier, engine by engine *)

(** X9.  On every engine object, in whatever order the steps of the
    callers and of the workers interleave, the tasks that hold an
    identifier (a post job in its body or before the end of its [finally]
    block, a pre job before its [remove]) hold different identifiers, and
    no job waiting in the queue of that engine has the identifier of such a
    task: two post jobs with one identifier never execute at the same time
    on one engine.  Pre jobs give no such exclusion: there is a run after
    which two bodies submitted under one identifier are executing at once
    on one engine. *)
Theorem post_jobs_exclude_each_other (environ : gmap string string)
    (evs : list event) (r : nat) (e : JobExecutorEngine) :
  engines (wrun evs (boot environ)) !! r = Some e ->
  (∀ i j t t' id,
     running (_executor e) !! i = Some t ->
     running (_executor e) !! j = Some t' ->
     id ∈ task_holds t -> id ∈ task_holds t' -> i = j)
  ∧ (∀ i t id k c,
       running (_executor e) !! i = Some t -> id ∈ task_holds t ->
       WUnique k id c ∉ work_queue (_executor e))
  ∧ ∃ evs', (fun e' => running (_executor e'))
              <$> engines (wrun evs' (boot ∅))
            = [[TPreFn "y" (Call "f" []); TPreFn "y" (Call "f" [])]].
Proof.
  intros He. destruct (engine_history environ evs r e He) as (l & Hl & Hp).
  destruct (reach_reservations _ l e Hl) as [(Hnd & _) _].
  unfold pool_holders in Hnd. apply NoDup_app in Hnd as (Hrun & Hdis & _).
  split; [|split].
  - intros i j t t' id Hi Hj.
    by apply (NoDup_flat_map_lookup task_holds (running (_executor e))).
  - intros i t id k c Hi Hid Hw. apply (Hdis id).
    + by apply (elem_of_flat_map_lookup task_holds _ i t).
    + apply elem_of_app. left.
      apply list_elem_of_lookup_1 in Hw as [n Hn].
      apply (elem_of_flat_map_lookup item_holds _ n (WUnique k id c));
        [done|by left].
  - exists [Enter (Sub_unique Pre "y" (Call "f" [])); Move 0; Move 0;
            Move 0; Move 0; Move 0; Take 0; Advance 0 0 Returns;
            Enter (Sub_unique Pre "y" (Call "f" [])); Move 1; Move 1;
            Move 1; Take 0; Advance 0 1 Returns].
    vm_compute. reflexivity.
Qed.

Lemma post_jobs_exclude_each_other_witness :
  engines (wrun [Enter (Sub_unique Post "x" (Call "f" []));
                 Enter (Sub_unique Post "z" (Call "g" []));
                 Move 0; Move 0; Move 0; Move 0; Move 0; Move 1; Move 1;
                 Move 1; Take 0] (boot ∅)) !! 0%nat
  = Some {| _executor :=
              {| max_workers := 4;
                 work_queue := [WUnique Post "z" (Call "g" [])];
                 running := [TPostFn "x" (Call "f" [])];
                 shutdown_flag := false; cancelled := []; finished := [] |};
            _job_ids := {["z"; "x"]} |}
  ∧ (∀ i t id k c,
       [TPostFn "x" (Call "f" [])] !! i = Some t -> id ∈ task_holds t ->
       WUnique k id c ∉ [WUnique Post "z" (Call "g" [])]).
Proof.
  assert (engines (wrun [Enter (Sub_unique Post "x" (Call "f" []));
                         Enter (Sub_unique Post "z" (Call "g" []));
                         Move 0; Move 0; Move 0; Move 0; Move 0; Move 1;
                         Move 1; Move 1; Take 0] (boot ∅)) !! 0%nat
          = Some {| _executor :=
                      {| max_workers := 4;
                         work_queue := [WUnique Post "z" (Call "g" [])];
                         running := [TPostFn "x" (Call "f" [])];
                         shutdown_flag := false; cancelled := [];
                         finished := [] |};
                    _job_ids := {["z"; "x"]} |}) as He.
  { vm_compute. reflexivity. }
  split; [exact He|].
  exact (proj1 (proj2 (post_jobs_exclude_each_other ∅ _ 0 _ He))).
Defined.

(** *** Every call returns and every accepted job finishes *)

Lemma reachable_wstep (environ : gmap string string) (ev : event)
    (w : world) :
  reachable environ w -> reachable environ (wstep ev w).
Proof.
  intros [evs ->]. exists (evs ++ [ev]). by rewrite wrun_app.
Qed.

Lemma reachable_wrun (environ : gmap string string) (evs : list event)
    (w : world) :
  reachable environ w -> reachable environ (wrun evs w).
Proof.
  intros [evs0 ->]. exists (evs0 ++ evs). by rewrite wrun_app.
Qed.

Lemma reachable_well_formed (environ : gmap string string) (w : world) :
  reachable environ w -> well_formed w.
Proof. intros [evs ->]. apply well_formed_wrun, well_formed_boot. Qed.

Lemma engine_method_pool (s : submission) (e : JobExecutorEngine) :
  let e' := snd (engine_method s e) in
  cancelled (_executor e') = cancelled (_executor e)
  ∧ shutdown_flag (_executor e') = shutdown_flag (_executor e)
  ∧ max_workers (_executor e') = max_workers (_executor e)
  ∧ (pool_steps (_executor e') <= pool_steps (_executor e) + 3)%nat.
Proof.
  assert (∀ w p,
            (pool_steps
               {| max_workers := max_workers p;
                  work_queue := work_queue p ++ [w];
                  running := running p; shutdown_flag := shutdown_flag p;
                  cancelled := cancelled p; finished := finished p |}
             <= pool_steps p + 3)%nat) as Hw.
  { intros w p. unfold pool_steps. simpl.
    rewrite fmap_app, list_sum_app. simpl.
    assert (item_steps w <= 3)%nat
      by (destruct w as [c|[] id c]; unfold item_steps; simpl; lia).
    unfold fmap.
    set (a := list_sum (list_fmap task nat task_steps _)).
    set (b := list_sum (list_fmap work_item nat item_steps _)).
    clearbody a b. unfold item_steps in H. lia. }
  destruct s as [c|k id c]; simpl.
  - unfold submit_job, pool_submit.
    destruct (shutdown_flag (_executor e)) eqn:Hs; simpl;
      (split; [done|]); (split; [done|]); (split; [done|]);
      [lia|apply Hw].
  - unfold _submit_job, pool_submit.
    destruct (decide (id ∈ _job_ids e)); simpl.
    { repeat (split; [done|]). lia. }
    destruct (shutdown_flag (_executor e)) eqn:Hs; simpl;
      (split; [done|]); (split; [done|]); (split; [done|]);
      [lia|apply Hw].
Qed.

Lemma worker_take_bound (e e' : JobExecutorEngine) :
  worker_take e = Some e' ->
  max_workers (_executor e') = max_workers (_executor e).
Proof.
  unfold worker_take.
  destruct (work_queue (_executor e)) as [|w q]; [done|].
  case_match; [|done]. by intros [= <-].
Qed.

Lemma worker_advance_bound (i : nat) (o : outcome)
    (e e' : JobExecutorEngine) :
  worker_advance i o e = Some e' ->
  max_workers (_executor e') = max_workers (_executor e).
Proof.
  unfold worker_advance, set_remove.
  destruct (running (_executor e) !! i) as [t|]; [|done].
  intros He'.
  destruct t as [c|id c|id c|id c|id c o'];
    repeat case_decide; by injection He' as <-.
Qed.

Lemma reach_positive (mw : pyval) (l : list entry) (e : JobExecutorEngine) :
  engine_reach mw l e -> 0 < max_workers (_executor e).
Proof.
  induction 1 as [e Hi|s l e Hl IH|wt cp l e Hl IH|l e e' Hl IH Ht
                  |i o l e e' Hl IH Ha].
  - by apply init_ok in Hi as (n & _ & Hn & ->).
  - by destruct (engine_method_pool s e) as (_ & _ & -> & _).
  - done.
  - by rewrite (worker_take_bound e e' Ht).
  - by rewrite (worker_advance_bound i o e e' Ha).
Qed.

(** Without a shutdown the pool stays open and cancels nothing. *)
Lemma reach_open (mw : pyval) (l : list entry) (e : JobExecutorEngine) :
  engine_reach mw l e ->
  (∀ wt cp, Shut_down wt cp ∉ l) ->
  shutdown_flag (_executor e) = false ∧ cancelled (_executor e) = [].
Proof.
  induction 1 as [e Hi|s l e Hl IH|wt cp l e Hl IH|l e e' Hl IH Ht
                  |i o l e e' Hl IH Ha]; intros Hn.
  - by apply init_ok in Hi as (n & _ & _ & ->).
  - destruct (engine_method_pool s e) as (-> & -> & _).
    apply IH. intros wt cp Hx. apply (Hn wt cp). by right.
  - destruct (Hn wt cp). by left.
  - destruct (worker_take_pool e e' Ht) as (w & _ & _ & -> & -> & _).
    by apply IH.
  - destruct (worker_advance_pool i o e e' Ha) as (_ & -> & -> & _).
    by apply IH.
Qed.

Lemma list_sum_insert (l : list nat) (t x y : nat) :
  l !! t = Some x ->
  (list_sum (<[t := y]> l) + x = list_sum l + y)%nat.
Proof.
  revert t. induction l as [|a l IH]; intros [|t] Ht; simpl in *;
    try done.
  - injection Ht as ->. lia.
  - specialize (IH t Ht). lia.
Qed.

Lemma work_left_set_frame (t : nat) (f f' : frame) (w : world) :
  calls w !! t = Some f ->
  (work_left (set_frame t f' w) + frame_steps f
   = work_left w + frame_steps f')%nat.
Proof.
  intros Ht. unfold work_left. simpl. rewrite list_fmap_insert.
  pose proof (list_sum_insert (frame_steps <$> calls w) t (frame_steps f)
                (frame_steps f')) as H.
  rewrite list_lookup_fmap, Ht in H. specialize (H eq_refl). lia.
Qed.

Lemma work_left_set_engine (r : nat) (e e' : JobExecutorEngine)
    (w : world) :
  engines w !! r = Some e ->
  (work_left (set_engine r e' w) + pool_steps (_executor e)
   = work_left w + pool_steps (_executor e'))%nat.
Proof.
  intros Hr. unfold work_left. simpl. rewrite list_fmap_insert.
  pose proof (list_sum_insert
                ((fun e => pool_steps (_executor e)) <$> engines w) r
                (pool_steps (_executor e)) (pool_steps (_executor e')))
    as H.
  rewrite list_lookup_fmap, Hr in H. specialize (H eq_refl). lia.
Qed.

Lemma work_left_add_engine (e : JobExecutorEngine) (w : world) :
  work_left (add_engine e w)
  = (work_left w + pool_steps (_executor e))%nat.
Proof.
  unfold work_left. simpl. rewrite fmap_app, list_sum_app. simpl. lia.
Qed.

Lemma frame_step_progress (t : nat) (f : frame) (w : world) :
  calls w !! t = Some f -> well_formed w -> is_pending f = true ->
  (work_left (frame_step t f w) < work_left w)%nat.
Proof.
  intros Ht (Hglobal & Hcalls & Hreads) Hp.
  destruct f as [s|s|s r|s|s r|s r a|wt cp|wt cp|wt cp r|wt cp r a];
    try done; simpl.
  - destruct (global_ref w);
      match goal with |- context [set_frame t ?f' w] =>
        pose proof (work_left_set_frame t _ f' w Ht) end; simpl in *; lia.
  - destruct (JobExecutorEngine_init (init_default w)) as [e|x] eqn:Hi.
    + apply init_ok in Hi as (n & _ & _ & ->).
      pose proof (work_left_set_frame t _
                    (Get_exec_assign s (length (engines w)))
                    (add_engine (fresh_engine n) w) Ht) as H.
      rewrite work_left_add_engine in H.
      change (pool_steps (_executor (fresh_engine n))) with 0%nat in H.
      simpl in H. lia.
    + pose proof (work_left_set_frame t _ (Returned s None (Raise x)) w Ht).
      simpl in *; lia.
  - pose proof (work_left_set_frame t _ (Get_exec_return s)
                  (set_global r w) Ht) as H.
    change (work_left (set_global r w)) with (work_left w) in H.
    simpl in *; lia.
  - destruct (global_ref w);
      match goal with |- context [set_frame t ?f' w] =>
        pose proof (work_left_set_frame t _ f' w Ht) end; simpl in *; lia.
  - destruct (engines w !! r) as [e|] eqn:He.
    2:{ apply lookup_ge_None in He.
        pose proof (Hcalls t _ r Ht eq_refl). lia. }
    pose proof (work_left_set_frame t _
                  (Returned s (Some r) (fst (engine_method s e)))
                  (set_engine r (snd (engine_method s e)) w) Ht) as H.
    pose proof (work_left_set_engine r e (snd (engine_method s e)) w He).
    destruct (engine_method_pool s e) as (_ & _ & _ & Hle).
    simpl in *; lia.
  - destruct (global_ref w);
      match goal with |- context [set_frame t ?f' w] =>
        pose proof (work_left_set_frame t _ f' w Ht) end; simpl in *; lia.
  - destruct (global_ref w);
      match goal with |- context [set_frame t ?f' w] =>
        pose proof (work_left_set_frame t _ f' w Ht) end; simpl in *; lia.
  - destruct (engines w !! r) as [e|] eqn:He.
    2:{ apply lookup_ge_None in He.
        pose proof (Hcalls t _ r Ht eq_refl). lia. }
    pose proof (work_left_set_frame t _
                  (Shutdown_returned wt cp (Some r) (Ok tt))
                  (set_engine r (shutdown wt cp e) w) Ht) as H.
    pose proof (work_left_set_engine r e (shutdown wt cp e) w He).
    assert (pool_steps (_executor (shutdown wt cp e))
            <= pool_steps (_executor e))%nat.
    { unfold pool_steps. destruct cp; simpl; lia. }
    simpl in *; lia.
Qed.

Lemma reachable_engine (environ : gmap string string) (w : world) (r : nat)
    (e : JobExecutorEngine) :
  reachable environ w -> engines w !! r = Some e ->
  ∃ l, engine_reach (DEFAULT_BG_THREADS environ) l e ∧ l ≡ₚ completed r w.
Proof. intros [evs ->]. apply engine_history. Qed.

Lemma next_event_progress (environ : gmap string string) (o : outcome)
    (w : world) (ev : event) :
  reachable environ w -> next_event o w = Some ev ->
  (work_left (wstep ev w) < work_left w)%nat
  ∧ is_shutdown_frame <$> calls (wstep ev w) = is_shutdown_frame <$> calls w.
Proof.
  intros Hw. unfold next_event.
  destruct (list_find (fun f => is_pending f = true) (calls w))
    as [[t f]|] eqn:Hfind.
  - apply list_find_Some in Hfind as (Ht & Hp & _).
    intros [= <-]. simpl. rewrite Ht. split.
    + apply frame_step_progress; [done| |done].
      by apply (reachable_well_formed environ).
    + destruct f; simpl; try done; repeat case_match; simpl;
        try done; rewrite list_fmap_insert;
        apply list_insert_id; by rewrite list_lookup_fmap, Ht.
  - destruct (list_find (fun e => is_busy e = true) (engines w))
      as [[r e]|] eqn:Hbusy; [|done].
    apply list_find_Some in Hbusy as (Hr & Hb & _).
    destruct (reachable_engine environ w r e Hw Hr) as (l & Hl & _).
    pose proof (reach_positive _ l e Hl) as Hpos.
    unfold is_busy in Hb. apply negb_true_iff, Nat.eqb_neq in Hb.
    destruct (running (_executor e)) as [|t0 ts] eqn:Hrun; intros [= <-];
      simpl; unfold engine_step; rewrite Hr.
    + destruct (worker_take_steps e) as (e' & -> & Hlt & _); try done.
      { intros Hq. apply Hb. unfold pool_steps. by rewrite Hrun, Hq. }
      split; [|done].
      pose proof (work_left_set_engine r e e' w Hr). lia.
    + destruct (worker_advance_steps o e) as (e' & -> & Hlt & _).
      { by rewrite Hrun. }
      split; [|done].
      pose proof (work_left_set_engine r e e' w Hr). lia.
Qed.

Lemma next_event_none (o : outcome) (w : world) :
  next_event o w = None ->
  Forall (fun f => is_pending f = false) (calls w)
  ∧ Forall (fun e => pool_steps (_executor e) = 0%nat) (engines w).
Proof.
  unfold next_event.
  destruct (list_find (fun f => is_pending f = true) (calls w))
    as [[t f]|] eqn:Hfind; [done|].
  destruct (list_find (fun e => is_busy e = true) (engines w))
    as [[r e]|] eqn:Hbusy; [by destruct (running (_executor e))|].
  intros _. apply list_find_None in Hfind, Hbusy. split.
  - eapply Forall_impl; [exact Hfind|]. intros f Hf. simpl in Hf.
    by destruct (is_pending f).
  - eapply Forall_impl; [exact Hbusy|]. intros e He. simpl in He.
    unfold is_busy in He.
    destruct (pool_steps (_executor e) =? 0)%nat eqn:Heq;
      [by apply Nat.eqb_eq|done].
Qed.

Lemma settle_done (environ : gmap string string) (o : outcome)
    (fuel : nat) (w : world) :
  reachable environ w -> (work_left w <= fuel)%nat ->
  next_event o (wrun (settle o fuel w) w) = None
  ∧ is_shutdown_frame <$> calls (wrun (settle o fuel w) w)
    = is_shutdown_frame <$> calls w.
Proof.
  revert w. induction fuel as [|fuel IH]; intros w Hw Hfuel.
  - simpl. split; [|done].
    destruct (next_event o w) as [ev|] eqn:Hev; [|done].
    destruct (next_event_progress environ o w ev Hw Hev). lia.
  - simpl. destruct (next_event o w) as [ev|] eqn:Hev; [|done].
    destruct (next_event_progress environ o w ev Hw Hev) as [Hlt Hk].
    simpl. rewrite <- Hk.
    apply IH; [by apply reachable_wstep | lia].
Qed.

Lemma completed_open (r : nat) (w : world) :
  Forall (fun f => is_shutdown_frame f = false) (calls w) ->
  ∀ wt cp, Shut_down wt cp ∉ completed r w.
Proof.
  intros Hw wt cp (f & Hf & Hx)%list_elem_of_omap.
  rewrite Forall_forall in Hw. specialize (Hw f Hf).
  destruct f as [| | | | |s [r'|] a| | | |wt' cp' [r'|] a]; simpl in *;
    try done; by case_decide.
Qed.

(** X10.  Nothing that was accepted gets stuck, however the callers
    overlapped.  From any state that the callers and the workers reach and
    in which nobody has called [bg_exec_shutdown], follow the schedule
    [settle] (the first call that has not returned takes its next step;
    then, engine by engine, the first running task moves on and, when none
    is running, a worker takes the head of the queue) for as many steps as
    there is work left: no new call is made, every call has returned, and
    on every engine object the queue is empty, no task is running, every
    job that the engine answered [True] has completed its future, and
    [_job_ids] is empty again. *)
Theorem accepted_jobs_all_finish (environ : gmap string string)
    (evs : list event) (o : outcome) :
  Forall (fun f => is_shutdown_frame f = false)
    (calls (wrun evs (boot environ))) ->
  let w := wrun evs (boot environ) in
  let w' := wrun (settle o (work_left w) w) w in
  length (calls w') = length (calls w)
  ∧ Forall (fun f => is_pending f = false) (calls w')
  ∧ ∀ r e, engines w' !! r = Some e ->
           work_queue (_executor e) = [] ∧ running (_executor e) = []
           ∧ length (finished (_executor e)) = accepted_by r w'
           ∧ _job_ids e = ∅.
Proof.
  intros Hopen w w'.
  assert (reachable environ w) as Hw by (by exists evs).
  destruct (settle_done environ o (work_left w) w Hw (le_n _))
    as [Hnone Hkinds].
  fold w' in Hnone, Hkinds.
  apply next_event_none in Hnone as [Hcalls Hengines].
  assert (Forall (fun f => is_shutdown_frame f = false) (calls w')) as Hopen'.
  { assert (Forall (fun b => b = false) (is_shutdown_frame <$> calls w'))
      as H by (rewrite Hkinds; by apply Forall_fmap).
    by apply Forall_fmap in H. }
  split.
  { by rewrite <- (length_fmap is_shutdown_frame), Hkinds, length_fmap. }
  split; [done|]. intros r e Hr.
  assert (reachable environ w') as Hw' by (by apply reachable_wrun).
  destruct (reachable_engine environ w' r e Hw' Hr) as (l & Hl & Hp).
  rewrite Forall_forall in Hengines.
  destruct (pool_steps_zero (_executor e)) as [Hrun Hq].
  { apply Hengines. by apply (list_elem_of_lookup_2 _ r). }
  destruct (reach_open _ l e Hl) as [Hflag Hc].
  { intros wt cp Hx. rewrite Hp in Hx. by apply (completed_open r w' Hopen' wt cp). }
  split; [done|]. split; [done|]. split.
  - unfold accepted_by. rewrite <- (entries_true_perm l _ Hp).
    rewrite <- (reach_jobs _ l e Hl). unfold pool_jobs.
    rewrite Hq, Hrun, Hc. simpl. lia.
  - destruct (reach_reservations _ l e Hl) as [(_ & _ & Hi & _) Hs].
    apply set_eq. intros id. split; [|by intros ?%not_elem_of_empty].
    intros [Hid | Hid]%Hi.
    + unfold pool_holders in Hid. rewrite Hrun, Hq, Hc in Hid.
      by apply elem_of_nil in Hid.
    + apply Hs in Hid. by rewrite Hflag in Hid.
Qed.

Lemma accepted_jobs_all_finish_witness :
  let w := wrun [Enter (Sub_unique Post "x" (Call "f" []));
                 Enter (Sub_unique Post "x" (Call "g" []));
                 Enter (Sub_run (Call "h" []));
                 Move 0; Move 1; Move 0; Move 0; Move 0; Move 0; Take 0;
                 Move 1; Move 1] (boot ∅) in
  let w' := wrun (settle Raises (work_left w) w) w in
  Forall (fun f => is_shutdown_frame f = false) (calls w)
  ∧ length (calls w') = 3%nat
  ∧ Forall (fun f => is_pending f = false) (calls w')
  ∧ ∀ r e, engines w' !! r = Some e ->
           work_queue (_executor e) = [] ∧ running (_executor e) = []
           ∧ length (finished (_executor e)) = accepted_by r w'
           ∧ _job_ids e = ∅.
Proof.
  assert (Forall (fun f => is_shutdown_frame f = false)
            (calls (wrun [Enter (Sub_unique Post "x" (Call "f" []));
                          Enter (Sub_unique Post "x" (Call "g" []));
                          Enter (Sub_run (Call "h" []));
                          Move 0; Move 1; Move 0; Move 0; Move 0; Move 0;
                          Take 0; Move 1; Move 1] (boot ∅)))) as Hopen.
  { vm_compute. repeat constructor. }
  split; [exact Hopen|].
  exact (accepted_jobs_all_finish ∅ _ Raises Hopen).
Defined.

(** *** Calls that follow one another *)

Lemma insert_last {A : Type} (l : list A) (x y : A) :
  <[length l := y]> (l ++ [x]) = l ++ [y].
Proof. induction l as [|a l IH]; simpl; [done|]. by rewrite IH. Qed.

Lemma lookup_last {A : Type} (l : list A) (x : A) :
  (l ++ [x]) !! length l = Some x.
Proof. by apply list_lookup_middle. Qed.

Lemma wstep_move_last (d : pyval) (g : option nat)
    (es : list JobExecutorEngine) (cs : list frame) (f : frame) :
  wstep (Move (length cs))
    {| init_default := d; global_ref := g; engines := es;
       calls := cs ++ [f] |}
  = frame_step (length cs) f
      {| init_default := d; global_ref := g; engines := es;
         calls := cs ++ [f] |}.
Proof. simpl. by rewrite lookup_last. Qed.

Lemma set_frame_last (d : pyval) (g : option nat)
    (es : list JobExecutorEngine) (cs : list frame) (f f' : frame) :
  set_frame (length cs) f'
    {| init_default := d; global_ref := g; engines := es;
       calls := cs ++ [f] |}
  = {| init_default := d; global_ref := g; engines := es;
       calls := cs ++ [f'] |}.
Proof. unfold set_frame. simpl. by rewrite insert_last. Qed.

Ltac world_simpl :=
  unfold add_engine, set_engine, set_global;
  cbn [global_ref init_default engines calls app length];
  rewrite ?set_frame_last.

Ltac move_last :=
  rewrite wstep_move_last; cbn [frame_step]; world_simpl.

Lemma frame_step_method (d : pyval) (g : option nat)
    (e : JobExecutorEngine) (cs : list frame) (s : submission) :
  frame_step (length cs) (Call_method s 0)
    {| init_default := d; global_ref := g; engines := [e];
       calls := cs ++ [Call_method s 0] |}
  = {| init_default := d; global_ref := g;
       engines := [snd (engine_method s e)];
       calls := cs ++ [Returned s (Some 0%nat) (fst (engine_method s e))] |}.
Proof. simpl. unfold set_frame. simpl. by rewrite insert_last. Qed.

Lemma frame_step_shutdown (d : pyval) (g : option nat)
    (e : JobExecutorEngine) (cs : list frame) (wt cp : bool) :
  frame_step (length cs) (Shutdown_method wt cp 0)
    {| init_default := d; global_ref := g; engines := [e];
       calls := cs ++ [Shutdown_method wt cp 0] |}
  = {| init_default := d; global_ref := g;
       engines := [shutdown wt cp e];
       calls := cs ++ [Shutdown_returned wt cp (Some 0%nat) (Ok tt)] |}.
Proof. simpl. unfold set_frame. simpl. by rewrite insert_last. Qed.

Lemma submission_alone (s : submission) (w : world) :
  one_engine w ->
  let w' := wrun (Enter s :: replicate 5 (Move (length (calls w)))) w in
  let ra := with_exec (engine_method s) (seen w) in
  seen w' = snd ra ∧ one_engine w'
  ∧ ∃ r, calls w' = calls w ++ [Returned s r (fst ra)].
Proof.
  destruct w as [d g es cs]. unfold one_engine.
  cbn [global_ref engines calls wrun replicate].
  change (wstep (Enter s) ?w) with (add_frame (Get_exec_test s) w).
  unfold add_frame. cbn [global_ref init_default engines calls].
  unfold with_exec, _get_exec, seen.
  cbn [global_ref init_default engines calls default_max_workers
       _job_executor].
  intros [[-> ->] | [-> Hes]].
  - move_last. move_last.
    destruct (JobExecutorEngine_init d) as [e|x] eqn:Hi.
    + world_simpl. move_last. move_last.
      rewrite wstep_move_last, frame_step_method. simpl.
      destruct (engine_method s e) as [a e'] eqn:Hm. simpl.
      split; [reflexivity|]. split; [by right|]. by eexists.
    + world_simpl. repeat move_last. simpl.
      split; [reflexivity|]. split; [by left|]. by eexists.
  - destruct es as [|e [|e2 es]]; try done.
    move_last. move_last.
    rewrite wstep_move_last, frame_step_method. repeat move_last. simpl.
    destruct (engine_method s e) as [a e'] eqn:Hm. simpl.
    split; [reflexivity|]. split; [by right|]. by eexists.
Qed.

Lemma shutdown_alone (wt cp : bool) (w : world) :
  one_engine w ->
  let w' :=
    wrun (Enter_shutdown wt cp :: replicate 3 (Move (length (calls w)))) w in
  let ra := bg_exec_shutdown wt cp (seen w) in
  seen w' = snd ra ∧ one_engine w'
  ∧ ∃ r, calls w' = calls w ++ [Shutdown_returned wt cp r (fst ra)].
Proof.
  destruct w as [d g es cs]. unfold one_engine.
  cbn [global_ref engines calls wrun replicate].
  change (wstep (Enter_shutdown wt cp) ?w)
    with (add_frame (Shutdown_test wt cp) w).
  unfold add_frame. cbn [global_ref init_default engines calls].
  unfold bg_exec_shutdown, seen.
  cbn [global_ref init_default engines calls default_max_workers
       _job_executor].
  intros [[-> ->] | [-> Hes]].
  - repeat move_last. simpl.
    split; [reflexivity|]. split; [by left|]. by eexists.
  - destruct es as [|e [|e2 es]]; try done.
    move_last. move_last.
    rewrite wstep_move_last, frame_step_shutdown. simpl.
    split; [reflexivity|]. split; [by right|]. by eexists.
Qed.

Lemma worker_alone (f : JobExecutorEngine -> option JobExecutorEngine)
    (w : world) :
  one_engine w ->
  let w' := match global_ref w with
            | Some r => engine_step f r w
            | None => w
            end in
  seen w' = snd (worker_step f (seen w)) ∧ one_engine w'
  ∧ calls w' = calls w
  ∧ call_answer (fst (worker_step f (seen w))) = None.
Proof.
  destruct w as [d g es cs]. unfold one_engine. simpl.
  intros [[-> ->] | [-> Hes]].
  - unfold worker_step, seen. simpl. repeat split; try done. by left.
  - destruct es as [|e [|e2 es]]; try done.
    unfold engine_step, worker_step, seen. simpl.
    destruct (f e) as [e'|]; simpl; repeat split; try done; by right.
Qed.

Lemma alone_spec (a : action) (w : world) :
  one_engine w ->
  let w' := wrun (alone a w) w in
  seen w' = snd (step a (seen w)) ∧ one_engine w'
  ∧ omap frame_answer (calls w')
    = omap frame_answer (calls w)
      ++ option_list (call_answer (fst (step a (seen w)))).
Proof.
  intros Hw. destruct a as [c|id c|id c|wt cp| |i o]; cbn [alone step].
  - destruct (submission_alone (Sub_run c) w Hw) as (Hs & Ho & r & Hc).
    unfold bg_run. simpl in *.
    destruct (with_exec (submit_job c) (seen w)) as [ra m'].
    rewrite Hc, omap_app. by simpl in *.
  - destruct (submission_alone (Sub_unique Pre id c) w Hw)
      as (Hs & Ho & r & Hc).
    unfold bg_run_unique_pre, submit_unique_job_pre. simpl in *.
    destruct (with_exec (_submit_job id Pre c) (seen w)) as [ra m'].
    rewrite Hc, omap_app. by simpl in *.
  - destruct (submission_alone (Sub_unique Post id c) w Hw)
      as (Hs & Ho & r & Hc).
    unfold bg_run_unique_post, submit_unique_job_post. simpl in *.
    destruct (with_exec (_submit_job id Post c) (seen w)) as [ra m'].
    rewrite Hc, omap_app. by simpl in *.
  - destruct (shutdown_alone wt cp w Hw) as (Hs & Ho & r & Hc).
    simpl in *.
    destruct (bg_exec_shutdown wt cp (seen w)) as [ra m'].
    rewrite Hc, omap_app. by simpl in *.
  - destruct (worker_alone worker_take w Hw) as (Hs & Ho & Hc & Ha).
    rewrite Ha, app_nil_r.
    destruct (global_ref w); simpl in *; by rewrite ?Hc.
  - destruct (worker_alone (worker_advance i o) w Hw) as (Hs & Ho & Hc & Ha).
    rewrite Ha, app_nil_r.
    destruct (global_ref w); simpl in *; by rewrite ?Hc.
Qed.

Lemma serial_spec (acts : list action) (w : world) :
  one_engine w ->
  let w' := wrun (serial acts w) w in
  seen w' = run acts (seen w) ∧ one_engine w'
  ∧ omap frame_answer (calls w')
    = omap frame_answer (calls w) ++ omap call_answer (answers acts (seen w)).
Proof.
  revert w. induction acts as [|a acts IH]; intros w Hw.
  - simpl. by rewrite app_nil_r.
  - cbn [serial run answers]. rewrite wrun_app.
    destruct (alone_spec a w Hw) as (Hs & Ho & Hc).
    destruct (IH _ Ho) as (Hs' & Ho' & Hc').
    cbn zeta. rewrite Hs', Hc', Hc, Hs. split; [done|]. split; [done|].
    rewrite <- app_assoc. f_equal. cbn [omap list_omap].
    by destruct (call_answer (fst (step a (seen w)))).
Qed.

(** X20.  Calls that follow one another.  When every call is completed
    before the next is made (the events [serial acts]), the module is at
    each moment what the run [acts] of whole calls makes of it, the calls
    get the answers of that run, and no second engine is ever built: the
    steps of [step] are the calls that nobody overlaps. *)
Theorem serial_calls_agree (environ : gmap string string)
    (acts : list action) :
  let w := wrun (serial acts (boot environ)) (boot environ) in
  seen w = run acts (import_module environ)
  ∧ omap frame_answer (calls w)
    = omap call_answer (answers acts (import_module environ))
  ∧ (length (engines w) <= 1)%nat.
Proof.
  destruct (serial_spec acts (boot environ)) as (Hs & Ho & Hc);
    [by left|].
  split; [exact Hs|]. split; [exact Hc|].
  destruct Ho as [[_ ->] | [_ ->]]; simpl; lia.
Qed.

(** *** What overlapping calls are answered *)






(** *** One engine *)

Lemma stored_wstep (ev : event) (w : world) :
  stored w ->
  stored (wstep ev w) ∧ global_ref (wstep ev w) = global_ref w
  ∧ length (engines (wstep ev w)) = length (engines w).
Proof.
  intros [[g Hg] Hc].
  assert (∀ t f' w', global_ref w' = global_ref w -> calls w' = calls w ->
            builds f' = false -> stored (set_frame t f' w')) as Hset.
  { intros t f' w' Hg' Hc' Hf'. split; simpl; [by rewrite Hg', Hg|].
    rewrite Hc'. rewrite Forall_lookup in Hc. apply Forall_lookup.
    intros i x [(-> & <- & _) | [_ Hi]]%list_lookup_insert_Some;
      [done | by eapply Hc]. }
  destruct ev as [s|wt cp|t|r|r i o]; simpl.
  - split; [|done]. split; simpl; [by rewrite Hg|].
    apply Forall_app. split; [done|]. by constructor.
  - split; [|done]. split; simpl; [by rewrite Hg|].
    apply Forall_app. split; [done|]. by constructor.
  - destruct (calls w !! t) as [f|] eqn:Ht; [|by rewrite Hg].
    pose proof (proj1 (Forall_lookup _ _) Hc t f Ht) as Hf.
    destruct f as [s|s|s r|s|s r|s r a|wt cp|wt cp|wt cp r|wt cp r a];
      simpl in *; try done; rewrite ?Hg; simpl;
      try (split; [by apply Hset|done]); try (by rewrite Hg).
    + destruct (engines w !! r) as [e|]; simpl; [|by rewrite Hg].
      split; [by apply Hset|]. split; [done|]. by rewrite length_insert.
    + destruct (engines w !! r) as [e|]; simpl; [|by rewrite Hg].
      split; [by apply Hset|]. split; [done|]. by rewrite length_insert.
  - unfold engine_step. repeat case_match; simpl; rewrite ?Hg, ?length_insert;
      by repeat split.
  - unfold engine_step. repeat case_match; simpl; rewrite ?Hg, ?length_insert;
      by repeat split.
Qed.

(** X22.  Once [_job_executor] holds an engine and no call is inside the
    branch of [_get_exec] that builds one, no other engine is ever built,
    whatever calls are made and however their steps interleave: the global
    keeps its engine and every later call gets that one. *)
Theorem stored_engine_stays (w : world) (evs : list event) :
  is_Some (global_ref w) ->
  Forall (fun f => builds f = false) (calls w) ->
  global_ref (wrun evs w) = global_ref w
  ∧ length (engines (wrun evs w)) = length (engines w)
  ∧ Forall (fun f => builds f = false) (calls (wrun evs w)).
Proof.
  intros Hg Hc. assert (stored w) as Hw by done. clear Hg Hc.
  revert w Hw. induction evs as [|ev evs IH]; intros w Hw; simpl.
  - by destruct Hw.
  - destruct (stored_wstep ev w Hw) as (Hw' & <- & <-). by apply IH.
Qed.

Lemma stored_engine_stays_witness :
  let w := wrun [Enter (Sub_run (Call "f" [])); Move 0; Move 0; Move 0]
             (boot ∅) in
  is_Some (global_ref w)
  ∧ global_ref
      (wrun [Enter (Sub_unique Pre "x" (Call "g" []));
             Enter (Sub_run (Call "h" [])); Move 2; Move 1; Move 0; Move 2;
             Move 1; Move 0; Move 1; Move 2] w) = Some 0%nat
  ∧ length
      (engines
         (wrun [Enter (Sub_unique Pre "x" (Call "g" []));
                Enter (Sub_run (Call "h" [])); Move 2; Move 1; Move 0;
                Move 2; Move 1; Move 0; Move 1; Move 2] w)) = 1%nat.
Proof.
  assert (is_Some (global_ref
                     (wrun [Enter (Sub_run (Call "f" [])); Move 0; Move 0;
                            Move 0] (boot ∅)))) as Hg by (by eexists).
  split; [exact Hg|].
  destruct (stored_engine_stays _
              [Enter (Sub_unique Pre "x" (Call "g" []));
               Enter (Sub_run (Call "h" [])); Move 2; Move 1; Move 0; Move 2;
               Move 1; Move 0; Move 1; Move 2] Hg) as (H1 & H2 & _).
  - vm_compute. repeat constructor.
  - split; [exact H1 | exact H2].
Defined.

(** *** The size of the pools *)

Lemma reach_sized (n : Z) (l : list entry) (e : JobExecutorEngine) :
  engine_reach (PyInt n) l e -> engine_sized n e.
Proof.
  induction 1 as [e Hi|s l e Hl IH|wt cp l e Hl IH|l e e' Hl IH Ht
                  |i o l e e' Hl IH Ha].
  - apply init_ok in Hi as (n' & [= <-] & Hn & ->).
    split; simpl; [done|lia].
  - destruct s as [c|k id c]; simpl;
      [by apply submit_job_sized | by apply _submit_job_sized].
  - done.
  - by apply (worker_take_sized n e e' Ht).
  - by apply (worker_advance_sized n i o e e' Ha).
Qed.

(** X23.  With [ENGINE_BACKGROUND_THREADS] unset the default size is 4,
    and every engine object that is ever built, however the callers
    overlap, has a pool bounded by 4 workers that never runs more than 4
    tasks at once. *)
Theorem default_pool_size_four (environ : gmap string string)
    (evs : list event) (r : nat) (e : JobExecutorEngine) :
  environ !! "ENGINE_BACKGROUND_THREADS" = None ->
  engines (wrun evs (boot environ)) !! r = Some e ->
  DEFAULT_BG_THREADS environ = PyInt 4
  ∧ max_workers (_executor e) = 4
  ∧ Z.of_nat (length (running (_executor e))) <= 4.
Proof.
  intros Hu He.
  assert (DEFAULT_BG_THREADS environ = PyInt 4) as Hd.
  { unfold DEFAULT_BG_THREADS, os_getenv. by rewrite Hu. }
  split; [done|].
  destruct (engine_history environ evs r e He) as (l & Hl & _).
  rewrite Hd in Hl. exact (reach_sized 4 l e Hl).
Qed.

Lemma default_pool_size_four_witness :
  (∅ : gmap string string) !! "ENGINE_BACKGROUND_THREADS" = None
  ∧ engines (wrun [Enter (Sub_run (Call "f" [])); Move 0; Move 0; Move 0;
                   Move 0; Move 0; Take 0] (boot ∅)) !! 0%nat
    = Some {| _executor :=
                {| max_workers := 4; work_queue := [];
                   running := [TPlain (Call "f" [])];
                   shutdown_flag := false; cancelled := [];
                   finished := [] |};
              _job_ids := ∅ |}
  ∧ DEFAULT_BG_THREADS ∅ = PyInt 4.
Proof.
  assert (engines (wrun [Enter (Sub_run (Call "f" [])); Move 0; Move 0;
                         Move 0; Move 0; Move 0; Take 0] (boot ∅)) !! 0%nat
          = Some {| _executor :=
                      {| max_workers := 4; work_queue := [];
                         running := [TPlain (Call "f" [])];
                         shutdown_flag := false; cancelled := [];
                         finished := [] |};
                    _job_ids := ∅ |}) as He by (vm_compute; reflexivity).
  split; [reflexivity|]. split; [exact He|].
  exact (proj1 (default_pool_size_four ∅ _ 0 _ eq_refl He)).
Defined.

(** C7: the failing input.  Two threads make the first calls of the
    program, [bg_run_unique_post("x", f)] and [bg_run_unique_post("x", g)],
    and both test [_job_executor is None] before either has stored an
    engine.  Each builds an engine; the first call gets its own engine back
    and submits to it before the second stores the other one.  Both calls
    are answered [True], ["x"] is reserved on both engines, and the two
    bodies are executing at the same time. *)
Theorem first_calls_overlap :
  calls (wrun [Enter (Sub_unique Post "x" (Call "f" []));
               Enter (Sub_unique Post "x" (Call "g" []));
               Move 0; Move 1; Move 0; Move 0; Move 0; Move 0;
               Move 1; Move 1; Move 1; Move 1; Take 0; Take 1] (boot ∅))
  = [Returned (Sub_unique Post "x" (Call "f" [])) (Some 0%nat) (Ok true);
     Returned (Sub_unique Post "x" (Call "g" [])) (Some 1%nat) (Ok true)]
  ∧ (fun e => running (_executor e))
      <$> engines
            (wrun [Enter (Sub_unique Post "x" (Call "f" []));
                   Enter (Sub_unique Post "x" (Call "g" []));
                   Move 0; Move 1; Move 0; Move 0; Move 0; Move 0;
                   Move 1; Move 1; Move 1; Move 1; Take 0; Take 1] (boot ∅))
    = [[TPostFn "x" (Call "f" [])]; [TPostFn "x" (Call "g" [])]]
  ∧ (fun e => elements (_job_ids e))
      <$> engines
            (wrun [Enter (Sub_unique Post "x" (Call "f" []));
                   Enter (Sub_unique Post "x" (Call "g" []));
                   Move 0; Move 1; Move 0; Move 0; Move 0; Move 0;
                   Move 1; Move 1; Move 1; Move 1; Take 0; Take 1] (boot ∅))
    = [["x"]; ["x"]].
Proof. vm_compute. repeat split; reflexivity. Qed.

(** C2: the failing input.  With [ENGINE_BACKGROUND_THREADS=8] the default
    size is the text ["8"]; the constructor of the pool raises [TypeError]
    on it, so the first [bg_run] raises and leaves the module without an
    engine, and so do the keyed submissions: no pool of 8 workers is
    built. *)
Theorem pool_size_setting_raises :
  DEFAULT_BG_THREADS {["ENGINE_BACKGROUND_THREADS" := "8"]} = PyStr "8"
  ∧ bg_run (Call "f" [])
      (import_module {["ENGINE_BACKGROUND_THREADS" := "8"]})
    = (Raise TypeError,
       import_module {["ENGINE_BACKGROUND_THREADS" := "8"]})
  ∧ fst (bg_run_unique_pre "x" (Call "f" [])
           (import_module {["ENGINE_BACKGROUND_THREADS" := "8"]}))
    = Raise TypeError
  ∧ fst (bg_run_unique_post "x" (Call "f" [])
           (import_module {["ENGINE_BACKGROUND_THREADS" := "8"]}))
    = Raise TypeError
  ∧ engines
      (wrun [Enter (Sub_run (Call "f" [])); Move 0; Move 0; Move 0; Move 0;
             Move 0] (boot {["ENGINE_BACKGROUND_THREADS" := "8"]})) = []
  ∧ calls
      (wrun [Enter (Sub_run (Call "f" [])); Move 0; Move 0; Move 0; Move 0;
             Move 0] (boot {["ENGINE_BACKGROUND_THREADS" := "8"]}))
    = [Returned (Sub_run (Call "f" [])) None (Raise TypeError)].
Proof. vm_compute. repeat split; reflexivity. Qed.

(** After a shutdown that finds the post job still running, the job fails
    and its [finally] block releases ["y"]; a [bg_run_unique_post] under
    ["y"] made then is not accepted: it raises the pool's [RuntimeError]
    and leaves ["y"] reserved. *)
Lemma post_resubmission_after_shutdown :
  tasks (run [Bg_run_unique_post "y" (Call "f" []); Worker_take;
              Bg_exec_shutdown false true; Worker_advance 0 Raises;
              Worker_advance 0 Raises] (import_module ∅)) = []
  ∧ futures (run [Bg_run_unique_post "y" (Call "f" []); Worker_take;
                  Bg_exec_shutdown false true; Worker_advance 0 Raises;
                  Worker_advance 0 Raises] (import_module ∅))
    = [Raise JobFailure]
  ∧ ("y" ∉ reserved
             (run [Bg_run_unique_post "y" (Call "f" []); Worker_take;
                   Bg_exec_shutdown false true; Worker_advance 0 Raises;
                   Worker_advance 0 Raises] (import_module ∅)))
  ∧ fst (bg_run_unique_post "y" (Call "g" [])
           (run [Bg_run_unique_post "y" (Call "f" []); Worker_take;
                 Bg_exec_shutdown false true; Worker_advance 0 Raises;
                 Worker_advance 0 Raises] (import_module ∅)))
    = Raise RuntimeError
  ∧ fst (bg_run_unique_post "y" (Call "g" [])
           (run [Bg_run_unique_post "y" (Call "f" []); Worker_take;
                 Bg_exec_shutdown false true; Worker_advance 0 Raises;
                 Worker_advance 0 Raises] (import_module ∅)))
    ≠ Ok true
  ∧ "y" ∈ reserved
            (snd (bg_run_unique_post "y" (Call "g" [])
                    (run [Bg_run_unique_post "y" (Call "f" []); Worker_take;
                          Bg_exec_shutdown false true;
                          Worker_advance 0 Raises; Worker_advance 0 Raises]
                       (import_module ∅)))).
Proof.
  split; [by vm_compute|]. split; [by vm_compute|]. split.
  { vm_compute. intros H. inversion H. }
  split; [by vm_compute|]. split; [by vm_compute|].
  vm_compute. reflexivity.
Qed.

(** After a shutdown made while the body of the first pre job is
    executing (its identifier released), a second [bg_run_unique_pre]
    under ["y"] is not accepted: it raises the pool's [RuntimeError]. *)
Lemma pre_resubmission_after_shutdown :
  tasks (run [Bg_run_unique_pre "y" (Call "f" []); Worker_take;
              Worker_advance 0 Returns; Bg_exec_shutdown false true]
           (import_module ∅)) = [TPreFn "y" (Call "f" [])]
  ∧ ("y" ∉ reserved
             (run [Bg_run_unique_pre "y" (Call "f" []); Worker_take;
                   Worker_advance 0 Returns; Bg_exec_shutdown false true]
                (import_module ∅)))
  ∧ fst (bg_run_unique_pre "y" (Call "g" [])
           (run [Bg_run_unique_pre "y" (Call "f" []); Worker_take;
                 Worker_advance 0 Returns; Bg_exec_shutdown false true]
              (import_module ∅)))
    = Raise RuntimeError
  ∧ fst (bg_run_unique_pre "y" (Call "g" [])
           (run [Bg_run_unique_pre "y" (Call "f" []); Worker_take;
                 Worker_advance 0 Returns; Bg_exec_shutdown false true]
              (import_module ∅)))
    ≠ Ok true.
Proof.
  split; [by vm_compute|]. split.
  { vm_compute. intros H. inversion H. }
  split; by vm_compute.
Qed.



(** *** Release points, engine by engine *)

Lemma reach_held (mw : pyval) (l : list entry) (e : JobExecutorEngine)
    (i : nat) (t : task) (id : string) :
  engine_reach mw l e -> running (_executor e) !! i = Some t ->
  id ∈ task_holds t -> id ∈ _job_ids e.
Proof.
  intros Hl Hi Hid.
  destruct (reach_reservations _ l e Hl) as [(_ & Hh & _) _].
  by destruct (Hh id (running_holder _ i t id Hi Hid)).
Qed.

Lemma removed_absent (id : string) (ids : gset string) : id ∉ ids ∖ {[id]}.
Proof. rewrite elem_of_difference, elem_of_singleton. by intros [_ []]. Qed.

(** X24.  The release points under overlapping callers.  On every engine
    object of every state that the callers and the workers reach: the
    first step of the wrapper of a pre job removes its identifier from
    [_job_ids], completes no future and leaves the task at the call of
    [fn]; a post job whose body raises goes on to its [finally] block
    with its identifier still reserved; the [finally] block, for a body
    that has returned as for one that has raised, removes the identifier
    and leaves the outcome of the body in the future.  After either
    release a keyed submission of that style under the same identifier to
    that engine is answered [True] as long as its pool is not shut down. *)
Theorem release_points_per_engine (environ : gmap string string)
    (evs : list event) (r i : nat) (e : JobExecutorEngine) (id : string)
    (c c' : call) (o o' : outcome) :
  engines (wrun evs (boot environ)) !! r = Some e ->
  (running (_executor e) !! i = Some (TPreLock id c) ->
   ∃ e', worker_advance i o e = Some e'
         ∧ running (_executor e') !! i = Some (TPreFn id c)
         ∧ (id ∉ _job_ids e')
         ∧ finished (_executor e') = finished (_executor e)
         ∧ (shutdown_flag (_executor e') = false ->
            fst (engine_method (Sub_unique Pre id c') e') = Ok true))
  ∧ (running (_executor e) !! i = Some (TPostFn id c) ->
     ∃ e', worker_advance i Raises e = Some e'
           ∧ running (_executor e') !! i = Some (TPostFinally id c Raises)
           ∧ id ∈ _job_ids e')
  ∧ (running (_executor e) !! i = Some (TPostFinally id c o) ->
     ∃ e', worker_advance i o' e = Some e'
           ∧ (id ∉ _job_ids e')
           ∧ finished (_executor e')
             = finished (_executor e) ++ [outcome_result o]
           ∧ (shutdown_flag (_executor e') = false ->
              fst (engine_method (Sub_unique Post id c') e') = Ok true)).
Proof.
  intros He. destruct (engine_history environ evs r e He) as (l & Hl & _).
  assert (∀ t, running (_executor e) !! i = Some t -> id ∈ task_holds t ->
               id ∈ _job_ids e) as Hheld.
  { intros t. by apply (reach_held _ l e i t id Hl). }
  split; [|split]; intros Hi;
    (assert (id ∈ _job_ids e) as Hin by (apply (Hheld _ Hi); by left)).
  - exists (task_continue i (TPreFn id c) (_job_ids e ∖ {[id]}) e).
    split; [unfold worker_advance, set_remove; by rewrite Hi, decide_True|].
    split; [simpl; apply list_lookup_insert_eq; by apply lookup_lt_Some in Hi|].
    split; [apply removed_absent|]. split; [done|].
    intros Hs. apply _submit_job_accepted; [apply removed_absent|done].
  - exists (task_continue i (TPostFinally id c Raises) (_job_ids e) e).
    split; [unfold worker_advance; by rewrite Hi|].
    split; [simpl; apply list_lookup_insert_eq; by apply lookup_lt_Some in Hi|].
    done.
  - exists (task_finish i (outcome_result o) (_job_ids e ∖ {[id]}) e).
    split; [unfold worker_advance, set_remove; by rewrite Hi, decide_True|].
    split; [apply removed_absent|]. split; [done|].
    intros Hs. apply _submit_job_accepted; [apply removed_absent|done].
Qed.

Lemma release_points_per_engine_witness :
  engines (wrun [Enter (Sub_unique Post "x" (Call "f" []));
                 Enter (Sub_unique Post "x" (Call "g" []));
                 Move 0; Move 1; Move 0; Move 0; Move 0; Move 0;
                 Move 1; Move 1; Move 1; Move 1; Take 0; Advance 0 0 Raises]
             (boot ∅)) !! 0%nat
  = Some {| _executor :=
              {| max_workers := 4; work_queue := [];
                 running := [TPostFinally "x" (Call "f" []) Raises];
                 shutdown_flag := false; cancelled := []; finished := [] |};
            _job_ids := {["x"]} |}
  ∧ ∃ e', worker_advance 0 Returns
            {| _executor :=
                 {| max_workers := 4; work_queue := [];
                    running := [TPostFinally "x" (Call "f" []) Raises];
                    shutdown_flag := false; cancelled := [];
                    finished := [] |};
               _job_ids := {["x"]} |} = Some e'
          ∧ ("x" ∉ _job_ids e')
          ∧ finished (_executor e') = [] ++ [Raise JobFailure]
          ∧ (shutdown_flag (_executor e') = false ->
             fst (engine_method (Sub_unique Post "x" (Call "h" [])) e')
             = Ok true).
Proof.
  assert (engines (wrun [Enter (Sub_unique Post "x" (Call "f" []));
                         Enter (Sub_unique Post "x" (Call "g" []));
                         Move 0; Move 1; Move 0; Move 0; Move 0; Move 0;
                         Move 1; Move 1; Move 1; Move 1; Take 0;
                         Advance 0 0 Raises] (boot ∅)) !! 0%nat
          = Some {| _executor :=
                      {| max_workers := 4; work_queue := [];
                         running := [TPostFinally "x" (Call "f" []) Raises];
                         shutdown_flag := false; cancelled := [];
                         finished := [] |};
                    _job_ids := {["x"]} |}) as He
    by (vm_compute; reflexivity).
  split; [exact He|].
  exact (proj2 (proj2 (release_points_per_engine ∅ _ 0 0 _ "x"
                         (Call "f" []) (Call "h" []) Raises Returns He))
           eq_refl).
Defined.

(** *** What the futures hold, engine by engine *)

Lemma reach_futures (mw : pyval) (l : list entry) (e : JobExecutorEngine) :
  engine_reach mw l e -> Forall of_body (finished (_executor e)).
Proof.
  induction 1 as [e Hi|s l e Hl IH|wt cp l e Hl IH|l e e' Hl IH Ht
                  |i o l e e' Hl IH Ha].
  - apply init_ok in Hi as (n & _ & _ & ->). constructor.
  - destruct s as [c|k id c]; simpl.
    + unfold submit_job, pool_submit.
      by destruct (shutdown_flag (_executor e)).
    + unfold _submit_job, pool_submit.
      destruct (decide (id ∈ _job_ids e)); [done|].
      by destruct (shutdown_flag (_executor e)).
  - done.
  - revert Ht. unfold worker_take.
    destruct (work_queue (_executor e)) as [|w q]; [done|].
    case_match; [|done]. by intros [= <-].
  - destruct (worker_advance_futures i o e e' Ha) as (l' & -> & Hl').
    { intros j t id. by apply (reach_held _ l e j t id Hl). }
    apply Forall_app. by split.
Qed.

(** X25.  On every engine object, however the callers overlap, the future
    of every finished task holds the outcome of the job body, the value it
    returned or the failure it raised: the [remove] of the wrappers always
    finds its identifier in the [_job_ids] of its own engine, so no
    wrapper ends with [KeyError]. *)
Theorem futures_hold_body_outcomes (environ : gmap string string)
    (evs : list event) (r : nat) (e : JobExecutorEngine) :
  engines (wrun evs (boot environ)) !! r = Some e ->
  Forall of_body (finished (_executor e))
  ∧ Raise KeyError ∉ finished (_executor e).
Proof.
  intros He. destruct (engine_history environ evs r e He) as (l & Hl & _).
  pose proof (reach_futures _ l e Hl) as Hf. split; [done|].
  intros Hx. rewrite Forall_forall in Hf. by destruct (Hf _ Hx).
Qed.

Lemma futures_hold_body_outcomes_witness :
  engines (wrun [Enter (Sub_unique Pre "x" (Call "f" [])); Move 0; Move 0;
                 Move 0; Move 0; Move 0; Take 0; Advance 0 0 Returns;
                 Advance 0 0 Raises] (boot ∅)) !! 0%nat
  = Some {| _executor :=
              {| max_workers := 4; work_queue := []; running := [];
                 shutdown_flag := false; cancelled := [];
                 finished := [Raise JobFailure] |};
            _job_ids := ∅ |}
  ∧ Forall of_body [Raise JobFailure].
Proof.
  assert (engines (wrun [Enter (Sub_unique Pre "x" (Call "f" [])); Move 0;
                         Move 0; Move 0; Move 0; Move 0; Take 0;
                         Advance 0 0 Returns; Advance 0 0 Raises]
                     (boot ∅)) !! 0%nat
          = Some {| _executor :=
                      {| max_workers := 4; work_queue := []; running := [];
                         shutdown_flag := false; cancelled := [];
                         finished := [Raise JobFailure] |};
                    _job_ids := ∅ |}) as He
    by (vm_compute; reflexivity).
  split; [exact He|].
  exact (proj1 (futures_hold_body_outcomes ∅ _ 0 _ He)).
Defined.

End BgThreadsMore.

(** * More facts about the path utilities *)

Section PathsMore.
Import Paths.

(** ** [hash_file_sha1]: sizes that are not positive, and the digest *)

Lemma hexdigest_sha1 : hexdigest sha1 = sha1_hex [].
Proof. by rewrite sha1_of_nil, hexdigest_sha1_of. Qed.

Lemma update_sha1 (buf : list byte) : update buf sha1 = sha1_of buf.
Proof. by rewrite sha1_of_nil, update_sha1_of. Qed.

(** X11.  The buffer sizes that are not positive.  With [buffer_size=0]
    the first [read] returns no byte, the loop is not entered and the
    function returns the digest of the empty message,
    da39a3ee5e6b4b0d3255bfef95601890afd80709, whatever the file holds.  With
    [buffer_size=-1] the first [read] returns the whole file and the second
    one nothing: the digest is the one of the contents, after two tests of
    the loop condition however long the file is, and whatever memory there
    is for the buffers. *)
Theorem hash_file_sha1_zero_and_minus_one (fs : gmap string (list byte))
    (file_target : string) (contents : list byte) (memory : Z)
    (fuel : nat) :
  fs !! file_target = Some contents ->
  hash_file_sha1 (S fuel) memory fs file_target 0
  = Some (Ok "da39a3ee5e6b4b0d3255bfef95601890afd80709")
  ∧ hash_file_sha1 (S (S fuel)) memory fs file_target (-1)
    = Some (Ok (sha1_hex contents)).
Proof.
  intros Hfs. unfold hash_file_sha1. rewrite Hfs.
  assert (∀ f, file_read memory 0 f = Ok ([], f)) as H0.
  { intros f. unfold file_read. cbn [Z.ltb Z.eqb Z.compare orb andb].
    change (bytes_max <? 0) with false. cbv beta iota.
    change (Z.to_nat 0) with 0%nat. by rewrite take_0, drop_0. }
  assert (∀ f, file_read memory (-1) f = Ok (f, [])) as H1 by done.
  split.
  - rewrite H0. cbn [hash_loop length Nat.ltb Nat.leb].
    by rewrite hexdigest_sha1, sha1_hex_empty.
  - rewrite H1.
    destruct contents as [|b bs].
    + cbn [hash_loop length Nat.ltb Nat.leb]. by rewrite hexdigest_sha1.
    + change (hash_loop (S (S fuel)) memory (-1) sha1 (b :: bs) [])
        with (match file_read memory (-1) [] with
              | Ok (buf', f') =>
                  hash_loop (S fuel) memory (-1) (update (b :: bs) sha1)
                    buf' f'
              | Raise x => Some (Raise x)
              end).
      rewrite H1. cbn [hash_loop length Nat.ltb Nat.leb].
      by rewrite update_sha1, hexdigest_sha1_of.
Qed.

Lemma hash_file_sha1_zero_and_minus_one_witness :
  hash_file_sha1 1 1048576 {["a.txt" := bytes_of_string "abc"]} "a.txt" 0
  = Some (Ok "da39a3ee5e6b4b0d3255bfef95601890afd80709")
  ∧ hash_file_sha1 2 1048576 {["a.txt" := bytes_of_string "abc"]} "a.txt"
      (-1)
    = Some (Ok (sha1_hex (bytes_of_string "abc"))).
Proof.
  apply (hash_file_sha1_zero_and_minus_one
           {["a.txt" := bytes_of_string "abc"]} "a.txt"
           (bytes_of_string "abc") 1048576 0).
  vm_compute. reflexivity.
Defined.

Lemma length_append (s1 s2 : string) :
  String.length (s1 +:+ s2) = (String.length s1 + String.length s2)%nat.
Proof. induction s1 as [|c s1 IH]; simpl; [done|]. by rewrite IH. Qed.

Lemma all_hex_append (s1 s2 : string) :
  all_hex (s1 +:+ s2) = all_hex s1 && all_hex s2.
Proof.
  induction s1 as [|c s1 IH]; simpl; [done|].
  by rewrite IH, andb_assoc.
Qed.

Lemma hex_digit_hex (z : Z) : is_hex_digit (hex_digit (z mod 16)) = true.
Proof.
  unfold hex_digit.
  assert (Z.to_nat (z mod 16) < 16)%nat as Hk
    by (pose proof (Z.mod_pos_bound z 16); lia).
  destruct (Z.to_nat (z mod 16)) as [|k]; [done|].
  do 15 (destruct k as [|k]; [done|]). lia.
Qed.

Lemma hex_word_format (n : nat) (z : Z) :
  String.length (hex_word n z) = n ∧ all_hex (hex_word n z) = true.
Proof.
  revert z. induction n as [|n IH]; intros z; [done|].
  cbn [hex_word]. destruct (IH (z / 16)) as [Hl Hh].
  rewrite length_append, all_hex_append, Hl, Hh. cbn [all_hex String.length].
  rewrite hex_digit_hex. split; [lia|done].
Qed.

Lemma hex_words_format (s : sha1_words) :
  String.length (hex_words s) = 40%nat ∧ all_hex (hex_words s) = true.
Proof.
  unfold hex_words.
  rewrite !length_append, !all_hex_append.
  destruct (hex_word_format 8 (wa s)) as [-> ->].
  destruct (hex_word_format 8 (wb s)) as [-> ->].
  destruct (hex_word_format 8 (wc s)) as [-> ->].
  destruct (hex_word_format 8 (wd s)) as [-> ->].
  destruct (hex_word_format 8 (we s)) as [-> ->].
  done.
Qed.

(** X12.  Whenever [hash_file_sha1] returns, for any file, any
    [buffer_size] and any number of iterations, what it returns is a text
    of 40 characters, each a digit or a lower-case letter from a to f. *)
Theorem hash_file_sha1_digest_format (fs : gmap string (list byte))
    (file_target : string) (memory buffer_size : Z) (fuel : nat)
    (d : string) :
  hash_file_sha1 fuel memory fs file_target buffer_size = Some (Ok d) ->
  String.length d = 40%nat ∧ all_hex d = true.
Proof.
  unfold hash_file_sha1. destruct (fs !! file_target); [|done].
  destruct (file_read memory buffer_size _) as [[buf f]|x]; [|done].
  destruct (hash_loop fuel memory buffer_size sha1 buf f) as [[o|x]|];
    [|done|done].
  intros [= <-]. apply hex_words_format.
Qed.

Lemma hash_file_sha1_digest_format_witness :
  String.length "a9993e364706816aba3e25717850c26c9cd0d89d" = 40%nat
  ∧ all_hex "a9993e364706816aba3e25717850c26c9cd0d89d" = true.
Proof.
  apply (hash_file_sha1_digest_format
           {["a.txt" := bytes_of_string "abc"]} "a.txt" 1048576 2 5).
  vm_compute. reflexivity.
Defined.

(** ** [_common_path]: the longest common prefix *)

Lemma common_parts_prefix (l1 l2 common c r1 r2 : list string) :
  common_parts l1 l2 common = (c, r1, r2) ->
  ∃ k, c = common ++ k ∧ l1 = k ++ r1 ∧ l2 = k ++ r2
       ∧ (r1 = [] ∨ r2 = [] ∨ head r1 ≠ head r2).
Proof.
  revert l2 common. induction l1 as [|a l1 IH]; intros l2 common.
  { cbn [common_parts]. intros [= <- <- <-]. exists [].
    rewrite app_nil_r. repeat split; auto. }
  destruct l2 as [|b l2].
  { cbn [common_parts]. intros [= <- <- <-]. exists [].
    rewrite app_nil_r. repeat split; auto. }
  cbn [common_parts]. destruct (String.eqb_spec a b) as [<-|Hab].
  - cbn [negb]. intros (k & -> & -> & -> & Hd)%IH.
    exists (a :: k). rewrite <- app_assoc. repeat split; auto.
  - cbn [negb]. intros [= <- <- <-]. exists []. rewrite app_nil_r.
    split; [done|]. split; [done|]. split; [done|].
    right; right. simpl. by intros [= ?].
Qed.

Lemma common_parts_acc (l1 l2 common : list string) :
  common_parts l1 l2 common
  = (common ++ (common_parts l1 l2 []).1.1, (common_parts l1 l2 []).1.2,
     (common_parts l1 l2 []).2).
Proof.
  revert l2 common. induction l1 as [|a l1 IH]; intros l2 common.
  { destruct l2; cbn; by rewrite app_nil_r. }
  destruct l2 as [|b l2]; [cbn; by rewrite app_nil_r|].
  cbn [common_parts]. destruct (negb (a =? b)%string).
  { cbn. by rewrite app_nil_r. }
  rewrite (IH l2 (common ++ [a])), (IH l2 ([] ++ [a])). cbn [fst snd].
  by rewrite <- app_assoc.
Qed.

Lemma common_parts_swap (l1 l2 : list string) :
  common_parts l2 l1 []
  = ((common_parts l1 l2 []).1.1, (common_parts l1 l2 []).2,
     (common_parts l1 l2 []).1.2).
Proof.
  revert l2. induction l1 as [|a l1 IH]; intros l2.
  { by destruct l2. }
  destruct l2 as [|b l2]; [done|].
  cbn [common_parts]. rewrite (String.eqb_sym b a).
  destruct (negb (a =? b)%string) eqn:Hab; [done|].
  apply negb_false_iff, String.eqb_eq in Hab as <-.
  rewrite (common_parts_acc l2 l1 ([] ++ [a])),
    (common_parts_acc l1 l2 ([] ++ [a])), (IH l2).
  done.
Qed.

(** X13.  [_common_path(l1, l2)], called with its default, returns: it
    gives the longest common prefix of the two lists and what is left of
    each, so that each list is the prefix followed by its own rest, and the
    rests, when both have parts, begin with different parts.  With the
    arguments exchanged the prefix is the same and the rests are
    exchanged. *)
Theorem _common_path_longest_prefix (m : module_state) (fuel : nat)
    (l1 l2 : list string) :
  pristine m -> (length l1 < fuel)%nat -> (length l2 < fuel)%nat ->
  ∃ k r1 r2 m1 m2,
    call_common_path fuel l1 l2 m = Some ((k, r1, r2), m1)
    ∧ call_common_path fuel l2 l1 m = Some ((k, r2, r1), m2)
    ∧ l1 = k ++ r1 ∧ l2 = k ++ r2
    ∧ (r1 = [] ∨ r2 = [] ∨ head r1 ≠ head r2).
Proof.
  intros Hm Hf1 Hf2.
  destruct (call_common_path_spec fuel l1 l2 m Hm Hf1) as (m1 & E1 & _).
  destruct (call_common_path_spec fuel l2 l1 m Hm Hf2) as (m2 & E2 & _).
  destruct (common_parts l1 l2 []) as [[c r1] r2] eqn:Hc.
  destruct (common_parts_prefix _ _ _ _ _ _ Hc) as (k & -> & H1 & H2 & Hd).
  rewrite (common_parts_swap l1 l2), Hc in E2. cbn [fst snd] in E2.
  exists k, r1, r2, m1, m2. done.
Qed.

Lemma _common_path_longest_prefix_witness :
  ∃ k r1 r2 m1 m2,
    call_common_path 5 ["a"; "b"; "c"] ["a"; "b"; "x"; "y"] import_module
    = Some ((k, r1, r2), m1)
    ∧ call_common_path 5 ["a"; "b"; "x"; "y"] ["a"; "b"; "c"] import_module
      = Some ((k, r2, r1), m2)
    ∧ ["a"; "b"; "c"] = k ++ r1 ∧ ["a"; "b"; "x"; "y"] = k ++ r2
    ∧ (r1 = [] ∨ r2 = [] ∨ head r1 ≠ head r2).
Proof.
  apply (_common_path_longest_prefix import_module 5).
  - by split.
  - simpl. lia.
  - simpl. lia.
Defined.

(** ** [relative_path] as a function of its two paths *)

Lemma _path_split_valid (fuel : nat) (p : string) (rest : nat)
    (h : list (list string)) (r : nat) (h' : list (list string)) :
  _path_split fuel p rest h = Some (r, h') -> (r < length h')%nat.
Proof.
  revert p rest h. induction fuel as [|fuel IH]; intros p rest h; [done|].
  simpl. destruct (osp_split p) as [hd t].
  destruct (String.length hd <? 1)%nat.
  { intros [= <- <-]. rewrite !length_app. simpl. lia. }
  destruct (String.length t <? 1)%nat.
  { intros [= <- <-]. rewrite !length_app. simpl. lia. }
  apply IH.
Qed.

Lemma _common_path_valid (fuel : nat) (l1 l2 common : nat)
    (h : list (list string)) (t : nat * nat * nat)
    (h' : list (list string)) :
  (l1 < length h)%nat -> (l2 < length h)%nat -> (common < length h)%nat ->
  _common_path fuel l1 l2 common h = Some (t, h') ->
  (t.1.1 < length h')%nat ∧ (t.1.2 < length h')%nat ∧ (t.2 < length h')%nat.
Proof.
  revert l1 l2 common h.
  induction fuel as [|fuel IH]; intros l1 l2 common h H1 H2 Hc; [done|].
  cbn [_common_path].
  destruct (contents l1 h) as [|a k1]; [by intros [= <- <-]|].
  destruct (contents l2 h) as [|b k2]; [by intros [= <- <-]|].
  destruct (negb (a =? b)%string); [by intros [= <- <-]|].
  unfold list_tail, list_add, new_list.
  apply IH; rewrite !length_app; simpl; lia.
Qed.

Lemma path_parts_length (fuel : nat) (p : string) (rest v : list string) :
  path_parts fuel p rest = Some v ->
  (length v <= String.length p + 1 + length rest)%nat.
Proof.
  revert p rest. induction fuel as [|fuel IH]; intros p rest; [done|].
  simpl. destruct (osp_split p) as [hd t] eqn:Hs.
  apply osp_split_length in Hs.
  destruct (String.length hd <? 1)%nat; [intros [= <-]; simpl; lia|].
  destruct (String.length t <? 1)%nat eqn:Ht; [intros [= <-]; simpl; lia|].
  apply Nat.ltb_ge in Ht. intros Hv%IH. simpl in Hv. lia.
Qed.

Lemma contents_insert (a : nat) (v : list string) (h : list (list string)) :
  (a < length h)%nat -> contents a (<[a := v]> h) = v.
Proof. intros Ha. unfold contents. by rewrite list_lookup_insert_eq. Qed.

Lemma contents_insert_ne (a b : nat) (v : list string)
    (h : list (list string)) :
  a ≠ b -> contents b (<[a := v]> h) = contents b h.
Proof. intros Hab. unfold contents. by rewrite list_lookup_insert_ne. Qed.

(** [relative_path] returns, and what it returns is made of the parts of
    its two paths alone. *)
Lemma relative_path_spec (fuel : nat) (p1 p2 : string) (m : module_state) :
  pristine m ->
  (String.length p1 + 1 < fuel)%nat -> (String.length p2 < fuel)%nat ->
  ∃ v1 v2 m',
    path_parts fuel p1 [] = Some v1 ∧ path_parts fuel p2 [] = Some v2
    ∧ relative_path fuel p1 p2 m
      = Some (relative_of (common_parts v1 v2 []).1.2
                (common_parts v1 v2 []).2, m').
Proof.
  intros Hm Hf1 Hf2.
  destruct (pristine_valid m Hm) as (Hr & Hc & Cr & Cc).
  destruct (path_parts_total fuel p1 []) as [v1 Hv1]; [lia|].
  destruct (path_parts_total fuel p2 []) as [v2 Hv2]; [lia|].
  exists v1, v2. unfold relative_path.
  destruct (_path_split_spec fuel p1 (_path_split_rest m) (heap m) v1)
    as (s1 & h1 & E1 & C1 & P1); [done|by rewrite Cr|].
  rewrite E1.
  pose proof (_path_split_valid _ _ _ _ _ _ E1) as V1.
  pose proof (prefix_length _ _ P1) as L1.
  destruct (_path_split_spec fuel p2 (_path_split_rest m) h1 v2)
    as (s2 & h2 & E2 & C2 & P2);
    [lia|by rewrite (contents_prefix _ _ _ P1), Cr|].
  rewrite E2.
  pose proof (_path_split_valid _ _ _ _ _ _ E2) as V2.
  pose proof (prefix_length _ _ P2) as L2.
  assert (contents s1 h2 = v1) as C1'
    by by rewrite (contents_prefix _ _ _ P2).
  assert (contents (_common_path_common m) h2 = []) as Cc'.
  { rewrite (contents_prefix _ _ _ P2) by lia.
    by rewrite (contents_prefix _ _ _ P1). }
  destruct (_common_path_spec fuel s1 s2 (_common_path_common m) h2)
    as ([[c l1] l2] & h3 & E3 & C3 & P3); try lia.
  { rewrite C1'. apply path_parts_length in Hv1. simpl in Hv1. lia. }
  rewrite E3.
  assert (s1 < length h2)%nat as Vs1 by lia.
  assert (_common_path_common m < length h2)%nat as Vc by lia.
  destruct (_common_path_valid fuel s1 s2 (_common_path_common m) h2
              (c, l1, l2) h3 Vs1 V2 Vc E3) as (_ & Vl1 & Vl2).
  cbn [fst snd] in Vl1, Vl2.
  rewrite C1', C2, Cc' in C3. unfold triple_contents in C3.
  cbn [fst snd] in C3.
  destruct (common_parts v1 v2 []) as [[k r1] r2].
  injection C3 as _ Cl1 Cl2. cbn [fst snd].
  unfold new_list. cbv beta iota zeta.
  set (h4 := h3 ++ [[]]).
  assert (length h4 = S (length h3)) as L4
    by (unfold h4; rewrite length_app; simpl; lia).
  assert (contents l1 h4 = r1) as C4 by (unfold h4; by rewrite contents_old).
  assert (contents l2 h4 = r2) as C4' by (unfold h4; by rewrite contents_old).
  assert (contents (length h3) h4 = []) as C4'' by apply contents_new.
  clearbody h4. rewrite C4.
  unfold relative_of.
  set (eff := Z.of_nat (length r1) - Z.of_nat (list_count "." r1)
              - Z.of_nat (list_count "" r1)).
  set (front := if 0 <? eff then [str_repeat "../" (Z.to_nat eff)] else []).
  set (h5 := if 0 <? eff
             then (let (x, h) :=
                     (length h4, h4 ++ [[str_repeat "../" (Z.to_nat eff)]])
                   in list_iadd (length h3) x h)
             else h4).
  assert (contents (length h3) h5 = front ∧ contents l2 h5 = r2
          ∧ (length h3 < length h5)%nat) as (C5 & C5' & L5).
  { unfold h5, front. destruct (0 <? eff); [|split; [done|split; [done|lia]]].
    unfold list_iadd. rewrite contents_new.
    rewrite (contents_old (length h3)), C4'' by lia.
    assert (length h3 < length (h4 ++ [[str_repeat "../" (Z.to_nat eff)]]))%nat
      as Hl by (rewrite length_app; simpl; lia).
    rewrite contents_insert by done.
    rewrite contents_insert_ne by lia.
    rewrite contents_old, length_insert by lia. done. }
  clearbody h5. rewrite C5'.
  set (h6 := if (0 <? length r2)%nat then list_iadd (length h3) l2 h5 else h5).
  assert (contents (length h3) h6 = front ++ r2) as C6.
  { unfold h6. destruct r2 as [|x r2]; simpl.
    - by rewrite app_nil_r.
    - unfold list_iadd. rewrite contents_insert by done.
      by rewrite C5, C5'. }
  rewrite C6. eexists. split; [done|]. split; [done|]. reflexivity.
Qed.

Lemma common_parts_same (v common : list string) :
  common_parts v v common = (common ++ v, [], []).
Proof.
  revert common. induction v as [|a v IH]; intros common.
  { cbn. by rewrite app_nil_r. }
  cbn [common_parts]. rewrite String.eqb_refl. cbn [negb].
  by rewrite IH, <- app_assoc.
Qed.

(** X14.  In a state in which the default lists are still empty,
    [relative_path(p1, p2)] returns for every two paths, and the text that
    it returns is made of the parts of the two paths alone: the same in
    every such state, whatever else the heap holds.  A path relative to
    itself gives the empty text. *)
Theorem relative_path_total (fuel : nat) (p1 p2 : string)
    (m m0 : module_state) :
  pristine m -> pristine m0 ->
  (String.length p1 + 1 < fuel)%nat -> (String.length p2 + 1 < fuel)%nat ->
  ∃ s m' m0' m'',
    relative_path fuel p1 p2 m = Some (s, m')
    ∧ relative_path fuel p1 p2 m0 = Some (s, m0')
    ∧ relative_path fuel p2 p2 m = Some (EmptyString, m'').
Proof.
  intros Hm Hm0 Hf1 Hf2.
  destruct (relative_path_spec fuel p1 p2 m Hm Hf1) as (v1 & v2 & m' & H1 & H2 & E);
    [lia|].
  destruct (relative_path_spec fuel p1 p2 m0 Hm0 Hf1)
    as (v1' & v2' & m0' & H1' & H2' & E0); [lia|].
  destruct (relative_path_spec fuel p2 p2 m Hm Hf2)
    as (w1 & w2 & m'' & G1 & G2 & E'); [lia|].
  rewrite H1 in H1'. injection H1' as <-.
  rewrite H2 in H2'. injection H2' as <-.
  rewrite G1 in G2. injection G2 as <-.
  rewrite common_parts_same in E'. cbn in E'.
  eauto 10.
Qed.

Lemma relative_path_total_witness :
  ∃ s m' m0' m'',
    relative_path 8 "a/b/c" "a/x/y" import_module = Some (s, m')
    ∧ relative_path 8 "a/b/c" "a/x/y"
        {| heap := [["q"]; []; []]; _path_split_rest := 1;
           _common_path_common := 2 |} = Some (s, m0')
    ∧ relative_path 8 "a/x/y" "a/x/y" import_module
      = Some (EmptyString, m'').
Proof.
  apply (relative_path_total 8 "a/b/c" "a/x/y" import_module
           {| heap := [["q"]; []; []]; _path_split_rest := 1;
              _common_path_common := 2 |}).
  - by split.
  - by split.
  - simpl. lia.
  - simpl. lia.
Defined.

(** ** Paths made of components *)

Lemma append_cons (x : ascii) (a b : string) :
  String x a +:+ b = String x (a +:+ b).
Proof. reflexivity. Qed.

Lemma append_nil_l (b : string) : "" +:+ b = b.
Proof. reflexivity. Qed.

Lemma append_assoc (a b c : string) : (a +:+ b) +:+ c = a +:+ (b +:+ c).
Proof.
  induction a as [|x a IH]; [done|]. rewrite !append_cons. by f_equal.
Qed.

Lemma append_nil_r (a : string) : a +:+ "" = a.
Proof.
  induction a as [|x a IH]; [done|]. rewrite append_cons. by f_equal.
Qed.

Lemma append_nonempty (a b : string) : b ≠ "" -> a +:+ b ≠ "".
Proof. destruct a; [done|]. rewrite append_cons. by intros _ [=]. Qed.

Lemma cut_no_sep (s : string) :
  no_sep s = true -> cut_at_last_sep s = ("", s).
Proof.
  induction s as [|c s IH]; simpl; [done|].
  intros [Hc Hs]%andb_prop. rewrite (IH Hs).
  apply negb_true_iff in Hc. by rewrite Hc.
Qed.

Lemma cut_join (s t : string) :
  no_sep t = true -> cut_at_last_sep (s +:+ String "/" t) = (s +:+ "/", t).
Proof.
  intros Ht. induction s as [|c s IH].
  - rewrite !append_nil_l. simpl. by rewrite (cut_no_sep t Ht).
  - rewrite !append_cons. cbn [cut_at_last_sep]. rewrite IH.
    destruct s; by rewrite ?append_cons, ?append_nil_l.
Qed.

Lemma rstrip_keep (s : string) : ends_with_sep s = false -> rstrip_sep s = s.
Proof.
  induction s as [|c s IH]; [done|].
  destruct s as [|c' s].
  - simpl. by intros ->.
  - intros Hs. change (ends_with_sep (String c (String c' s)))
      with (ends_with_sep (String c' s)) in Hs.
    cbn [rstrip_sep]. cbn [rstrip_sep] in IH. by rewrite (IH Hs).
Qed.

Lemma rstrip_snoc (s : string) : rstrip_sep (s +:+ "/") = rstrip_sep s.
Proof.
  induction s as [|c s IH]; [done|].
  rewrite append_cons. cbn [rstrip_sep]. by rewrite IH.
Qed.

Lemma all_sep_append (a b : string) :
  all_sep (a +:+ b) = all_sep a && all_sep b.
Proof.
  induction a as [|x a IH]; [done|].
  rewrite append_cons. cbn [all_sep]. by rewrite IH, andb_assoc.
Qed.

Lemma all_sep_proper (s : string) :
  s ≠ "" -> ends_with_sep s = false -> all_sep s = false.
Proof.
  induction s as [|c s IH]; [done|]. intros _.
  destruct s as [|c' s].
  - simpl. by intros ->.
  - intros Hs. change (ends_with_sep (String c (String c' s)))
      with (ends_with_sep (String c' s)) in Hs.
    cbn [all_sep]. cbn [all_sep] in IH. rewrite IH by done.
    apply andb_false_r.
Qed.

Lemma ends_with_sep_append (s t : string) :
  t ≠ "" -> ends_with_sep (s +:+ t) = ends_with_sep t.
Proof.
  intros Ht. induction s as [|c s IH]; [done|].
  rewrite append_cons. pose proof (append_nonempty s t Ht) as Hn.
  destruct (s +:+ t) as [|c' r] eqn:E; [done|]. exact IH.
Qed.

Lemma component_ends (c : string) :
  component c -> ends_with_sep c = false ∧ starts_with_sep c = false.
Proof.
  intros [Hn Hs]. split.
  - induction c as [|x c IH]; [done|].
    simpl in Hs. apply andb_prop in Hs as [Hx Hc].
    apply negb_true_iff in Hx.
    destruct c as [|y c]; [done|]. by apply IH.
  - destruct c as [|x c]; [done|]. simpl in *.
    apply andb_prop in Hs as [Hx _]. by apply negb_true_iff in Hx.
Qed.

Lemma osp_split_component (c : string) :
  no_sep c = true -> osp_split c = ("", c).
Proof. intros Hc. unfold osp_split. by rewrite (cut_no_sep c Hc). Qed.

Lemma osp_split_join (s t : string) :
  s ≠ "" -> ends_with_sep s = false -> no_sep t = true ->
  osp_split (s +:+ String "/" t) = (s, t).
Proof.
  intros Hn He Ht. unfold osp_split. rewrite (cut_join s t Ht).
  rewrite all_sep_append, (all_sep_proper s Hn He). cbn [andb negb].
  rewrite length_append. simpl String.length.
  replace (String.length s + 1 =? 0)%nat with false
    by (symmetry; apply Nat.eqb_neq; lia).
  cbn [negb andb]. by rewrite rstrip_snoc, rstrip_keep.
Qed.

Lemma osp_split_root (t : string) :
  no_sep t = true -> osp_split (String "/" t) = ("/", t).
Proof.
  intros Ht. unfold osp_split.
  change (String "/" t) with ("" +:+ String "/" t).
  by rewrite (cut_join "" t Ht).
Qed.

Lemma join_parts_cons (c : string) (cs : list string) :
  cs ≠ [] -> join_parts (c :: cs) = c +:+ String "/" (join_parts cs).
Proof. by destruct cs. Qed.

Lemma join_parts_proper (cs : list string) :
  cs ≠ [] -> Forall component cs ->
  join_parts cs ≠ "" ∧ ends_with_sep (join_parts cs) = false.
Proof.
  induction cs as [|c cs IH]; [done|]. intros _ Hcs.
  apply Forall_cons in Hcs as [Hc Hcs].
  destruct cs as [|c' cs].
  - split; [apply Hc|apply (component_ends c Hc)].
  - destruct IH as [Hn He]; [done|done|].
    rewrite join_parts_cons by done. split.
    + by apply append_nonempty.
    + rewrite ends_with_sep_append by done.
      destruct (join_parts (c' :: cs)) eqn:E; done.
Qed.

Lemma join_parts_snoc (cs : list string) (c : string) :
  cs ≠ [] -> join_parts (cs ++ [c]) = join_parts cs +:+ String "/" c.
Proof.
  induction cs as [|a cs IH]; [done|]. intros _.
  destruct cs as [|b cs]; [done|].
  change ((a :: b :: cs) ++ [c]) with (a :: ((b :: cs) ++ [c])).
  rewrite join_parts_cons by done. rewrite IH by done.
  rewrite (join_parts_cons a (b :: cs)) by done.
  by rewrite append_assoc.
Qed.

Lemma join_parts_length (cs : list string) :
  Forall component cs -> (length cs <= String.length (join_parts cs))%nat.
Proof.
  induction 1 as [|c cs [Hc _] Hcs IH]; [done|].
  destruct cs as [|c' cs].
  - simpl. destruct c; [done|]. simpl. lia.
  - rewrite join_parts_cons by done. rewrite length_append.
    cbn [String.length length] in *. lia.
Qed.

Lemma component_length (c : string) :
  component c -> (String.length c <? 1)%nat = false.
Proof. intros [Hn _]. destruct c; [done|]. done. Qed.

Lemma nonempty_length (s : string) :
  s ≠ "" -> (String.length s <? 1)%nat = false.
Proof. destruct s; done. Qed.

(** The parts of a relative path and of an absolute one. *)
Lemma path_parts_join (cs : list string) (fuel : nat) (rest : list string) :
  cs ≠ [] -> Forall component cs -> (length cs <= fuel)%nat ->
  path_parts fuel (join_parts cs) rest = Some (cs ++ rest).
Proof.
  revert fuel rest. induction cs as [|c cs IH] using rev_ind; [done|].
  intros fuel rest _ Hcs Hf.
  apply Forall_app in Hcs as [Hcs Hc]. rewrite Forall_singleton in Hc.
  rewrite length_app in Hf. simpl in Hf.
  destruct fuel as [|fuel]; [lia|]. cbn [path_parts].
  destruct cs as [|a cs].
  - cbn [app join_parts]. rewrite (osp_split_component c) by apply Hc. done.
  - rewrite join_parts_snoc by done.
    destruct (join_parts_proper (a :: cs)) as [Hn He]; [done|done|].
    rewrite (osp_split_join _ c Hn He) by apply Hc.
    rewrite (nonempty_length _ Hn), (component_length c Hc).
    rewrite IH; [|done|done|simpl in *; lia].
    by rewrite <- app_assoc.
Qed.

Lemma path_parts_root (fuel : nat) (rest : list string) :
  path_parts (S fuel) "/" rest = Some ("/" :: rest).
Proof. done. Qed.

Lemma path_parts_join_root (cs : list string) (fuel : nat)
    (rest : list string) :
  cs ≠ [] -> Forall component cs -> (length cs < fuel)%nat ->
  path_parts fuel (String "/" (join_parts cs)) rest
  = Some ("/" :: cs ++ rest).
Proof.
  revert fuel rest. induction cs as [|c cs IH] using rev_ind; [done|].
  intros fuel rest _ Hcs Hf.
  apply Forall_app in Hcs as [Hcs Hc]. rewrite Forall_singleton in Hc.
  rewrite length_app in Hf. simpl in Hf.
  destruct fuel as [|fuel]; [lia|]. cbn [path_parts].
  destruct cs as [|a cs].
  - cbn [app join_parts]. rewrite (osp_split_root c) by apply Hc.
    rewrite (component_length c Hc). cbn [String.length Nat.ltb Nat.leb].
    destruct fuel as [|fuel]; [simpl in Hf; lia|]. done.
  - rewrite join_parts_snoc by done.
    destruct (join_parts_proper (a :: cs)) as [Hn He]; [done|done|].
    change (String "/" (join_parts (a :: cs) +:+ String "/" c))
      with (String "/" (join_parts (a :: cs)) +:+ String "/" c).
    rewrite (osp_split_join (String "/" (join_parts (a :: cs))) c);
      [|done| |apply Hc].
    2:{ change (String "/" (join_parts (a :: cs)))
          with ("/" +:+ join_parts (a :: cs)).
        by rewrite ends_with_sep_append. }
    rewrite (component_length c Hc). cbn [String.length Nat.ltb Nat.leb].
    rewrite IH; [|done|done|simpl in *; lia].
    by rewrite <- app_assoc.
Qed.

(** A separator at the end stops the splitting. *)
Lemma path_parts_trailing (s : string) (fuel : nat) (rest : list string) :
  s ≠ "" -> ends_with_sep s = false ->
  path_parts (S fuel) (s +:+ "/") rest = Some (s :: rest).
Proof.
  intros Hn He. cbn [path_parts].
  rewrite (osp_split_join s "" Hn He) by done.
  by rewrite (nonempty_length _ Hn).
Qed.

(** [osp.join] of components. *)
Lemma join_step_proper (s c : string) :
  s ≠ "" -> ends_with_sep s = false -> component c ->
  join_step s c = s +:+ String "/" c.
Proof.
  intros Hn He Hc. unfold join_step.
  destruct (component_ends c Hc) as [_ ->]. rewrite He.
  destruct s; [done|]. done.
Qed.

Lemma join_step_sep (s c : string) :
  ends_with_sep s = true -> component c -> join_step s c = s +:+ c.
Proof.
  intros He Hc. unfold join_step.
  destruct (component_ends c Hc) as [_ ->]. rewrite He.
  by rewrite orb_true_r.
Qed.

Lemma foldl_join_proper (cs : list string) (s : string) :
  s ≠ "" -> ends_with_sep s = false -> Forall component cs ->
  foldl join_step s cs
  = match cs with [] => s | _ => s +:+ String "/" (join_parts cs) end.
Proof.
  revert s. induction cs as [|c cs IH]; intros s Hn He Hcs; [done|].
  apply Forall_cons in Hcs as [Hc Hcs]. cbn [foldl].
  rewrite (join_step_proper s c Hn He Hc).
  rewrite IH; [| |  |done].
  - destruct cs as [|c' cs]; [done|].
    rewrite (join_parts_cons c (c' :: cs)) by done.
    change (String "/" c) with ("/" +:+ c).
    change (String "/" (join_parts (c' :: cs)))
      with ("/" +:+ join_parts (c' :: cs)).
    change (String "/" (c +:+ "/" +:+ join_parts (c' :: cs)))
      with ("/" +:+ (c +:+ "/" +:+ join_parts (c' :: cs))).
    by rewrite <- !append_assoc.
  - by apply append_nonempty.
  - rewrite ends_with_sep_append by done.
    destruct (component_ends c Hc) as [Hce _]. destruct Hc as [Hcn _].
    destruct c; done.
Qed.

Lemma foldl_join_sep (cs : list string) (s : string) :
  ends_with_sep s = true -> Forall component cs ->
  foldl join_step s cs = s +:+ join_parts cs.
Proof.
  intros He Hcs. destruct cs as [|c cs].
  { simpl. by rewrite append_nil_r. }
  apply Forall_cons in Hcs as [Hc Hcs]. cbn [foldl].
  rewrite (join_step_sep s c He Hc).
  destruct (component_ends c Hc) as [Hce _].
  rewrite foldl_join_proper; [| | |done].
  - destruct cs as [|c' cs]; [done|].
    rewrite (join_parts_cons c (c' :: cs)) by done.
    by rewrite append_assoc.
  - apply append_nonempty, Hc.
  - rewrite ends_with_sep_append; [done|apply Hc].
Qed.

(** X15.  A path made of components (texts that are not empty and hold no
    separator) joined by single separators: [_path_split] returns its
    components in order, after ["/"] when the path is absolute, and
    [osp.join] of the parts gives the path back.  When the path ends with a
    separator the splitting stops at once: the whole of what is before the
    last separator comes back as one part. *)
Theorem _path_split_components (m : module_state) (fuel : nat)
    (cs : list string) :
  pristine m -> cs ≠ [] -> Forall component cs ->
  (String.length (join_parts cs) + 1 < fuel)%nat ->
  ∃ m1 m2 m3,
    call_path_split fuel (join_parts cs) m = Some (cs, m1)
    ∧ call_path_split fuel ("/" +:+ join_parts cs) m = Some ("/" :: cs, m2)
    ∧ call_path_split fuel (join_parts cs +:+ "/") m
      = Some ([join_parts cs], m3)
    ∧ osp_join (default "" (head cs)) (tail cs) = join_parts cs
    ∧ osp_join "/" cs = "/" +:+ join_parts cs.
Proof.
  intros Hm Hn Hcs Hf.
  pose proof (join_parts_length cs Hcs) as Hl.
  destruct (join_parts_proper cs Hn Hcs) as [Hjn Hje].
  destruct (call_path_split_spec fuel (join_parts cs) m Hm)
    as (v1 & m1 & Hv1 & E1 & _); [lia|].
  destruct (call_path_split_spec fuel ("/" +:+ join_parts cs) m Hm)
    as (v2 & m2 & Hv2 & E2 & _); [rewrite length_append; simpl; lia|].
  destruct (call_path_split_spec fuel (join_parts cs +:+ "/") m Hm)
    as (v3 & m3 & Hv3 & E3 & _); [rewrite length_append; simpl; lia|].
  rewrite path_parts_join in Hv1 by (done || lia).
  change ("/" +:+ join_parts cs) with (String "/" (join_parts cs)) in Hv2.
  rewrite path_parts_join_root in Hv2 by (done || lia).
  destruct fuel as [|fuel]; [lia|].
  rewrite path_parts_trailing in Hv3 by done.
  rewrite app_nil_r in Hv1, Hv2.
  injection Hv1 as <-. injection Hv2 as <-. injection Hv3 as <-.
  exists m1, m2, m3. split; [done|]. split; [done|]. split; [done|]. split.
  - destruct cs as [|c cs]; [done|].
    apply Forall_cons in Hcs as [Hc Hcs]. cbn [head tail default].
    unfold osp_join. destruct (component_ends c Hc) as [Hce _].
    rewrite foldl_join_proper; [|apply Hc|done|done].
    destruct cs; reflexivity.
  - unfold osp_join. by rewrite foldl_join_sep.
Qed.

Lemma _path_split_components_witness :
  ∃ m1 m2 m3,
    call_path_split 8 (join_parts ["a"; "b"; "c"]) import_module
    = Some (["a"; "b"; "c"], m1)
    ∧ call_path_split 8 ("/" +:+ join_parts ["a"; "b"; "c"]) import_module
      = Some (["/"; "a"; "b"; "c"], m2)
    ∧ call_path_split 8 (join_parts ["a"; "b"; "c"] +:+ "/") import_module
      = Some ([join_parts ["a"; "b"; "c"]], m3)
    ∧ osp_join (default "" (head ["a"; "b"; "c"])) (tail ["a"; "b"; "c"])
      = join_parts ["a"; "b"; "c"]
    ∧ osp_join "/" ["a"; "b"; "c"] = "/" +:+ join_parts ["a"; "b"; "c"].
Proof.
  apply (_path_split_components import_module 8 ["a"; "b"; "c"]).
  - by split.
  - done.
  - repeat constructor; done.
  - simpl. lia.
Defined.

(** ** [relative_path] of paths made of components *)

Lemma common_parts_app (k r1 r2 common : list string) :
  r1 = [] ∨ r2 = [] ∨ head r1 ≠ head r2 ->
  common_parts (k ++ r1) (k ++ r2) common = (common ++ k, r1, r2).
Proof.
  intros Hd. revert common. induction k as [|a k IH]; intros common.
  - rewrite app_nil_r. cbn [app].
    destruct r1 as [|a r1]; [done|]. destruct r2 as [|b r2]; [done|].
    cbn [common_parts]. destruct (String.eqb_spec a b) as [->|Hab]; [|done].
    by destruct Hd as [?|[?|?]].
  - cbn [app common_parts]. rewrite String.eqb_refl. cbn [negb].
    by rewrite IH, <- app_assoc.
Qed.

Lemma list_count_le (x : string) (l : list string) :
  (list_count x l <= length l)%nat.
Proof. apply length_filter. Qed.

Lemma list_count_component (l : list string) :
  Forall component l -> list_count "" l = 0%nat.
Proof.
  unfold list_count. induction 1 as [|c l [Hc _] Hl IH]; [done|].
  by rewrite filter_cons_False.
Qed.

Lemma str_repeat_ends (n : nat) :
  ends_with_sep (str_repeat "../" (S n)) = true.
Proof.
  induction n as [|n IH]; [done|].
  change (str_repeat "../" (S (S n)))
    with ("../" +:+ str_repeat "../" (S n)).
  rewrite ends_with_sep_append; [done|].
  change (str_repeat "../" (S n)) with ("../" +:+ str_repeat "../" n).
  done.
Qed.

Lemma osp_join_components (cs : list string) :
  Forall component cs ->
  match cs with [] => "" | a :: p => osp_join a p end = join_parts cs.
Proof.
  intros Hcs. destruct cs as [|c cs]; [done|].
  apply Forall_cons in Hcs as [Hc Hcs]. unfold osp_join.
  destruct (component_ends c Hc) as [Hce _].
  rewrite foldl_join_proper; [|apply Hc|done|done].
  destruct cs; reflexivity.
Qed.

Lemma relative_of_components (r1 r2 : list string) :
  Forall component r1 -> Forall component r2 ->
  relative_of r1 r2
  = str_repeat "../" (length r1 - list_count "." r1) +:+ join_parts r2.
Proof.
  intros H1 H2. unfold relative_of.
  rewrite (list_count_component r1 H1).
  pose proof (list_count_le "." r1) as Hle.
  replace (Z.of_nat (length r1) - Z.of_nat (list_count "." r1)
           - Z.of_nat 0)
    with (Z.of_nat (length r1 - list_count "." r1)) by lia.
  destruct (length r1 - list_count "." r1)%nat as [|n] eqn:En.
  - change (0 <? Z.of_nat 0) with false. cbv beta iota. cbn [app str_repeat].
    rewrite append_nil_l. by apply osp_join_components.
  - replace (0 <? Z.of_nat (S n)) with true
      by (symmetry; apply Z.ltb_lt; lia).
    rewrite Nat2Z.id. cbn [app]. unfold osp_join.
    by rewrite foldl_join_sep by (done || apply str_repeat_ends).
Qed.

(** X16.  The arithmetic of [relative_path].  For two paths made of
    components that share their first components [k] and then go on with
    [r1] and [r2], which begin differently unless one of them is empty,
    [relative_path] returns ["../"] once for each component of [r1] other
    than ["."], followed by the components of [r2] joined by separators:
    the way up from the first path to the common directory and down to the
    second.  Two absolute paths give what the two relative ones give. *)
Theorem relative_path_up_and_down (m : module_state) (fuel : nat)
    (k r1 r2 : list string) :
  pristine m ->
  k ++ r1 ≠ [] -> k ++ r2 ≠ [] ->
  Forall component (k ++ r1) -> Forall component (k ++ r2) ->
  r1 = [] ∨ r2 = [] ∨ head r1 ≠ head r2 ->
  (String.length (join_parts (k ++ r1)) + 2 < fuel)%nat ->
  (String.length (join_parts (k ++ r2)) + 2 < fuel)%nat ->
  ∃ m1 m2,
    relative_path fuel (join_parts (k ++ r1)) (join_parts (k ++ r2)) m
    = Some (str_repeat "../" (length r1 - list_count "." r1)
            +:+ join_parts r2, m1)
    ∧ relative_path fuel ("/" +:+ join_parts (k ++ r1))
        ("/" +:+ join_parts (k ++ r2)) m
      = Some (str_repeat "../" (length r1 - list_count "." r1)
              +:+ join_parts r2, m2).
Proof.
  intros Hm Hn1 Hn2 Hc1 Hc2 Hd Hf1 Hf2.
  pose proof (join_parts_length _ Hc1) as Hl1.
  pose proof (join_parts_length _ Hc2) as Hl2.
  assert (Forall component r1) as Hr1 by by apply Forall_app in Hc1 as [_ ?].
  assert (Forall component r2) as Hr2 by by apply Forall_app in Hc2 as [_ ?].
  destruct (relative_path_spec fuel (join_parts (k ++ r1))
              (join_parts (k ++ r2)) m Hm)
    as (v1 & v2 & m1 & Hv1 & Hv2 & E1); [lia|lia|].
  destruct (relative_path_spec fuel ("/" +:+ join_parts (k ++ r1))
              ("/" +:+ join_parts (k ++ r2)) m Hm)
    as (w1 & w2 & m2 & Hw1 & Hw2 & E2);
    [rewrite length_append; simpl; lia|rewrite length_append; simpl; lia|].
  rewrite path_parts_join in Hv1, Hv2 by (done || lia).
  change ("/" +:+ join_parts (k ++ r1))
    with (String "/" (join_parts (k ++ r1))) in Hw1.
  change ("/" +:+ join_parts (k ++ r2))
    with (String "/" (join_parts (k ++ r2))) in Hw2.
  rewrite path_parts_join_root in Hw1, Hw2 by (done || lia).
  rewrite app_nil_r in Hv1, Hv2, Hw1, Hw2.
  injection Hv1 as <-. injection Hv2 as <-.
  injection Hw1 as <-. injection Hw2 as <-.
  rewrite (common_parts_app k r1 r2 [] Hd) in E1.
  change ("/" :: k ++ r1) with (("/" :: k) ++ r1) in E2.
  change ("/" :: k ++ r2) with (("/" :: k) ++ r2) in E2.
  rewrite (common_parts_app ("/" :: k) r1 r2 [] Hd) in E2.
  cbn [fst snd] in E1, E2.
  rewrite (relative_of_components r1 r2 Hr1 Hr2) in E1, E2.
  eauto.
Qed.

Lemma relative_path_up_and_down_witness :
  ∃ m1 m2,
    relative_path 12 (join_parts (["a"] ++ ["b"; "c"]))
      (join_parts (["a"] ++ ["x"; "y"])) import_module
    = Some (str_repeat "../" (length ["b"; "c"] - list_count "." ["b"; "c"])
            +:+ join_parts ["x"; "y"], m1)
    ∧ relative_path 12 ("/" +:+ join_parts (["a"] ++ ["b"; "c"]))
        ("/" +:+ join_parts (["a"] ++ ["x"; "y"])) import_module
      = Some (str_repeat "../" (length ["b"; "c"] - list_count "." ["b"; "c"])
              +:+ join_parts ["x"; "y"], m2).
Proof.
  apply (relative_path_up_and_down import_module 12 ["a"] ["b"; "c"]
           ["x"; "y"]).
  - by split.
  - done.
  - done.
  - repeat constructor; done.
  - repeat constructor; done.
  - right; right. done.
  - simpl. lia.
  - simpl. lia.
Defined.

(** ** Package names and paths *)

Lemma split_no_sep (s : string) : no_sep s = true -> split_sep s = [s].
Proof.
  induction s as [|c s IH]; [done|]. simpl.
  intros [Hc Hs]%andb_prop. apply negb_true_iff in Hc.
  by rewrite Hc, (IH Hs).
Qed.

Lemma split_join (s t : string) :
  no_sep s = true -> split_sep (s +:+ String "/" t) = s :: split_sep t.
Proof.
  induction s as [|c s IH]; [done|]. cbn [no_sep].
  intros [Hc Hs]%andb_prop. apply negb_true_iff in Hc.
  rewrite ?append_cons. cbn [split_sep]. by rewrite Hc, (IH Hs).
Qed.

Lemma split_root (t : string) :
  split_sep (String "/" t) = "" :: split_sep t.
Proof. reflexivity. Qed.

Lemma split_join_parts (cs : list string) :
  cs ≠ [] -> Forall component cs -> split_sep (join_parts cs) = cs.
Proof.
  induction cs as [|c cs IH]; [done|]. intros _ Hcs.
  apply Forall_cons in Hcs as [[_ Hc] Hcs].
  destruct cs as [|c' cs]; [by apply split_no_sep|].
  rewrite join_parts_cons by done. rewrite split_join by done.
  by rewrite IH.
Qed.

Lemma split_join_parts_trailing (cs : list string) :
  cs ≠ [] -> Forall component cs ->
  split_sep (join_parts cs +:+ "/") = cs ++ [""].
Proof.
  induction cs as [|c cs IH]; [done|]. intros _ Hcs.
  apply Forall_cons in Hcs as [[_ Hc] Hcs].
  destruct cs as [|c' cs].
  - cbn [join_parts]. by rewrite (split_join c "" Hc).
  - rewrite join_parts_cons by done. rewrite append_assoc.
    change (String "/" (join_parts (c' :: cs)) +:+ "/")
      with (String "/" (join_parts (c' :: cs) +:+ "/")).
    rewrite split_join by done. by rewrite IH.
Qed.

Lemma normpath_step_plain (i : nat) (acc : list string) (c : string) :
  plain c -> normpath_step i acc c = acc ++ [c].
Proof.
  intros ([Hn _] & Hd & Hdd). unfold normpath_step.
  apply String.eqb_neq in Hn, Hd, Hdd. by rewrite Hn, Hd, Hdd.
Qed.

Lemma normpath_fold_plain (i : nat) (acc cs : list string) :
  Forall plain cs -> foldl (normpath_step i) acc cs = acc ++ cs.
Proof.
  intros Hcs. revert acc.
  induction Hcs as [|c cs Hc Hcs IH]; intros acc; simpl.
  - by rewrite app_nil_r.
  - by rewrite (normpath_step_plain i acc c Hc), IH, <- app_assoc.
Qed.

Lemma normpath_step_skip (i : nat) (acc : list string) :
  normpath_step i acc "" = acc.
Proof. done. Qed.

Lemma plain_component (cs : list string) :
  Forall plain cs -> Forall component cs.
Proof. intros H. eapply Forall_impl; [exact H|]. by intros c [Hc _]. Qed.

Lemma join_parts_first (cs : list string) :
  cs ≠ [] -> Forall component cs ->
  ∃ x r, join_parts cs = String x r ∧ is_sep x = false.
Proof.
  destruct cs as [|c cs]; [done|]. intros _ Hcs.
  apply Forall_cons in Hcs as [Hc _].
  destruct (component_ends c Hc) as [_ Hs]. destruct Hc as [Hn _].
  destruct c as [|x c]; [done|]. simpl in Hs.
  destruct cs as [|c' cs].
  - by exists x, c.
  - rewrite join_parts_cons by done. rewrite append_cons. eauto.
Qed.

Lemma prefix_cons (a b : ascii) (s1 s2 : string) :
  String.prefix (String a s1) (String b s2)
  = if ascii_dec a b then String.prefix s1 s2 else false.
Proof. reflexivity. Qed.

Lemma eqb_nonempty (s : string) : s ≠ "" -> (s =? "")%string = false.
Proof. by intros ?%String.eqb_neq. Qed.

Lemma initial_slashes_relative (x : ascii) (r : string) :
  is_sep x = false -> initial_slashes (String x r) = 0%nat.
Proof. intros Hx. unfold initial_slashes. cbn [starts_with_sep]. by rewrite Hx. Qed.

Lemma initial_slashes_one (x : ascii) (r : string) :
  is_sep x = false -> initial_slashes (String "/" (String x r)) = 1%nat.
Proof.
  intros Hx. unfold initial_slashes. cbn [starts_with_sep].
  change (is_sep "/") with true. cbv beta iota.
  rewrite !prefix_cons.
  destruct (ascii_dec "/" "/") as [_|E]; [|done].
  destruct (ascii_dec "/" x) as [E|E]; [|reflexivity].
  subst x. vm_compute in Hx. discriminate.
Qed.

(** [normpath] keeps a path made of plain components, drops a separator at
    its end and a ["./"] in front, and keeps one leading separator. *)
Lemma normpath_plain (cs : list string) :
  cs ≠ [] -> Forall plain cs ->
  normpath (join_parts cs) = join_parts cs
  ∧ normpath (join_parts cs +:+ "/") = join_parts cs
  ∧ normpath ("/" +:+ join_parts cs) = "/" +:+ join_parts cs
  ∧ normpath ("./" +:+ join_parts cs) = join_parts cs.
Proof.
  intros Hn Hp. pose proof (plain_component cs Hp) as Hc.
  destruct (join_parts_proper cs Hn Hc) as [Hjn _].
  destruct (join_parts_first cs Hn Hc) as (x & r & Hj & Hx).
  assert (initial_slashes (join_parts cs) = 0%nat) as Hi1
    by (rewrite Hj; by apply initial_slashes_relative).
  assert (initial_slashes (join_parts cs +:+ "/") = 0%nat) as Hi2
    by (rewrite Hj, append_cons; by apply initial_slashes_relative).
  assert (initial_slashes (String "/" (join_parts cs)) = 1%nat) as Hi3
    by (rewrite Hj; by apply initial_slashes_one).
  split; [|split; [|split]].
  - unfold normpath. rewrite (eqb_nonempty _ Hjn), Hi1.
    rewrite split_join_parts by done.
    rewrite normpath_fold_plain by done. cbn [app].
    cbn [Nat.eqb]. by rewrite (eqb_nonempty _ Hjn).
  - unfold normpath.
    rewrite (eqb_nonempty (join_parts cs +:+ "/"))
      by by apply append_nonempty.
    rewrite Hi2, split_join_parts_trailing by done.
    rewrite foldl_app, (normpath_fold_plain 0 [] cs Hp). cbn [app foldl].
    rewrite normpath_step_skip.
    cbn [Nat.eqb]. by rewrite (eqb_nonempty _ Hjn).
  - unfold normpath. rewrite append_cons, append_nil_l.
    rewrite (eqb_nonempty (String "/" (join_parts cs))) by done.
    rewrite Hi3, split_root, split_join_parts by done. cbn [foldl].
    rewrite normpath_step_skip, normpath_fold_plain by done.
    cbn [app Nat.eqb str_repeat]. rewrite append_nil_r.
    change ("/" +:+ join_parts cs) with (String "/" (join_parts cs)).
    by rewrite (eqb_nonempty (String "/" (join_parts cs))).
  - unfold normpath.
    change ("./" +:+ join_parts cs)
      with ("." +:+ String "/" (join_parts cs)).
    rewrite (eqb_nonempty ("." +:+ String "/" (join_parts cs)))
      by by apply append_nonempty.
    rewrite (split_join "." (join_parts cs)) by done.
    rewrite split_join_parts by done. cbn [foldl].
    change (normpath_step _ [] ".") with (@nil string).
    rewrite normpath_fold_plain by done.
    change ("." +:+ String "/" (join_parts cs))
      with (String "." (String "/" (join_parts cs))).
    rewrite (initial_slashes_relative "." _) by done.
    cbn [app Nat.eqb]. by rewrite (eqb_nonempty _ Hjn).
Qed.

Lemma replace_char_append (old new : ascii) (a b : string) :
  replace_char old new (a +:+ b)
  = replace_char old new a +:+ replace_char old new b.
Proof.
  induction a as [|x a IH]; [done|].
  rewrite append_cons. cbn [replace_char]. by rewrite IH.
Qed.

Lemma replace_sep_component (c : string) :
  no_sep c = true -> replace_char "/" "." c = c.
Proof.
  induction c as [|x c IH]; [done|]. simpl.
  intros [Hx Hc]%andb_prop. apply negb_true_iff in Hx.
  unfold is_sep in Hx. by rewrite Hx, (IH Hc).
Qed.

Lemma replace_dot_identifier (c : string) :
  no_dot c = true -> replace_char "." "/" c = c.
Proof.
  induction c as [|x c IH]; [done|]. simpl.
  intros [Hx Hc]%andb_prop. apply negb_true_iff in Hx.
  by rewrite Hx, (IH Hc).
Qed.

Lemma replace_join_parts (cs : list string) :
  Forall component cs ->
  replace_char "/" "." (join_parts cs) = join_dots cs.
Proof.
  induction 1 as [|c cs [_ Hc] Hcs IH]; [done|].
  destruct cs as [|c' cs]; [by apply replace_sep_component|].
  rewrite join_parts_cons by done.
  rewrite replace_char_append, (replace_sep_component c Hc).
  cbn [replace_char]. change (Ascii.eqb "/" "/") with true. cbv beta iota.
  by rewrite IH.
Qed.

Lemma replace_join_dots (cs : list string) :
  Forall identifier cs ->
  replace_char "." "/" (join_dots cs) = join_parts cs.
Proof.
  induction 1 as [|c cs [_ Hc] Hcs IH]; [done|].
  destruct cs as [|c' cs]; [by apply replace_dot_identifier|].
  change (join_dots (c :: c' :: cs))
    with (c +:+ String "." (join_dots (c' :: cs))).
  rewrite replace_char_append, (replace_dot_identifier c Hc).
  cbn [replace_char]. change (Ascii.eqb "." ".") with true. cbv beta iota.
  by rewrite IH.
Qed.

Lemma identifier_plain (c : string) : identifier c -> plain c.
Proof.
  intros [Hc Hd]. split; [done|]. split; intros ->; done.
Qed.

(** X17.  Package names and paths.  For a path made of components other
    than ["."] and [".."], [path_to_package] gives the components joined by
    dots; the same with a separator at the end of the path or ["./"] in
    front of it, while the absolute path gives a name that begins with a
    dot.  For a dotted name whose components hold neither a dot nor a
    separator, [package_to_path] gives the components joined by separators,
    and [path_to_package] takes that path back to the name. *)
Theorem package_names_and_paths (cs : list string) :
  cs ≠ [] ->
  (Forall plain cs ->
   path_to_package (join_parts cs) = join_dots cs
   ∧ path_to_package (join_parts cs +:+ "/") = join_dots cs
   ∧ path_to_package ("./" +:+ join_parts cs) = join_dots cs
   ∧ path_to_package ("/" +:+ join_parts cs) = "." +:+ join_dots cs)
  ∧ (Forall identifier cs ->
     package_to_path (join_dots cs) = join_parts cs
     ∧ path_to_package (package_to_path (join_dots cs)) = join_dots cs).
Proof.
  intros Hn.
  assert (Forall plain cs ->
          path_to_package (join_parts cs) = join_dots cs
          ∧ path_to_package (join_parts cs +:+ "/") = join_dots cs
          ∧ path_to_package ("./" +:+ join_parts cs) = join_dots cs
          ∧ path_to_package ("/" +:+ join_parts cs) = "." +:+ join_dots cs)
    as Hplain.
  { intros Hp. destruct (normpath_plain cs Hn Hp) as (N1 & N2 & N3 & N4).
    pose proof (replace_join_parts cs (plain_component cs Hp)) as Hr.
    unfold path_to_package. rewrite N1, N2, N3, N4.
    rewrite replace_char_append, Hr. done. }
  split; [done|]. intros Hi.
  assert (Forall plain cs) as Hp
    by (eapply Forall_impl; [exact Hi|apply identifier_plain]).
  destruct (normpath_plain cs Hn Hp) as (N1 & _).
  assert (package_to_path (join_dots cs) = join_parts cs) as Hpk.
  { unfold package_to_path. by rewrite replace_join_dots. }
  split; [done|]. rewrite Hpk. by apply Hplain.
Qed.

Lemma package_names_and_paths_witness :
  path_to_package (join_parts ["pkg"; "sub"; "mod"]) = "pkg.sub.mod"
  ∧ path_to_package ("/" +:+ join_parts ["pkg"; "sub"; "mod"])
    = ".pkg.sub.mod"
  ∧ package_to_path (join_dots ["pkg"; "sub"; "mod"]) = "pkg/sub/mod".
Proof.
  assert (["pkg"; "sub"; "mod"] ≠ @nil string) as Hn by done.
  destruct (package_names_and_paths ["pkg"; "sub"; "mod"] Hn) as [H1 H2].
  destruct H1 as (P1 & _ & _ & P4).
  { repeat constructor; done. }
  destruct H2 as (Q1 & _).
  { repeat constructor; done. }
  exact (conj P1 (conj P4 Q1)).
Defined.

(** ** A separator at the end of the first path *)

Lemma no_sep_append (a b : string) :
  no_sep (a +:+ b) = no_sep a && no_sep b.
Proof.
  induction a as [|x a IH]; [done|].
  rewrite append_cons. cbn [no_sep]. by rewrite IH, andb_assoc.
Qed.

Lemma join_parts_has_sep (cs : list string) :
  (1 < length cs)%nat -> no_sep (join_parts cs) = false.
Proof.
  destruct cs as [|c [|c' cs]]; [simpl; lia|simpl; lia|]. intros _.
  rewrite join_parts_cons by done. rewrite no_sep_append.
  cbn [no_sep is_sep]. change (Ascii.eqb "/" "/") with true.
  apply andb_false_r.
Qed.

(** X18.  A separator at the end of the first path makes [relative_path]
    forget the directories that the two paths share.  For a first path of
    two components or more followed by a separator, and a second path made
    of components, [_path_split] gives the first path back as one part, no
    part is common, and the result is ["../"] followed by the whole second
    path, whatever the two paths have in common. *)
Theorem relative_path_trailing_separator (m : module_state) (fuel : nat)
    (cs1 cs2 : list string) :
  pristine m -> (1 < length cs1)%nat -> cs2 ≠ [] ->
  Forall component cs1 -> Forall component cs2 ->
  (String.length (join_parts cs1) + 2 < fuel)%nat ->
  (String.length (join_parts cs2) + 1 < fuel)%nat ->
  ∃ m',
    relative_path fuel (join_parts cs1 +:+ "/") (join_parts cs2) m
    = Some ("../" +:+ join_parts cs2, m').
Proof.
  intros Hm Hl1 Hn2 Hc1 Hc2 Hf1 Hf2.
  assert (cs1 ≠ []) as Hn1 by (destruct cs1; [simpl in Hl1; lia|done]).
  destruct (join_parts_proper cs1 Hn1 Hc1) as [Hjn Hje].
  pose proof (join_parts_has_sep cs1 Hl1) as Hsep.
  pose proof (join_parts_length cs2 Hc2) as Hl2.
  destruct (relative_path_spec fuel (join_parts cs1 +:+ "/")
              (join_parts cs2) m Hm)
    as (v1 & v2 & m' & Hv1 & Hv2 & E);
    [rewrite length_append; simpl; lia|lia|].
  exists m'. rewrite E. f_equal. f_equal.
  destruct fuel as [|fuel]; [lia|].
  rewrite path_parts_trailing in Hv1 by done.
  rewrite path_parts_join in Hv2 by (done || lia).
  rewrite app_nil_r in Hv2. injection Hv1 as <-. injection Hv2 as <-.
  destruct cs2 as [|c cs2]; [done|].
  assert (join_parts cs1 ≠ c) as Hne.
  { intros E'. apply Forall_cons in Hc2 as [[_ Hc] _].
    rewrite <- E' in Hc. congruence. }
  cbn [common_parts]. apply String.eqb_neq in Hne. rewrite Hne.
  cbn [negb fst snd].
  assert (list_count "." [join_parts cs1] = 0%nat) as Hdot.
  { unfold list_count. rewrite filter_cons_False; [done|].
    intros E'. rewrite E' in Hsep. done. }
  assert (list_count "" [join_parts cs1] = 0%nat) as Hemp.
  { unfold list_count. by rewrite filter_cons_False. }
  unfold relative_of. rewrite Hdot, Hemp.
  change (0 <? Z.of_nat (length [join_parts cs1]) - Z.of_nat 0
               - Z.of_nat 0) with true.
  cbv beta iota. cbn [app]. unfold osp_join.
  by rewrite foldl_join_sep.
Qed.

Lemma relative_path_trailing_separator_witness :
  ∃ m',
    relative_path 12 (join_parts ["a"; "b"; "c"] +:+ "/")
      (join_parts ["a"; "b"; "d"]) import_module
    = Some ("../" +:+ join_parts ["a"; "b"; "d"], m').
Proof.
  apply (relative_path_trailing_separator import_module 12 ["a"; "b"; "c"]
           ["a"; "b"; "d"]).
  - by split.
  - simpl. lia.
  - done.
  - repeat constructor; done.
  - repeat constructor; done.
  - simpl. lia.
  - simpl. lia.
Defined.

(** ** The accumulators *)

Lemma path_parts_rest (fuel : nat) (p : string) (rest : list string) :
  path_parts fuel p rest = (fun v => v ++ rest) <$> path_parts fuel p [].
Proof.
  revert p rest. induction fuel as [|fuel IH]; intros p rest; [done|].
  cbn [path_parts]. destruct (osp_split p) as [hd t].
  destruct (String.length hd <? 1)%nat; [done|].
  destruct (String.length t <? 1)%nat; [done|].
  rewrite (IH hd ([t] ++ rest)), (IH hd ([t] ++ [])).
  destruct (path_parts fuel hd []) as [v|]; [|done].
  cbn. by rewrite <- !app_assoc.
Qed.

(** X19.  The accumulator arguments only receive.  [_path_split(p, rest)]
    returns the parts of [p] followed by [rest], and
    [_common_path(l1, l2, common)] returns [common] followed by the common
    prefix, with the same two rests as the call without [common]: what the
    caller passes is neither reordered nor dropped. *)
Theorem accumulators_are_extended (m : module_state) (fuel : nat)
    (p : string) (rest l1 l2 common : list string) :
  pristine m -> (String.length p < fuel)%nat -> (length l1 < fuel)%nat ->
  ∃ v k r1 r2 m1 m2 m3 m4,
    call_path_split fuel p m = Some (v, m1)
    ∧ call_path_split_with fuel p rest m = Some (v ++ rest, m2)
    ∧ call_common_path fuel l1 l2 m = Some ((k, r1, r2), m3)
    ∧ call_common_path_with fuel l1 l2 common m
      = Some ((common ++ k, r1, r2), m4).
Proof.
  intros Hm Hp Hl.
  destruct (call_path_split_spec fuel p m Hm Hp) as (v & m1 & Hv & E1 & _).
  destruct (call_path_split_with_spec fuel p rest m Hp)
    as (v' & m2 & Hv' & E2 & _).
  destruct (call_common_path_spec fuel l1 l2 m Hm Hl) as (m3 & E3 & _).
  destruct (call_common_path_with_spec fuel l1 l2 common m Hl)
    as (m4 & E4 & _).
  rewrite path_parts_rest, Hv in Hv'. injection Hv' as <-.
  rewrite (common_parts_acc l1 l2 common) in E4.
  destruct (common_parts l1 l2 []) as [[k r1] r2].
  exists v, k, r1, r2, m1, m2, m3, m4. done.
Qed.

Lemma accumulators_are_extended_witness :
  ∃ v k r1 r2 m1 m2 m3 m4,
    call_path_split 6 "a/b/c" import_module = Some (v, m1)
    ∧ call_path_split_with 6 "a/b/c" ["x"; "y"] import_module
      = Some (v ++ ["x"; "y"], m2)
    ∧ call_common_path 6 ["a"; "b"] ["a"; "c"] import_module
      = Some ((k, r1, r2), m3)
    ∧ call_common_path_with 6 ["a"; "b"] ["a"; "c"] ["z"] import_module
      = Some ((["z"] ++ k, r1, r2), m4).
Proof.
  apply (accumulators_are_extended import_module 6 "a/b/c" ["x"; "y"]
           ["a"; "b"] ["a"; "c"] ["z"]).
  - by split.
  - simpl. lia.
  - simpl. lia.
Defined.

End PathsMore.
